(** * cfg: the configuration scanner of [cfg.go], embedded in Rocq

    The Go package scans a text for labelled constructs with six regular
    expressions and dispatches on what they capture.  The development
    below embeds

    - Go strings as lists of bytes ([text]);
    - the regular expressions as syntax trees, run by a backtracking
      matcher with Go's leftmost-first priorities and capture groups;
    - the handlers as functions that return the trace of what they did
      (the calls of the callback [f] and of [dbg.Error], in order)
      together with the returned [error].

    Loops whose bound is not structural carry a fuel argument; the
    entry points supply the length of their input, and the theorems of
    the last part show that this is always enough. *)

From Stdlib Require Import Ascii String.
From Stdlib Require Import List Bool Arith ZArith Lia.
Import ListNotations.
Open Scope list_scope.

Set Implicit Arguments.

(** ** Texts *)

(** A Go [string] is a sequence of bytes.  Every character the regular
    expressions name is ASCII, and no byte of a multi-byte UTF-8 rune is,
    so matching byte by byte and matching rune by rune agree on them. *)
Abbreviation text := (list ascii).

Definition nl : ascii := "010"%char.
Definition tab : ascii := "009"%char.

(** [go "a\n\tb"] reads a Go interpreted string literal: the escapes
    [\n], [\t] and [\\] stand for a newline, a tab and a backslash. *)
Fixpoint go (s : string) : text :=
  match s with
  | EmptyString => []
  | String c s' =>
      match s' with
      | EmptyString => [c]
      | String d s'' =>
          if (c =? "\")%char then
            if (d =? "n")%char then nl :: go s''
            else if (d =? "t")%char then tab :: go s''
            else if (d =? "\")%char then d :: go s''
            else c :: go s'
          else c :: go s'
      end
  end.

Fixpoint text_eqb (a b : text) : bool :=
  match a, b with
  | [], [] => true
  | x :: a', y :: b' => (x =? y)%char && text_eqb a' b'
  | _, _ => false
  end.

(** [strings.Split(s, newline)]: the lines of [s], the last one being what
    follows the last newline. *)
Fixpoint lines (s : text) : list text :=
  match s with
  | [] => [[]]
  | a :: s' =>
      if (a =? nl)%char then [] :: lines s'
      else match lines s' with
           | l :: ls => (a :: l) :: ls
           | [] => [[a]]
           end
  end.

(** Every line followed by a newline. *)
Definition unlines (ls : list text) : text :=
  concat (map (fun l => l ++ [nl]) ls).

(** [strings.Join(ls, sep)]. *)
Fixpoint join (sep : text) (ls : list text) : text :=
  match ls with
  | [] => []
  | [l] => l
  | l :: ls' => l ++ sep ++ join sep ls'
  end.

(** ** Regular expressions *)

Module Re.

(** The fragment of RE2 syntax that [cfg.go] uses.  A character class is
    a predicate on bytes. *)
Inductive regex : Type :=
| Chr (p : ascii -> bool)          (* one byte of a class *)
| Cat (r1 r2 : regex)              (* r1 r2 *)
| Alt (r1 r2 : regex)              (* r1|r2, r1 preferred *)
| Star (r : regex)                 (* r*, more preferred *)
| Lazy (r : regex)                 (* r*?, fewer preferred *)
| Cap (n : nat) (r : regex)        (* the n-th group (r) *)
| Bol                              (* ^ under flag m *)
| Eol.                             (* $ under flag m *)

(** A cursor in the text: the byte before it, the text from it on and
    the groups captured so far (the latest capture of a group first). *)
Record cursor : Type := Cur {
  prev : option ascii;
  rest : text;
  caps : list (nat * text)
}.

Definition at_bol (s : cursor) : bool :=
  match prev s with None => true | Some c => (c =? nl)%char end.

Definition at_eol (s : cursor) : bool :=
  match rest s with [] => true | c :: _ => (c =? nl)%char end.

Definition set_cap (n : nat) (w : text) (s : cursor) : cursor :=
  Cur (prev s) (rest s) ((n, w) :: caps s).

(** A group that took no part in the match reads as the empty string,
    as in the slice [FindStringSubmatch] returns. *)
Fixpoint get_cap (n : nat) (c : list (nat * text)) : text :=
  match c with
  | [] => []
  | (i, w) :: c' => if i =? n then w else get_cap n c'
  end.

Definition cont := cursor -> option cursor.

(** An expression that can match the empty string. *)
Fixpoint nullable (r : regex) : bool :=
  match r with
  | Chr _ => false
  | Cat r1 r2 => nullable r1 && nullable r2
  | Alt r1 r2 => nullable r1 || nullable r2
  | Star _ | Lazy _ | Bol | Eol => true
  | Cap _ r' => nullable r'
  end.

(** Iteration of a body, with the continuation [k] for what follows the
    loop.  An iteration has to consume input, so [S (length (rest s))]
    rounds of fuel are never used up; [guard] says that the body can match
    the empty string, and only then is there anything to look at. *)
Fixpoint loop (greedy guard : bool) (body : cont -> cont) (k : cont)
    (n : nat) (s : cursor) : option cursor :=
  match n with
  | 0 => k s
  | S n' =>
      let again := fun s' =>
        if (if guard then length (rest s') <? length (rest s) else true)
        then loop greedy guard body k n' s' else None in
      if greedy then
        match body again s with Some x => Some x | None => k s end
      else
        match k s with Some x => Some x | None => body again s end
  end.

(** The backtracking matcher: [run r k s] is the first match of [r] at
    [s] that [k] accepts, in the order of preference of a backtracking
    search, which is the match Go's [regexp] returns. *)
Fixpoint run (r : regex) (k : cont) (s : cursor) : option cursor :=
  match r with
  | Chr p =>
      match rest s with
      | c :: t => if p c then k (Cur (Some c) t (caps s)) else None
      | [] => None
      end
  | Cat r1 r2 => run r1 (run r2 k) s
  | Alt r1 r2 =>
      match run r1 k s with Some x => Some x | None => run r2 k s end
  | Star r' => loop true (nullable r') (run r') k (S (length (rest s))) s
  | Lazy r' => loop false (nullable r') (run r') k (S (length (rest s))) s
  | Cap n r' =>
      run r' (fun s' =>
        k (set_cap n (firstn (length (rest s) - length (rest s')) (rest s)) s')) s
  | Bol => if at_bol s then k s else None
  | Eol => if at_eol s then k s else None
  end.

(** The unanchored search: the leftmost start at which [r] matches. *)
Fixpoint search (r : regex) (p : option ascii) (t : text)
    : option (text * cursor) :=
  match run r Some (Cur p t []) with
  | Some e => Some (t, e)
  | None =>
      match t with
      | [] => None
      | c :: t' => search r (Some c) t'
      end
  end.

Fixpoint groups (r : regex) : nat :=
  match r with
  | Chr _ | Bol | Eol => 0
  | Cat r1 r2 | Alt r1 r2 => Nat.max (groups r1) (groups r2)
  | Star r' | Lazy r' => groups r'
  | Cap n r' => Nat.max n (groups r')
  end.

(** [FindStringSubmatch]: [None] is Go's [nil]; element 0 of the slice
    is the whole match and element [i] the text of group [i]. *)
Definition FindStringSubmatch (r : regex) (str : text) : option (list text) :=
  match search r None str with
  | Some (t, e) =>
      Some (firstn (length t - length (rest e)) t
            :: map (fun i => get_cap i (caps e)) (seq 1 (groups r)))
  | None => None
  end.

(** *** Syntax *)

Definition lit (c : ascii) : regex := Chr (Ascii.eqb c).
Definition any : regex := Chr (fun _ => true).        (* . under flag s *)

Definition is_word (c : ascii) : bool :=
  let n := nat_of_ascii c in
  ((48 <=? n) && (n <=? 57)) || ((65 <=? n) && (n <=? 90))
  || ((97 <=? n) && (n <=? 122)) || (n =? 95).
Definition word : regex := Chr is_word.               (* \w *)

Definition plus (r : regex) : regex := Cat r (Star r). (* r+ *)

End Re.

Import Re.

Declare Scope re_scope.
Delimit Scope re_scope with re.
Notation "r1 >> r2" := (Cat r1 r2) (at level 61, right associativity) : re_scope.
Notation "r1 <|> r2" := (Alt r1 r2) (at level 62, right associativity) : re_scope.
Bind Scope re_scope with regex.

(** ** The package's regular expressions

    A compiled expression keeps its source text ([expr], what Go's
    [Regexp.String] returns) next to its syntax tree.  All six are compiled
    with the flags [ms]: [.] matches any byte, the newline too, and [^] and
    [$] match at the start and at the end of a line. *)

Record Regexp : Type := MustCompile { expr : string; prog : regex }.

Definition FindStringSubmatch (re : Regexp) (str : text) : option (list text) :=
  Re.FindStringSubmatch (prog re) str.

(** [x[i]] on the slice a match returns. *)
Definition sub (x : list text) (i : nat) : text := nth i x [].

Definition sp : regex := lit " ".
Definition closer : regex := (lit ">" <|> lit "]" <|> lit "}" <|> lit ")")%re.
Definition opener : regex := (lit "<" <|> lit "[" <|> lit "{" <|> lit "(")%re.

(** 1: label  2: ,  3: the opener  4: what follows the opener's line *)
Definition findConfigStRex : Regexp :=
  MustCompile "(?ms).*?^(\w+) *(,)* *(<|\[|{|\() *\n(.*)"
    (Lazy any >> Bol >> Cap 1 (plus word) >> Star sp >> Star (Cap 2 (lit ","))
     >> Star sp >> Cap 3 opener >> Star sp >> lit nl >> Cap 4 (Star any))%re.

(** 1: the contents  2: the closer  3: what follows the closer *)
Definition findConfigEnRex : Regexp :=
  MustCompile "(?ms)(.*?)\n^(>|\]|}|\))((\n|$).*)"
    (Cap 1 (Lazy any) >> lit nl >> Bol >> Cap 2 closer
     >> Cap 3 (Cap 4 (lit nl <|> Eol) >> Star any))%re.

(** 1: label  2: value  3: remaining *)
Definition findConfigValueRex : Regexp :=
  MustCompile "(?ms).*?^(\w+) *:= *(.*?) *\n(.*)"
    (Lazy any >> Bol >> Cap 1 (plus word) >> Star sp >> lit ":" >> lit "="
     >> Star sp >> Cap 2 (Lazy any) >> Star sp >> lit nl >> Cap 3 (Star any))%re.

(** 1: label  2: the block  3: remaining *)
Definition findConfigBlockRex : Regexp :=
  MustCompile "(?ms).*?^(\w+) *<\n(.*?)\n>((\n|$).*)"
    (Lazy any >> Bol >> Cap 1 (plus word) >> Star sp >> lit "<" >> lit nl
     >> Cap 2 (Lazy any) >> lit nl >> lit ">"
     >> Cap 3 (Cap 4 (lit nl <|> Eol) >> Star any))%re.

(** 1: label  2: the lines  3: remaining *)
Definition findConfigLinesRex : Regexp :=
  MustCompile "(?ms).*?^(\w+) *\[\n(.*?)\n\]((\n|$).*)"
    (Lazy any >> Bol >> Cap 1 (plus word) >> Star sp >> lit "[" >> lit nl
     >> Cap 2 (Lazy any) >> lit nl >> lit "]"
     >> Cap 3 (Cap 4 (lit nl <|> Eol) >> Star any))%re.

(** 1: label  2: ,  3: the list  4: remaining  (2 is empty or a comma) *)
Definition findConfigItemsRex : Regexp :=
  MustCompile "(?ms).*?^(\w+) *(,)* *{\n(.*?)\n}((\n|$).*)"
    (Lazy any >> Bol >> Cap 1 (plus word) >> Star sp >> Star (Cap 2 (lit ","))
     >> Star sp >> lit "{" >> lit nl
     >> Cap 3 (Lazy any) >> lit nl >> lit "}"
     >> Cap 4 (Cap 5 (lit nl <|> Eol) >> Star any))%re.

(** ** [StringListToDict] *)

(** [.] without the flag [s]: any byte but a newline. *)
Definition line_byte : regex := Chr (fun a => negb (a =? nl)%char).

(** 1: label  2: remaining.  [dictRex] is compiled with no flag: [^] is
    the start of the text and nothing else, so that a match starts where
    the text starts or there is none; [prog] is what follows the [^]. *)
Definition dictRex : Regexp :=
  MustCompile "^(\w+) *: *(.*)"
    (Cap 1 (plus word) >> Star sp >> lit ":" >> Star sp >> Cap 2 (Star line_byte))%re.

(** [FindStringSubmatch] for an expression that starts with [^] and has
    no flag [m]. *)
Definition FindStringSubmatchAtStart (re : Regexp) (str : text)
    : option (list text) :=
  match run (prog re) Some (Cur None str []) with
  | Some e =>
      Some (firstn (length str - length (rest e)) str
            :: map (fun i => get_cap i (caps e)) (seq 1 (groups (prog re))))
  | None => None
  end.

(** A Go [map[string]string]: the keys it holds, each once, with their
    values.  [lookup d k] is [d[k]] with its [ok], [store d k v] is
    [d[k] = v], and [len(d)] is the length of the list. *)
Definition dict : Type := list (text * text).

Fixpoint lookup (d : dict) (k : text) : option text :=
  match d with
  | [] => None
  | (k', v) :: d' => if text_eqb k' k then Some v else lookup d' k
  end.

Fixpoint store (d : dict) (k v : text) : dict :=
  match d with
  | [] => [(k, v)]
  | (k', v') :: d' =>
      if text_eqb k' k then (k, v) :: d' else (k', v') :: store d' k v
  end.

(** The body of the loop over the lines. *)
Definition dict_add (result : dict) (v : text) : dict :=
  match FindStringSubmatchAtStart dictRex v with
  | Some x => store result (sub x 1) (sub x 2)
  | None => result
  end.

Definition StringListToDict (l : list text) : dict :=
  fold_left dict_add l [].

(** ** Nesting, as the text shows it *)

(** The depth a line shows: the number of tabs before the label it starts
    with, and one more; 0 for a line that does not start, after its tabs,
    with a byte of a label. *)
Fixpoint line_depth (l : text) : nat :=
  match l with
  | [] => 0
  | a :: l' =>
      if (a =? tab)%char then
        match line_depth l' with 0 => 0 | S n => S (S n) end
      else if is_word a then 1 else 0
  end.

(** The nesting depth of a text: the depth of its deepest line. *)
Definition nesting_depth (s : text) : nat :=
  list_max (map line_depth (lines s)).

(** ** What a handler does *)

Inductive ConfigType : Type :=
  ConfigBlock | ConfigLines | ConfigItems | ConfigValue.

Inductive error : Type := ErrIllegalDataBlock.

(** The three messages [handleConfigData] passes to [dbg.Error]. *)
Inductive diagnostic : Type :=
| MissingEnd (label opener : text)
| InvalidEnd (label opener closer : text)
| IllegalComma (label opener : text).

(** One step a handler takes in the world outside: a call of the callback
    [f], or a line for the diagnostic sink. *)
Inductive event : Type :=
| Call (t : ConfigType) (label : text) (data : list text)
| DbgError (d : diagnostic).

Definition is_call (e : event) : bool :=
  match e with Call _ _ _ => true | DbgError _ => false end.

(** The records the callback received, in order. *)
Definition records (tr : list event) : list event := filter is_call tr.

(** ** The loop of the four flat handlers

    [for x := re.FindStringSubmatch(str); x != nil;
         x = re.FindStringSubmatch(x[rem]) { ... x ... }]
    yields the matches [x] in order.  [None] means out of fuel. *)
Fixpoint each_match (re : Regexp) (rem : nat) (fuel : nat) (str : text)
    : option (list (list text)) :=
  match fuel with
  | 0 => None
  | S fuel' =>
      match FindStringSubmatch re str with
      | None => Some []
      | Some x =>
          match each_match re rem fuel' (sub x rem) with
          | Some xs => Some (x :: xs)
          | None => None
          end
      end
  end.

Definition HandleConfigValues (str : text) : option (list (text * text)) :=
  option_map (map (fun x => (sub x 1, sub x 2)))
    (each_match findConfigValueRex 3 (S (length str)) str).

Definition HandleConfigBlocks (str : text) : option (list (text * text)) :=
  option_map (map (fun x => (sub x 1, sub x 2)))
    (each_match findConfigBlockRex 3 (S (length str)) str).

(** ** Slices and [strings.Index] *)

Open Scope Z_scope.

(** [strings.Index(s, string(c))]: the index of the first [c], or -1. *)
Fixpoint Index (s : text) (c : ascii) : Z :=
  match s with
  | [] => -1
  | x :: s' =>
      if (x =? c)%char then 0
      else let i := Index s' c in if i <? 0 then -1 else i + 1
  end.

(** [s[lo:hi]] and [s[lo:]], for indices in range. *)
Definition slice (s : text) (lo hi : Z) : text :=
  firstn (Z.to_nat (hi - lo)) (skipn (Z.to_nat lo) s).
Definition slice_from (s : text) (lo : Z) : text := skipn (Z.to_nat lo) s.

(** ** [removeLeadingTabs] *)

Fixpoint removeLeadingTabs_loop (fuel : nat) (src result : text)
    : option (text * option error) :=
  match src with
  | [] => Some (result, None)
  | c :: _ =>
      match fuel with
      | O => None
      | S fuel' =>
          let i := Index src nl in
          if (0 <? i) && (c =? tab)%char then
            removeLeadingTabs_loop fuel' (slice_from src (i + 1))
              (result ++ slice src 1 (i + 1))
          else if (i =? 0) && (c =? nl)%char then
            removeLeadingTabs_loop fuel' (slice_from src (i + 1))
              (result ++ [nl])
          else Some ([], Some ErrIllegalDataBlock)
      end
  end.

Definition removeLeadingTabs (src : text) : option (text * option error) :=
  match src with
  | [] => Some ([], None)
  | _ => removeLeadingTabs_loop (length src) src []
  end.

Close Scope Z_scope.

(** ** [handleConfigData] *)

(** [matching]: a Go map, which reads as the empty string off its keys. *)
Definition matching (o : text) : text :=
  if text_eqb o (go "<") then go ">"
  else if text_eqb o (go "[") then go "]"
  else if text_eqb o (go "{") then go "}"
  else if text_eqb o (go "(") then go ")"
  else [].

(** [lp + ':' + l] when [lp] is not empty, [l] otherwise. *)
Definition join_path (lp l : text) : text :=
  match lp with [] => l | _ => lp ++ go ":" ++ l end.

(** The outcome of a scan: the trace, and the [error] returned. *)
Definition result : Type := (list event * option error)%type.

Section Handlers.

(** The two functions of the package [github.com/jayacarlson/txt] that
    the handlers call; their code is not part of this repository. *)
Variable ListToStringSlice : text -> list text.
Variable SepListToStringSlice : text -> text -> list text.

Definition HandleConfigLines (str : text) : option (list (text * list text)) :=
  option_map (map (fun x => (sub x 1, ListToStringSlice (sub x 2))))
    (each_match findConfigLinesRex 3 (S (length str)) str).

(** The separator [HandleConfigItems] passes on: [x[2]], or a blank when
    [x[2]] is empty. *)
Definition separator (x2 : text) : text :=
  match x2 with [] => go " " | _ => x2 end.

(** The call [HandleConfigItems] makes for the match [x]. *)
Definition items_call (x : list text) : text * list text :=
  (sub x 1, SepListToStringSlice (sub x 3) (separator (sub x 2))).

Definition HandleConfigItems (str : text) : option (list (text * list text)) :=
  option_map (map items_call)
    (each_match findConfigItemsRex 4 (S (length str)) str).

(** The calls that the callback [handleConfigData] hands to
    [HandleConfigValues] makes. *)
Definition value_calls (lp : text) (vs : list (text * text)) : list event :=
  map (fun lv => Call ConfigValue (join_path lp (fst lv)) [snd lv]) vs.

Section Body.

(** The function itself, for the calls it makes on shorter texts. *)
Variable self : text -> text -> option result.

(** The [switch s[3]]: what the construct opened by the match [s] and
    closed by the match [e] contributes. *)
Definition dispatch (lp : text) (s e : list text) : option result :=
  let lblPath := join_path lp (sub s 1) in
  if text_eqb (sub s 3) (go "(") then
    match removeLeadingTabs (sub e 1 ++ [nl]) with
    | None => None
    | Some (_, Some err) => Some ([], Some err)
    | Some (st, None) => self lblPath st
    end
  else if text_eqb (sub s 3) (go "<") then
    Some ([Call ConfigBlock lblPath [sub e 1]], None)
  else if text_eqb (sub s 3) (go "[") then
    Some ([Call ConfigLines lblPath (ListToStringSlice (sub e 1))], None)
  else
    Some ([Call ConfigItems lblPath
             (SepListToStringSlice (sub e 1) (separator (sub s 2)))], None).

(** One round of the loop over the remaining text [str] and, through
    [self], the rounds after it. *)
Definition handleConfigData_body (lp str : text) : option result :=
  match str with
  | [] => Some ([], None)
  | _ =>
    (* find any ConfigValues first *)
    match HandleConfigValues str with
    | None => None
    | Some vs =>
      let pre := value_calls lp vs in
      match FindStringSubmatch findConfigStRex str with
      | Some s =>
        match FindStringSubmatch findConfigEnRex (sub s 4) with
        | None =>
          Some (pre ++ [DbgError (MissingEnd (sub s 1) (sub s 3))], None)
        | Some e =>
          if negb (text_eqb (sub e 2) (matching (sub s 3))) then
            Some (pre ++ [DbgError (InvalidEnd (sub s 1) (sub s 3) (sub e 2))],
                  None)
          else if negb (text_eqb (go "{") (sub s 3))
                  && negb (text_eqb [] (sub s 2)) then
            Some (pre ++ [DbgError (IllegalComma (sub s 1) (sub s 3))], None)
          else
            match dispatch lp s e with
            | None => None
            | Some (tr, Some err) => Some (pre ++ tr, Some err)
            | Some (tr, None) =>
              (* str = e[3] *)
              match self lp (sub e 3) with
              | Some (tr', err) => Some (pre ++ tr ++ tr', err)
              | None => None
              end
            end
        end
      | None =>
        (* str is set to the empty string *)
        match self lp [] with
        | Some (tr', err) => Some (pre ++ tr', err)
        | None => None
        end
      end
    end
  end.

End Body.

(** [None] is out of fuel; one unit of fuel pays for one test of the
    loop condition or one call. *)
Fixpoint handleConfigData (fuel : nat) (lp str : text) : option result :=
  match fuel with
  | 0 => None
  | S fuel' => handleConfigData_body (handleConfigData fuel') lp str
  end.

(** [handleConfigData(lp, str, f)], with the fuel its text calls for. *)
Definition scan (lp str : text) : option result :=
  handleConfigData (S (length str)) lp str.

Definition HandleConfigData (str : text) : option result := scan [] str.

End Handlers.

(** ** Label paths, as the specification has them

    The specification gives every record a label path: the labels of the
    containers around it, the outermost first, and then its own label,
    joined by colons.  The scan below is [handleConfigData] with that
    sequence of labels in the place of the string [lp]. *)

Definition render (path : list text) : text := join (go ":") path.

Section Paths.

Variable ListToStringSlice : text -> list text.
Variable SepListToStringSlice : text -> text -> list text.
Variable self : list text -> text -> option result.

Definition value_records (ctx : list text) (vs : list (text * text)) : list event :=
  map (fun lv => Call ConfigValue (render (ctx ++ [fst lv])) [snd lv]) vs.

Definition dispatch_in (ctx : list text) (s e : list text) : option result :=
  let path := ctx ++ [sub s 1] in
  if text_eqb (sub s 3) (go "(") then
    match removeLeadingTabs (sub e 1 ++ [nl]) with
    | None => None
    | Some (_, Some err) => Some ([], Some err)
    | Some (st, None) => self path st
    end
  else if text_eqb (sub s 3) (go "<") then
    Some ([Call ConfigBlock (render path) [sub e 1]], None)
  else if text_eqb (sub s 3) (go "[") then
    Some ([Call ConfigLines (render path) (ListToStringSlice (sub e 1))], None)
  else
    Some ([Call ConfigItems (render path)
             (SepListToStringSlice (sub e 1) (separator (sub s 2)))], None).

Definition scanData_body (ctx : list text) (str : text) : option result :=
  match str with
  | [] => Some ([], None)
  | _ =>
    match HandleConfigValues str with
    | None => None
    | Some vs =>
      let pre := value_records ctx vs in
      match FindStringSubmatch findConfigStRex str with
      | Some s =>
        match FindStringSubmatch findConfigEnRex (sub s 4) with
        | None =>
          Some (pre ++ [DbgError (MissingEnd (sub s 1) (sub s 3))], None)
        | Some e =>
          if negb (text_eqb (sub e 2) (matching (sub s 3))) then
            Some (pre ++ [DbgError (InvalidEnd (sub s 1) (sub s 3) (sub e 2))],
                  None)
          else if negb (text_eqb (go "{") (sub s 3))
                  && negb (text_eqb [] (sub s 2)) then
            Some (pre ++ [DbgError (IllegalComma (sub s 1) (sub s 3))], None)
          else
            match dispatch_in ctx s e with
            | None => None
            | Some (tr, Some err) => Some (pre ++ tr, Some err)
            | Some (tr, None) =>
              match self ctx (sub e 3) with
              | Some (tr', err) => Some (pre ++ tr ++ tr', err)
              | None => None
              end
            end
        end
      | None =>
        match self ctx [] with
        | Some (tr', err) => Some (pre ++ tr', err)
        | None => None
        end
      end
    end
  end.

End Paths.

(** The scan of the specification inside the containers [ctx]. *)
Fixpoint scanData_in (L : text -> list text) (S' : text -> text -> list text)
    (fuel : nat) (ctx : list text) (str : text) : option result :=
  match fuel with
  | 0 => None
  | S fuel' => scanData_body L S' (scanData_in L S' fuel') ctx str
  end.

(** ** The helpers of package [txt], from the specification *)

Module Txt.

(** White space: blank, tab, newline, vertical tab, form feed, return. *)
Definition is_space (a : ascii) : bool :=
  (a =? " ")%char || (a =? tab)%char || (a =? nl)%char
  || (a =? "011")%char || (a =? "012")%char || (a =? "013")%char.

Fixpoint trim_left (s : text) : text :=
  match s with
  | a :: s' => if is_space a then trim_left s' else s
  | [] => []
  end.

Definition TrimSpace (s : text) : text :=
  rev (trim_left (rev (trim_left s))).

(** A trimmed line survives when it is not empty and does not start
    with [#]. *)
Definition survives (l : text) : bool :=
  match l with [] => false | a :: _ => negb (a =? "#")%char end.

(** Modelled from the spec: [txt.ListToStringSlice], whose code is in
    another package.  The text is split into lines, each line is trimmed
    of white space at both ends, and the lines that are then empty or
    start with [#] are discarded. *)
Definition ListToStringSlice (src : text) : list text :=
  filter survives (map TrimSpace (lines src)).

(** The pieces of [s] between the occurrences of the byte [c]. *)
Fixpoint split_on (c : ascii) (s : text) : list text :=
  match s with
  | [] => [[]]
  | a :: s' =>
      if (a =? c)%char then [] :: split_on c s'
      else match split_on c s' with
           | l :: ls => (a :: l) :: ls
           | [] => [[a]]
           end
  end.

(** The maximal runs of bytes that are not white space. *)
Definition fields (s : text) : list text :=
  filter (fun w => negb (text_eqb w []))
    (split_on " " (map (fun a => if is_space a then " "%char else a) s)).

(** Modelled from the spec: [txt.SepListToStringSlice], whose code is in
    another package.  The lines of the text go through the removal of
    blank and [#] lines of [ListToStringSlice]; what survives is split
    at every separator, a line break counting as one, and each item is
    trimmed.  The separator is the comma when [sep] is a comma, and any
    run of white space otherwise; an empty field between two commas
    stays, as an empty item. *)
Definition SepListToStringSlice (src sep : text) : list text :=
  let kept := ListToStringSlice src in
  if text_eqb sep (go ",")
  then map TrimSpace (split_on "," (join (go ",") kept))
  else fields (join (go " ") kept).

End Txt.


(** * Properties of the matcher *)

Module ReFacts.

(** The byte before the cursor once [w] has been read. *)
Definition lastp (w : text) (p : option ascii) : option ascii :=
  fold_left (fun _ a => Some a) w p.

Lemma lastp_app w1 w2 p : lastp (w1 ++ w2) p = lastp w2 (lastp w1 p).
Proof. apply fold_left_app. Qed.

(** [den r p w t c c']: [r] can match the word [w] when [p] is the byte
    before it and [t] the text after it, and the groups [c] become [c'].
    Preference plays no part here. *)
Inductive den : regex -> option ascii -> text -> text ->
                list (nat * text) -> list (nat * text) -> Prop :=
| den_chr f a p t c :
    f a = true -> den (Chr f) p [a] t c c
| den_cat r1 r2 p w1 w2 t c c1 c2 :
    den r1 p w1 (w2 ++ t) c c1 -> den r2 (lastp w1 p) w2 t c1 c2 ->
    den (Cat r1 r2) p (w1 ++ w2) t c c2
| den_alt_l r1 r2 p w t c c' :
    den r1 p w t c c' -> den (Alt r1 r2) p w t c c'
| den_alt_r r1 r2 p w t c c' :
    den r2 p w t c c' -> den (Alt r1 r2) p w t c c'
| den_star_nil r p t c : den (Star r) p [] t c c
| den_star_cons r p w1 w2 t c c1 c2 :
    w1 <> [] -> den r p w1 (w2 ++ t) c c1 ->
    den (Star r) (lastp w1 p) w2 t c1 c2 ->
    den (Star r) p (w1 ++ w2) t c c2
| den_lazy_nil r p t c : den (Lazy r) p [] t c c
| den_lazy_cons r p w1 w2 t c c1 c2 :
    w1 <> [] -> den r p w1 (w2 ++ t) c c1 ->
    den (Lazy r) (lastp w1 p) w2 t c1 c2 ->
    den (Lazy r) p (w1 ++ w2) t c c2
| den_cap n r p w t c c' :
    den r p w t c c' -> den (Cap n r) p w t c ((n, w) :: c')
| den_bol p t c : at_bol (Cur p t c) = true -> den Bol p [] t c c
| den_eol p t c : at_eol (Cur p t c) = true -> den Eol p [] t c c.

Definition sound (body : cont -> cont) (D : option ascii -> text -> text ->
    list (nat * text) -> list (nat * text) -> Prop) : Prop :=
  forall k p u c x, body k (Cur p u c) = Some x ->
    exists w t c', u = w ++ t /\ D p w t c c' /\
                   k (Cur (lastp w p) t c') = Some x.

Lemma firstn_consumed (w t : text) :
  firstn (length (w ++ t) - length t) (w ++ t) = w.
Proof.
  rewrite length_app, Nat.add_sub.
  rewrite firstn_app, Nat.sub_diag, firstn_all. simpl. apply app_nil_r.
Qed.

(** A match of an expression that is not nullable is not empty. *)
Lemma den_nonnull r p w t c c' :
  den r p w t c c' -> nullable r = false -> w <> [].
Proof.
  induction 1; cbn [nullable]; intros N; try discriminate.
  - apply andb_false_iff in N. intros E. apply app_eq_nil in E.
    destruct E as [E1 E2]. destruct N as [N|N]; [now apply IHden1|now apply IHden2].
  - apply orb_false_iff in N. tauto.
  - apply orb_false_iff in N. tauto.
  - auto.
Qed.

Lemma guard_progress r p (w1 t1 : text) c c1 :
  den r p w1 t1 c c1 ->
  (if nullable r then length t1 <? length (w1 ++ t1) else true) = true ->
  w1 <> [].
Proof.
  intros D L. destruct (nullable r) eqn:N.
  - intros ->. apply Nat.ltb_lt in L. simpl in L. lia.
  - eapply den_nonnull; eauto.
Qed.

Lemma loop_sound_star r n :
  sound (run r) (den r) ->
  sound (fun k => loop true (nullable r) (run r) k n) (den (Star r)).
Proof.
  intros Hr. induction n as [|n IH]; intros k p u c x H; simpl in H.
  - exists [], u, c. repeat split; auto. constructor.
  - destruct (run r _ (Cur p u c)) as [y|] eqn:E.
    + inversion H; subst y; clear H.
      apply Hr in E. destruct E as (w1 & t1 & c1 & -> & D1 & E).
      simpl in E.
      destruct (if nullable r then length t1 <? length (w1 ++ t1) else true)
        eqn:L; [|discriminate].
      apply IH in E. destruct E as (w2 & t & c2 & -> & D2 & E).
      exists (w1 ++ w2), t, c2. rewrite <- app_assoc, lastp_app.
      repeat split; auto. econstructor; eauto using guard_progress.
    + exists [], u, c. repeat split; auto. constructor.
Qed.

Lemma loop_sound_lazy r n :
  sound (run r) (den r) ->
  sound (fun k => loop false (nullable r) (run r) k n) (den (Lazy r)).
Proof.
  intros Hr. induction n as [|n IH]; intros k p u c x H; simpl in H.
  - exists [], u, c. repeat split; auto. constructor.
  - destruct (k (Cur p u c)) as [y|] eqn:E0.
    + inversion H; subst y. exists [], u, c. repeat split; auto. constructor.
    + apply Hr in H. destruct H as (w1 & t1 & c1 & -> & D1 & E).
      simpl in E.
      destruct (if nullable r then length t1 <? length (w1 ++ t1) else true)
        eqn:L; [|discriminate].
      apply IH in E. destruct E as (w2 & t & c2 & -> & D2 & E).
      exists (w1 ++ w2), t, c2. rewrite <- app_assoc, lastp_app.
      repeat split; auto. econstructor; eauto using guard_progress.
Qed.

(** Whatever the matcher returns comes from a match of the expression
    that the continuation accepted. *)
Lemma run_sound r : sound (run r) (den r).
Proof.
  induction r as [f|r1 IH1 r2 IH2|r1 IH1 r2 IH2|r IH|r IH|n r IH| |];
    intros k p u c x H; [simpl in H .. | | | simpl in H | simpl in H | simpl in H].
  - destruct u as [|a t]; [discriminate|]. destruct (f a) eqn:F; [|discriminate].
    exists [a], t, c. repeat split; auto. now constructor.
  - apply IH1 in H. destruct H as (w1 & t1 & c1 & -> & D1 & H).
    apply IH2 in H. destruct H as (w2 & t & c2 & -> & D2 & H).
    exists (w1 ++ w2), t, c2. rewrite <- app_assoc, lastp_app.
    repeat split; auto. econstructor; eauto.
  - destruct (run r1 k (Cur p u c)) as [y|] eqn:E.
    + inversion H; subst y. apply IH1 in E.
      destruct E as (w & t & c' & -> & D & E).
      exists w, t, c'. repeat split; auto. now apply den_alt_l.
    + apply IH2 in H. destruct H as (w & t & c' & -> & D & H).
      exists w, t, c'. repeat split; auto. now apply den_alt_r.
  - exact (loop_sound_star (S (length u)) IH k p u c H).
  - exact (loop_sound_lazy (S (length u)) IH k p u c H).
  - apply IH in H. destruct H as (w & t & c' & -> & D & H).
    exists w, t, ((n, w) :: c'). repeat split; auto. { now constructor. }
    simpl in H. unfold set_cap in H. simpl in H.
    rewrite firstn_consumed in H. exact H.
  - destruct (at_bol (Cur p u c)) eqn:B; [|discriminate].
    exists [], u, c. repeat split; auto. now constructor.
  - destruct (at_eol (Cur p u c)) eqn:B; [|discriminate].
    exists [], u, c. repeat split; auto. now constructor.
Qed.

(** *** Loops over one byte class *)

(** [r*?] for a class [f]: the first cursor, going right over bytes of
    [f], that the continuation accepts. *)
Fixpoint lazy_chr (f : ascii -> bool) (k : cont) (p : option ascii)
    (u : text) (c : list (nat * text)) : option cursor :=
  match k (Cur p u c) with
  | Some x => Some x
  | None =>
      match u with
      | a :: u' => if f a then lazy_chr f k (Some a) u' c else None
      | [] => None
      end
  end.

(** [r*] for a class [f]: the last such cursor. *)
Fixpoint greedy_chr (f : ascii -> bool) (k : cont) (p : option ascii)
    (u : text) (c : list (nat * text)) : option cursor :=
  match u with
  | a :: u' =>
      if f a then
        match greedy_chr f k (Some a) u' c with
        | Some x => Some x
        | None => k (Cur p u c)
        end
      else k (Cur p u c)
  | [] => k (Cur p u c)
  end.

Lemma loop_lazy_chr f k u : forall n p c,
  length u < n ->
  loop false false (run (Chr f)) k n (Cur p u c) = lazy_chr f k p u c.
Proof.
  induction u as [|a u IH]; intros [|n] p c L; try (simpl in L; lia).
  - simpl. destruct (k _); reflexivity.
  - cbn [loop lazy_chr run rest caps]. destruct (k _); [reflexivity|].
    destruct (f a); [|reflexivity].
    apply IH. simpl in L. lia.
Qed.

Lemma loop_greedy_chr f k u : forall n p c,
  length u < n ->
  loop true false (run (Chr f)) k n (Cur p u c) = greedy_chr f k p u c.
Proof.
  induction u as [|a u IH]; intros [|n] p c L; try (simpl in L; lia).
  - reflexivity.
  - cbn [loop greedy_chr run rest caps].
    destruct (f a); [|reflexivity].
    rewrite IH by (simpl in L; lia). reflexivity.
Qed.

Lemma run_Lazy_chr f k p u c :
  run (Lazy (Chr f)) k (Cur p u c) = lazy_chr f k p u c.
Proof. apply loop_lazy_chr. simpl. lia. Qed.

Lemma run_Lazy_any k p u c :
  run (Lazy any) k (Cur p u c) = lazy_chr (fun _ => true) k p u c.
Proof. apply run_Lazy_chr. Qed.

Lemma run_Star_chr f k p u c :
  run (Star (Chr f)) k (Cur p u c) = greedy_chr f k p u c.
Proof. apply loop_greedy_chr. simpl. lia. Qed.

Lemma run_Cat r1 r2 k s : run (Cat r1 r2) k s = run r1 (run r2 k) s.
Proof. reflexivity. Qed.

Lemma run_Cap n r k p u c :
  run (Cap n r) k (Cur p u c) =
  run r (fun s' => k (set_cap n (firstn (length u - length (rest s')) u) s'))
    (Cur p u c).
Proof. reflexivity. Qed.

Lemma run_Chr f k p u c :
  run (Chr f) k (Cur p u c) =
  match u with
  | a :: t => if f a then k (Cur (Some a) t c) else None
  | [] => None
  end.
Proof. reflexivity. Qed.

(** A greedy loop takes the whole run of [f] when what follows accepts
    there. *)
Lemma greedy_chr_max f k w : forall p t c x,
  forallb f w = true ->
  match t with [] => True | a :: _ => f a = false end ->
  k (Cur (lastp w p) t c) = Some x ->
  greedy_chr f k p (w ++ t) c = Some x.
Proof.
  induction w as [|a w IH]; intros p t c x F T K; simpl in *.
  - destruct t as [|b t]; simpl; [exact K|]. now rewrite T.
  - apply andb_prop in F. destruct F as [Fa F]. rewrite Fa.
    now rewrite (IH (Some a) t c x F T K).
Qed.

(** A lazy loop moves on over [w] when what follows refuses every
    cursor inside [w]. *)
Lemma lazy_chr_skip f k w : forall p t c,
  forallb f w = true ->
  (forall w1 w2, w = w1 ++ w2 -> w2 <> [] ->
     k (Cur (lastp w1 p) (w2 ++ t) c) = None) ->
  lazy_chr f k p (w ++ t) c = lazy_chr f k (lastp w p) t c.
Proof.
  induction w as [|a w IH]; intros p t c F N; [reflexivity|].
  simpl in F. apply andb_prop in F. destruct F as [Fa F].
  change ((a :: w) ++ t) with (a :: (w ++ t)). cbn [lazy_chr].
  pose proof (N [] (a :: w) eq_refl) as N0. cbn in N0.
  rewrite N0 by discriminate. rewrite Fa.
  apply IH; auto. intros w1 w2 -> W. apply (N (a :: w1) w2 eq_refl W).
Qed.

Lemma lazy_chr_here f k p u c x :
  k (Cur p u c) = Some x -> lazy_chr f k p u c = Some x.
Proof. intros K. destruct u; simpl; now rewrite K. Qed.

(** The last group, a greedy loop over any byte, takes all that is left. *)
Lemma greedy_any_all (k : cont) u : forall p c,
  (forall s, k s <> None) ->
  greedy_chr (fun _ => true) k p u c = k (Cur (lastp u p) [] c).
Proof.
  induction u as [|a u IH]; intros p c K; [reflexivity|].
  cbn [greedy_chr]. rewrite IH by exact K.
  change (lastp (a :: u) p) with (lastp u (Some a)).
  destruct (k (Cur (lastp u (Some a)) [] c)) eqn:E; [reflexivity|].
  now apply K in E.
Qed.

Lemma run_rest_group n p u c :
  run (Cap n (Star any)) Some (Cur p u c) =
  Some (Cur (lastp u p) [] ((n, u) :: c)).
Proof.
  rewrite run_Cap. unfold any. rewrite run_Star_chr.
  rewrite greedy_any_all by discriminate.
  unfold set_cap. simpl. now rewrite Nat.sub_0_r, firstn_all.
Qed.

(** The group that ends a closing line: a newline or the end of the
    text, then all that is left. *)
Lemma run_closer_rest n m p u c :
  run (Cap n (Cat (Cap m (Alt (lit nl) Eol)) (Star any))) Some (Cur p u c) =
  match u with
  | [] => Some (Cur p [] ((n, []) :: (m, []) :: c))
  | a :: _ =>
      if (a =? nl)%char
      then Some (Cur (lastp u p) [] ((n, u) :: (m, [nl]) :: c))
      else None
  end.
Proof.
  destruct u as [|a u].
  - reflexivity.
  - rewrite run_Cap, run_Cat, run_Cap.
    unfold set_cap. cbn [run lit rest caps prev at_eol].
    rewrite (Ascii.eqb_sym nl a). destruct (a =? nl)%char eqn:E; [|reflexivity].
    apply Ascii.eqb_eq in E. subst a.
    unfold any. rewrite loop_greedy_chr by (simpl; lia).
    rewrite greedy_any_all by discriminate.
    cbn [rest prev caps length].
    replace (S (length u) - length u) with 1 by lia.
    replace (S (length u) - 0) with (length (nl :: u)) by (simpl; lia).
    now rewrite firstn_all.
Qed.

Lemma run_closer_rest_inv n m p u c e :
  run (Cap n (Cat (Cap m (Alt (lit nl) Eol)) (Star any))) Some (Cur p u c) = Some e ->
  match u with [] => True | a :: _ => a = nl end /\
  exists w, caps e = (n, u) :: (m, w) :: c.
Proof.
  rewrite run_closer_rest. destruct u as [|a u].
  - intros E. inversion E. simpl. eauto.
  - destruct (a =? nl)%char eqn:A; [|discriminate].
    apply Ascii.eqb_eq in A. intros E. inversion E. simpl. eauto.
Qed.

(** *** Matches of loops over a class *)

Lemma den_star_chr f p w t c c' :
  den (Star (Chr f)) p w t c c' -> c' = c /\ forallb f w = true.
Proof.
  remember (Star (Chr f)) as r eqn:R. intros D.
  induction D; try discriminate; inversion R; subst.
  - auto.
  - inversion D1; subst. destruct (IHD2 eq_refl) as [-> F].
    simpl. rewrite F.
    match goal with E : f _ = true |- _ => now rewrite E end.
Qed.

Lemma den_lazy_chr f p w t c c' :
  den (Lazy (Chr f)) p w t c c' -> c' = c /\ forallb f w = true.
Proof.
  remember (Lazy (Chr f)) as r eqn:R. intros D.
  induction D; try discriminate; inversion R; subst.
  - auto.
  - inversion D1; subst. destruct (IHD2 eq_refl) as [-> F].
    simpl. rewrite F.
    match goal with E : f _ = true |- _ => now rewrite E end.
Qed.

(** A loop over a one-byte group: the group is untouched when the loop
    reads nothing and holds one byte otherwise. *)
Lemma den_star_cap_chr n f p w t c c' :
  den (Star (Cap n (Chr f))) p w t c c' ->
  forallb f w = true /\
  (forall m, m <> n -> get_cap m c' = get_cap m c) /\
  match w with
  | [] => c' = c
  | _ => exists a, get_cap n c' = [a] /\ f a = true
  end.
Proof.
  remember (Star (Cap n (Chr f))) as r eqn:R. intros D.
  induction D; try discriminate; inversion R; subst.
  - repeat split; auto.
  - inversion D1; subst.
    match goal with E : den (Chr f) _ _ _ _ _ |- _ => inversion E; subst end.
    destruct (IHD2 eq_refl) as (F & G & W). simpl. rewrite F.
    match goal with E : f _ = true |- _ => rewrite E end.
    repeat split; auto.
    + intros m M. rewrite G by exact M. simpl.
      destruct (n =? m) eqn:E; [apply Nat.eqb_eq in E; congruence|reflexivity].
    + destruct w2 as [|b w2].
      * subst c2. exists a. simpl. now rewrite Nat.eqb_refl.
      * exact W.
Qed.

(** *** The search *)

Lemma search_sound r u : forall p t e,
  search r p u = Some (t, e) ->
  exists sk, u = sk ++ t /\ run r Some (Cur (lastp sk p) t []) = Some e.
Proof.
  induction u as [|a u IH]; intros p t e H; simpl in H.
  - destruct (run r Some (Cur p [] [])) eqn:E; [|discriminate].
    inversion H; subst. exists []. auto.
  - destruct (run r Some (Cur p (a :: u) [])) eqn:E.
    + inversion H; subst. exists []. auto.
    + apply IH in H. destruct H as (sk & -> & H). exists (a :: sk). auto.
Qed.

(** The search returns the match at the first start that has one. *)
Lemma search_first_start r u : forall p t e,
  search r p u = Some (t, e) ->
  t = u \/ run r Some (Cur p u []) = None.
Proof.
  intros p t e H. destruct u as [|a u]; simpl in H.
  - destruct (run r Some (Cur p [] [])); [|discriminate]. inversion H. now left.
  - destruct (run r Some (Cur p (a :: u) [])); [|now right].
    inversion H. now left.
Qed.

Lemma lazy_chr_complete (k : cont) w : forall p t c,
  k (Cur (lastp w p) t c) <> None ->
  lazy_chr (fun _ => true) k p (w ++ t) c <> None.
Proof.
  induction w as [|a w IH]; intros p t c K.
  - simpl in K. destruct t; simpl; destruct (k _); congruence.
  - change ((a :: w) ++ t) with (a :: (w ++ t)). cbn [lazy_chr].
    destruct (k (Cur p (a :: w ++ t) c)); [discriminate|]. now apply IH.
Qed.

Lemma Find_sound re str x :
  FindStringSubmatch re str = Some x ->
  exists sk t e, str = sk ++ t /\
    run (prog re) Some (Cur (lastp sk None) t []) = Some e /\
    x = firstn (length t - length (rest e)) t
        :: map (fun i => get_cap i (caps e)) (seq 1 (groups (prog re))).
Proof.
  unfold FindStringSubmatch, Re.FindStringSubmatch. intros H.
  destruct (search (prog re) None str) as [[t e]|] eqn:E; [|discriminate].
  inversion H; subst. apply search_sound in E. destruct E as (sk & -> & E).
  exists sk, t, e. auto.
Qed.

(** *** Running along a given match *)

(** The next byte, if there is one, is not of the class [f]. *)
Definition stops (f : ascii -> bool) (t : text) : Prop :=
  match t with [] => True | a :: _ => f a = false end.

Lemma search_first r p t e :
  run r Some (Cur p t []) = Some e -> search r p t = Some (t, e).
Proof. intros H. destruct t; simpl; now rewrite H. Qed.

Lemma run_Bol k s : at_bol s = true -> run Bol k s = k s.
Proof. intros H. simpl. now rewrite H. Qed.

Lemma run_lit a k p t c :
  run (lit a) k (Cur p (a :: t) c) = k (Cur (Some a) t c).
Proof. unfold lit. rewrite run_Chr. now rewrite Ascii.eqb_refl. Qed.

Lemma run_star_max f k p w t c x :
  forallb f w = true -> stops f t ->
  k (Cur (lastp w p) t c) = Some x ->
  run (Star (Chr f)) k (Cur p (w ++ t) c) = Some x.
Proof. intros F T K. rewrite run_Star_chr. now apply greedy_chr_max. Qed.

Lemma run_cap_plus_max n f k p w t c x :
  w <> [] -> forallb f w = true -> stops f t ->
  k (Cur (lastp w p) t ((n, w) :: c)) = Some x ->
  run (Cap n (plus (Chr f))) k (Cur p (w ++ t) c) = Some x.
Proof.
  intros N F T K. destruct w as [|a w]; [congruence|].
  simpl in F. apply andb_prop in F. destruct F as [Fa F].
  rewrite run_Cap. unfold plus. rewrite run_Cat.
  change ((a :: w) ++ t) with (a :: (w ++ t)). rewrite run_Chr, Fa.
  apply run_star_max; auto.
  unfold set_cap. cbn [rest prev caps].
  change (a :: w ++ t) with ((a :: w) ++ t). rewrite firstn_consumed.
  exact K.
Qed.

Lemma run_lazy_skip k p w t c x :
  (forall w1 w2, w = w1 ++ w2 -> w2 <> [] ->
     k (Cur (lastp w1 p) (w2 ++ t) c) = None) ->
  k (Cur (lastp w p) t c) = Some x ->
  run (Lazy any) k (Cur p (w ++ t) c) = Some x.
Proof.
  intros N K. unfold any. rewrite run_Lazy_chr, lazy_chr_skip.
  - now apply lazy_chr_here.
  - clear. induction w; simpl; auto.
  - exact N.
Qed.

Lemma run_cap_lazy_skip n k p w t c x :
  (forall w1 w2, w = w1 ++ w2 -> w2 <> [] ->
     k (Cur (lastp w1 p) (w2 ++ t) ((n, w1) :: c)) = None) ->
  k (Cur (lastp w p) t ((n, w) :: c)) = Some x ->
  run (Cap n (Lazy any)) k (Cur p (w ++ t) c) = Some x.
Proof.
  intros N K. rewrite run_Cap. apply run_lazy_skip.
  - intros w1 w2 -> W. unfold set_cap. cbn [rest prev caps].
    rewrite <- app_assoc, firstn_consumed. now apply N.
  - unfold set_cap. cbn [rest prev caps]. now rewrite firstn_consumed.
Qed.

(** A greedy loop over a one-byte group: each byte read sets the group. *)
Lemma loop_star_cap_max n f k w : forall m p t c x,
  length (w ++ t) < m ->
  forallb f w = true -> stops f t ->
  k (Cur (lastp w p) t (rev (map (fun a => (n, [a])) w) ++ c)) = Some x ->
  loop true false (run (Cap n (Chr f))) k m (Cur p (w ++ t) c) = Some x.
Proof.
  induction w as [|a w IH]; intros m p t c x Lm F T K.
  - destruct m as [|m]; [simpl in Lm; lia|]. simpl in K. cbn [loop app].
    rewrite run_Cap, run_Chr. destruct t as [|b t]; [exact K|].
    simpl in T. now rewrite T.
  - destruct m as [|m]; [simpl in Lm; lia|].
    simpl in F. apply andb_prop in F. destruct F as [Fa F].
    cbn [loop]. rewrite run_Cap. change ((a :: w) ++ t) with (a :: (w ++ t)).
    rewrite run_Chr, Fa. unfold set_cap. cbn [rest prev caps].
    replace (length (a :: w ++ t) - length (w ++ t)) with 1 by (cbn [length]; lia).
    cbn [firstn].
    rewrite (IH m (Some a) t ((n, [a]) :: c) x); auto.
    + simpl in Lm. lia.
    + simpl in K. rewrite <- app_assoc in K. exact K.
Qed.

Lemma run_star_cap_max n f k p w t c x :
  forallb f w = true -> stops f t ->
  k (Cur (lastp w p) t (rev (map (fun a => (n, [a])) w) ++ c)) = Some x ->
  run (Star (Cap n (Chr f))) k (Cur p (w ++ t) c) = Some x.
Proof. intros F T K. apply loop_star_cap_max; auto. Qed.

Lemma lastp_in w p : w <> [] -> exists a, lastp w p = Some a /\ In a w.
Proof.
  revert p. induction w as [|a w IH]; intros p N; [congruence|].
  destruct w as [|b w].
  - exists a. simpl. auto.
  - destruct (IH (Some a)) as (x & E & I); [discriminate|].
    exists x. split; [exact E|now right].
Qed.

End ReFacts.

(** * What the package's expressions match *)

Module Shapes.

Import ReFacts.

Ltac peel H w t c D :=
  rewrite run_Cat in H; apply run_sound in H;
  destruct H as (w & t & c & -> & D & H).

Ltac inv D := inversion D; subst; clear D.

Lemma den_lit a p w t c c' : den (lit a) p w t c c' -> w = [a] /\ c' = c.
Proof.
  intros D. inv D.
  match goal with E : (_ =? _)%char = true |- _ => apply Ascii.eqb_eq in E; subst end.
  auto.
Qed.

Lemma den_plus_chr f p w t c c' :
  den (plus (Chr f)) p w t c c' -> c' = c /\ w <> [] /\ forallb f w = true.
Proof.
  intros D. inv D.
  match goal with E : den (Chr f) _ _ _ _ _ |- _ => inv E end.
  match goal with E : den (Star _) _ _ _ _ _ |- _ =>
    apply den_star_chr in E; destruct E as [-> F] end.
  repeat split; [discriminate|]. simpl.
  match goal with E : f _ = true |- _ => now rewrite E end.
Qed.

Lemma den_opener p w t c c' :
  den opener p w t c c' -> c' = c /\ exists o, w = [o] /\ In o (go "<[{(").
Proof.
  intros D. unfold opener in D.
  repeat match goal with
         | E : den (Alt _ _) _ _ _ _ _ |- _ => inv E
         | E : den (lit _) _ _ _ _ _ |- _ => apply den_lit in E; destruct E as [-> ->]
         end; (split; [reflexivity|eexists; split; [reflexivity|simpl; tauto]]).
Qed.

Lemma den_closer p w t c c' :
  den closer p w t c c' -> c' = c /\ exists o, w = [o] /\ In o (go ">]})").
Proof.
  intros D. unfold closer in D.
  repeat match goal with
         | E : den (Alt _ _) _ _ _ _ _ |- _ => inv E
         | E : den (lit _) _ _ _ _ _ |- _ => apply den_lit in E; destruct E as [-> ->]
         end; (split; [reflexivity|eexists; split; [reflexivity|simpl; tauto]]).
Qed.

(** The start of every labelled construct: the lazy skip, the start of
    a line, the label and the blanks after it. *)
Definition is_sp (a : ascii) : bool := (" " =? a)%char.
Definition is_comma (a : ascii) : bool := ("," =? a)%char.

(** The byte before a cursor starts a line. *)
Definition line_start (pre : text) : Prop :=
  at_bol (Cur (lastp pre None) [] []) = true.

(** A text that [findConfigStRex] matches reads: anything up to the
    start of a line, a label, blanks, commas, blanks, an opener, blanks
    and a newline; the groups are the label, one comma if there is any,
    the opener and all that follows the newline. *)
Lemma St_sound str s :
  FindStringSubmatch findConfigStRex str = Some s ->
  exists pre label sp1 cm sp2 op sp3 r4,
    str = pre ++ label ++ sp1 ++ cm ++ sp2 ++ op :: sp3 ++ nl :: r4 /\
    line_start pre /\
    label <> [] /\ forallb is_word label = true /\
    forallb is_sp sp1 = true /\ forallb is_comma cm = true /\
    forallb is_sp sp2 = true /\ forallb is_sp sp3 = true /\
    In op (go "<[{(") /\
    sub s 1 = label /\
    sub s 2 = match cm with [] => [] | _ => go "," end /\
    sub s 3 = [op] /\ sub s 4 = r4.
Proof.
  intros H. apply Find_sound in H. destruct H as (sk & t & e & -> & H & ->).
  cbn [prog findConfigStRex] in H.
  peel H w0 t0 c0 D0. peel H w1 t1 c1 D1. peel H w2 t2 c2 D2.
  peel H w3 t3 c3 D3. peel H w4 t4 c4 D4. peel H w5 t5 c5 D5.
  peel H w6 t6 c6 D6. peel H w7 t7 c7 D7. peel H w8 t8 c8 D8.
  rewrite run_rest_group in H. inv H.
  apply den_lazy_chr in D0. destruct D0 as [-> _].
  inv D1. inv D2.
  match goal with E : den (plus word) _ _ _ _ _ |- _ =>
    apply den_plus_chr in E; destruct E as (-> & L0 & L1) end.
  apply den_star_chr in D3. destruct D3 as [-> F3].
  apply den_star_cap_chr in D4. destruct D4 as (F4 & G4 & C4).
  apply den_star_chr in D5. destruct D5 as [-> F5].
  inv D6.
  match goal with E : den opener _ _ _ _ _ |- _ =>
    apply den_opener in E; destruct E as (-> & o & -> & O) end.
  apply den_star_chr in D7. destruct D7 as [-> F7].
  apply den_lit in D8. destruct D8 as [-> ->].
  exists (sk ++ w0), w2, w3, w4, w5, o, w7, t8.
  repeat split; auto.
  - now rewrite <- !app_assoc.
  - unfold line_start. rewrite lastp_app.
    match goal with E : at_bol _ = true |- _ => exact E end.
  - cbn. rewrite G4 by discriminate. reflexivity.
  - cbn. destruct w4 as [|a w4].
    + subst c4. reflexivity.
    + destruct C4 as (b & -> & B). unfold lit in B.
      apply Ascii.eqb_eq in B. now subst b.
Qed.

(** A text that [findConfigEnRex] matches reads: the contents, a
    newline, a closer, and then the end of the text or a newline. *)
Lemma En_sound u e :
  FindStringSubmatch findConfigEnRex u = Some e ->
  exists sk e1 cl e3,
    u = sk ++ e1 ++ nl :: cl :: e3 /\
    In cl (go ">]})") /\
    match e3 with [] => True | a :: _ => a = nl end /\
    sub e 1 = e1 /\ sub e 2 = [cl] /\ sub e 3 = e3.
Proof.
  intros H. apply Find_sound in H. destruct H as (sk & t & x & -> & H & ->).
  cbn [prog findConfigEnRex] in H.
  peel H w0 t0 c0 D0. peel H w1 t1 c1 D1. peel H w2 t2 c2 D2.
  peel H w3 t3 c3 D3.
  rewrite run_closer_rest in H.
  inv D0. match goal with E : den (Lazy any) _ _ _ _ _ |- _ =>
    apply den_lazy_chr in E; destruct E as [-> _] end.
  apply den_lit in D1. destruct D1 as [-> ->].
  inv D2. inv D3.
  match goal with E : den closer _ _ _ _ _ |- _ =>
    apply den_closer in E; destruct E as (-> & o & -> & O) end.
  exists sk, w0, o, t3.
  destruct t3 as [|a t3].
  - inv H. repeat split; auto.
  - destruct (a =? nl)%char eqn:A; [|discriminate].
    apply Ascii.eqb_eq in A. subst a. inv H. repeat split; auto.
Qed.

Lemma run_closer (k : cont) p cl t c :
  In cl (go ">]})") ->
  run closer k (Cur p (cl :: t) c) = k (Cur (Some cl) t c).
Proof.
  intros I. simpl in I.
  destruct I as [<-|[<-|[<-|[<-|[]]]]]; unfold closer; simpl;
    destruct (k _); reflexivity.
Qed.

(** The match of [findConfigEnRex] starts where the text starts: the
    contents are what stands before the closing line. *)
Lemma En_exact u e :
  FindStringSubmatch findConfigEnRex u = Some e ->
  exists cl,
    u = sub e 1 ++ nl :: cl :: sub e 3 /\ In cl (go ">]})") /\
    match sub e 3 with [] => True | a :: _ => a = nl end.
Proof.
  intros H. unfold FindStringSubmatch, Re.FindStringSubmatch in H.
  destruct (search (prog findConfigEnRex) None u) as [[t x0]|] eqn:S0; [|discriminate].
  inversion H; subst e; clear H.
  pose proof (search_first_start _ _ _ S0) as F.
  apply search_sound in S0. destruct S0 as (sk & Hu & R).
  cbn [prog findConfigEnRex] in R.
  peel R w0 t0 c0 D0. peel R w1 t1 c1 D1. peel R w2 t2 c2 D2.
  peel R w3 t3 c3 D3.
  apply run_closer_rest_inv in R. destruct R as (T & w & Hc).
  inv D0. match goal with E0 : den (Lazy any) _ _ _ _ _ |- _ =>
    apply den_lazy_chr in E0; destruct E0 as [-> _] end.
  apply den_lit in D1. destruct D1 as [-> ->].
  inv D2. inv D3.
  match goal with E0 : den closer _ _ _ _ _ |- _ =>
    apply den_closer in E0; destruct E0 as (-> & o & -> & O) end.
  exists o. cbn. rewrite Hc. cbn.
  destruct F as [Ht|N].
  - assert (sk = []).
    { destruct sk; [reflexivity|].
      apply (f_equal (@length ascii)) in Ht.
      rewrite !length_app in Ht. simpl in Ht. lia. }
    subst sk. auto.
  - exfalso. cbn [prog findConfigEnRex] in N. rewrite run_Cat, run_Cap in N.
    rewrite run_Lazy_any in N.
    revert N. rewrite app_assoc. apply lazy_chr_complete.
    unfold set_cap. cbn [rest prev caps app].
    rewrite run_Cat, run_lit, run_Cat, run_Bol by reflexivity.
    rewrite run_Cat, run_Cap, (run_closer _ _ _ _ O).
    unfold set_cap. cbn [rest prev caps].
    rewrite run_closer_rest.
    destruct t3 as [|y t3]; [discriminate|].
    simpl in T. subst y. rewrite Ascii.eqb_refl. discriminate.
Qed.

(** A text that [findConfigValueRex] matches reads: anything up to the
    start of a line, a label, blanks, [:=], blanks, the value, blanks and
    a newline. *)
Lemma Value_sound str x :
  FindStringSubmatch findConfigValueRex str = Some x ->
  exists pre label sp1 sp2 v sp3 r,
    str = pre ++ label ++ sp1 ++ go ":=" ++ sp2 ++ v ++ sp3 ++ nl :: r /\
    line_start pre /\
    label <> [] /\ forallb is_word label = true /\
    forallb is_sp sp1 = true /\ forallb is_sp sp2 = true /\
    forallb is_sp sp3 = true /\
    sub x 1 = label /\ sub x 2 = v /\ sub x 3 = r.
Proof.
  intros H. apply Find_sound in H. destruct H as (sk & t & e & -> & H & ->).
  cbn [prog findConfigValueRex] in H.
  peel H w0 t0 c0 D0. peel H w1 t1 c1 D1. peel H w2 t2 c2 D2.
  peel H w3 t3 c3 D3. peel H w4 t4 c4 D4. peel H w5 t5 c5 D5.
  peel H w6 t6 c6 D6. peel H w7 t7 c7 D7. peel H w8 t8 c8 D8.
  peel H w9 t9 c9 D9.
  rewrite run_rest_group in H. inv H.
  apply den_lazy_chr in D0. destruct D0 as [-> _].
  inv D1. inv D2.
  match goal with E : den (plus word) _ _ _ _ _ |- _ =>
    apply den_plus_chr in E; destruct E as (-> & L0 & L1) end.
  apply den_star_chr in D3. destruct D3 as [-> F3].
  apply den_lit in D4. destruct D4 as [-> ->].
  apply den_lit in D5. destruct D5 as [-> ->].
  apply den_star_chr in D6. destruct D6 as [-> F6].
  inv D7. match goal with E : den (Lazy any) _ _ _ _ _ |- _ =>
    apply den_lazy_chr in E; destruct E as [-> _] end.
  apply den_star_chr in D8. destruct D8 as [-> F8].
  apply den_lit in D9. destruct D9 as [-> ->].
  exists (sk ++ w0), w2, w3, w6, w7, w8, t9.
  repeat split; auto.
  - now rewrite <- !app_assoc.
  - unfold line_start. rewrite lastp_app.
    match goal with E : at_bol _ = true |- _ => exact E end.
Qed.

(** A construct with a closing line: label, blanks, the opener [o] alone
    before the newline, the contents, and the closer [cl] on a line of
    its own; the groups are the label, the contents and what follows the
    closer.  This is what the three expressions for blocks, lines and
    items share. *)
Definition enclosed (o cl : ascii) (str label mid body r : text) : Prop :=
  exists pre,
    str = pre ++ label ++ mid ++ o :: nl :: body ++ nl :: cl :: r /\
    line_start pre /\
    label <> [] /\ forallb is_word label = true /\
    match r with [] => True | a :: _ => a = nl end.

Lemma Block_sound str x :
  FindStringSubmatch findConfigBlockRex str = Some x ->
  exists sp1, forallb is_sp sp1 = true /\
    enclosed "<" ">" str (sub x 1) sp1 (sub x 2) (sub x 3).
Proof.
  intros H. apply Find_sound in H. destruct H as (sk & t & e & -> & H & ->).
  cbn [prog findConfigBlockRex] in H.
  peel H w0 t0 c0 D0. peel H w1 t1 c1 D1. peel H w2 t2 c2 D2.
  peel H w3 t3 c3 D3. peel H w4 t4 c4 D4. peel H w5 t5 c5 D5.
  peel H w6 t6 c6 D6. peel H w7 t7 c7 D7. peel H w8 t8 c8 D8.
  apply run_closer_rest_inv in H. destruct H as (T & w & E).
  apply den_lazy_chr in D0. destruct D0 as [-> _].
  inv D1. inv D2.
  match goal with E : den (plus word) _ _ _ _ _ |- _ =>
    apply den_plus_chr in E; destruct E as (-> & L0 & L1) end.
  apply den_star_chr in D3. destruct D3 as [-> F3].
  apply den_lit in D4. destruct D4 as [-> ->].
  apply den_lit in D5. destruct D5 as [-> ->].
  inv D6. match goal with E : den (Lazy any) _ _ _ _ _ |- _ =>
    apply den_lazy_chr in E; destruct E as [-> _] end.
  apply den_lit in D7. destruct D7 as [-> ->].
  apply den_lit in D8. destruct D8 as [-> ->].
  exists w3. split; [exact F3|]. exists (sk ++ w0).
  cbn. rewrite E. cbn. repeat split; auto.
  - now rewrite <- !app_assoc.
  - unfold line_start. rewrite lastp_app.
    match goal with B : at_bol _ = true |- _ => exact B end.
Qed.

Lemma Lines_sound str x :
  FindStringSubmatch findConfigLinesRex str = Some x ->
  exists sp1, forallb is_sp sp1 = true /\
    enclosed "[" "]" str (sub x 1) sp1 (sub x 2) (sub x 3).
Proof.
  intros H. apply Find_sound in H. destruct H as (sk & t & e & -> & H & ->).
  cbn [prog findConfigLinesRex] in H.
  peel H w0 t0 c0 D0. peel H w1 t1 c1 D1. peel H w2 t2 c2 D2.
  peel H w3 t3 c3 D3. peel H w4 t4 c4 D4. peel H w5 t5 c5 D5.
  peel H w6 t6 c6 D6. peel H w7 t7 c7 D7. peel H w8 t8 c8 D8.
  apply run_closer_rest_inv in H. destruct H as (T & w & E).
  apply den_lazy_chr in D0. destruct D0 as [-> _].
  inv D1. inv D2.
  match goal with E : den (plus word) _ _ _ _ _ |- _ =>
    apply den_plus_chr in E; destruct E as (-> & L0 & L1) end.
  apply den_star_chr in D3. destruct D3 as [-> F3].
  apply den_lit in D4. destruct D4 as [-> ->].
  apply den_lit in D5. destruct D5 as [-> ->].
  inv D6. match goal with E : den (Lazy any) _ _ _ _ _ |- _ =>
    apply den_lazy_chr in E; destruct E as [-> _] end.
  apply den_lit in D7. destruct D7 as [-> ->].
  apply den_lit in D8. destruct D8 as [-> ->].
  exists w3. split; [exact F3|]. exists (sk ++ w0).
  cbn. rewrite E. cbn. repeat split; auto.
  - now rewrite <- !app_assoc.
  - unfold line_start. rewrite lastp_app.
    match goal with B : at_bol _ = true |- _ => exact B end.
Qed.

Lemma Items_sound str x :
  FindStringSubmatch findConfigItemsRex str = Some x ->
  exists sp1 cm sp2,
    forallb is_sp sp1 = true /\ forallb is_comma cm = true /\
    forallb is_sp sp2 = true /\
    sub x 2 = match cm with [] => [] | _ => go "," end /\
    enclosed "{" "}" str (sub x 1) (sp1 ++ cm ++ sp2) (sub x 3) (sub x 4).
Proof.
  intros H. apply Find_sound in H. destruct H as (sk & t & e & -> & H & ->).
  cbn [prog findConfigItemsRex] in H.
  peel H w0 t0 c0 D0. peel H w1 t1 c1 D1. peel H w2 t2 c2 D2.
  peel H w3 t3 c3 D3. peel H w4 t4 c4 D4. peel H w5 t5 c5 D5.
  peel H w6 t6 c6 D6. peel H w7 t7 c7 D7. peel H w8 t8 c8 D8.
  peel H w9 t9 c9 D9. peel H w10 t10 c10 D10.
  apply run_closer_rest_inv in H. destruct H as (T & w & E).
  apply den_lazy_chr in D0. destruct D0 as [-> _].
  inv D1. inv D2.
  match goal with E : den (plus word) _ _ _ _ _ |- _ =>
    apply den_plus_chr in E; destruct E as (-> & L0 & L1) end.
  apply den_star_chr in D3. destruct D3 as [-> F3].
  apply den_star_cap_chr in D4. destruct D4 as (F4 & G4 & C4).
  apply den_star_chr in D5. destruct D5 as [-> F5].
  apply den_lit in D6. destruct D6 as [-> ->].
  apply den_lit in D7. destruct D7 as [-> ->].
  inv D8. match goal with E : den (Lazy any) _ _ _ _ _ |- _ =>
    apply den_lazy_chr in E; destruct E as [-> _] end.
  apply den_lit in D9. destruct D9 as [-> ->].
  apply den_lit in D10. destruct D10 as [-> ->].
  exists w3, w4, w5. cbn. rewrite E. cbn.
  repeat split; auto.
  - destruct w4 as [|a w4].
    + now subst c4.
    + destruct C4 as (b & -> & B). unfold lit in B.
      apply Ascii.eqb_eq in B. now subst b.
  - exists (sk ++ w0). rewrite G4 by discriminate. cbn.
    repeat split; auto.
    + now rewrite <- !app_assoc.
    + unfold line_start. rewrite lastp_app.
      match goal with B : at_bol _ = true |- _ => exact B end.
Qed.

End Shapes.

(** * The loops end *)

Module Loops.

Import ReFacts Shapes.

(** A match leaves a remainder shorter than the text it was found in. *)
Definition shrinks (re : Regexp) (rem : nat) : Prop :=
  forall str x, FindStringSubmatch re str = Some x ->
                length (sub x rem) < length str.

Lemma enclosed_shrinks o cl str label mid body r :
  enclosed o cl str label mid body r -> length r < length str.
Proof.
  intros (pre & -> & _). repeat (rewrite length_app; simpl). lia.
Qed.

Lemma shrinks_value : shrinks findConfigValueRex 3.
Proof.
  intros str x H. apply Value_sound in H.
  destruct H as (pre & label & sp1 & sp2 & v & sp3 & r & -> & H).
  destruct H as (_ & _ & _ & _ & _ & _ & _ & _ & ->).
  repeat (rewrite length_app; simpl). lia.
Qed.

Lemma shrinks_block : shrinks findConfigBlockRex 3.
Proof.
  intros str x H. apply Block_sound in H. destruct H as (sp1 & _ & H).
  eapply enclosed_shrinks; eauto.
Qed.

Lemma shrinks_lines : shrinks findConfigLinesRex 3.
Proof.
  intros str x H. apply Lines_sound in H. destruct H as (sp1 & _ & H).
  eapply enclosed_shrinks; eauto.
Qed.

Lemma shrinks_items : shrinks findConfigItemsRex 4.
Proof.
  intros str x H. apply Items_sound in H.
  destruct H as (sp1 & cm & sp2 & _ & _ & _ & _ & H).
  eapply enclosed_shrinks; eauto.
Qed.

(** With more fuel than the text is long, the loop of a flat handler
    ends, and on the same matches whatever the fuel. *)
Lemma each_match_ends re rem :
  shrinks re rem ->
  forall fuel str, length str < fuel ->
    exists xs, forall fuel', length str < fuel' ->
      each_match re rem fuel' str = Some xs.
Proof.
  intros Hs. induction fuel as [|fuel IH]; intros str L; [lia|].
  destruct (FindStringSubmatch re str) as [x|] eqn:E.
  - destruct (IH (sub x rem)) as (xs & Hxs).
    { apply Hs in E. lia. }
    exists (x :: xs). intros [|f'] L'; [lia|]. simpl. rewrite E.
    rewrite Hxs; [reflexivity|]. apply Hs in E. lia.
  - exists []. intros [|f'] L'; [lia|]. simpl. now rewrite E.
Qed.

Lemma each_match_fuel re rem fuel str :
  shrinks re rem -> length str < fuel ->
  each_match re rem fuel str = each_match re rem (S (length str)) str.
Proof.
  intros Hs L. destruct (@each_match_ends re rem Hs fuel str L) as (xs & H).
  rewrite (H fuel L). symmetry. apply H. lia.
Qed.

Lemma each_match_S re rem fuel str :
  each_match re rem (S fuel) str =
  match FindStringSubmatch re str with
  | None => Some []
  | Some x => option_map (cons x) (each_match re rem fuel (sub x rem))
  end.
Proof.
  simpl. destruct (FindStringSubmatch re str); [|reflexivity].
  destruct (each_match re rem fuel _); reflexivity.
Qed.

Lemma each_match_step re rem str :
  shrinks re rem ->
  each_match re rem (S (length str)) str =
  match FindStringSubmatch re str with
  | None => Some []
  | Some x =>
      option_map (cons x)
        (each_match re rem (S (length (sub x rem))) (sub x rem))
  end.
Proof.
  intros Hs. rewrite each_match_S.
  destruct (FindStringSubmatch re str) as [x|] eqn:E; [|reflexivity].
  rewrite (@each_match_fuel re rem (length str)); auto.
Qed.

Lemma HandleConfigValues_ends str : exists vs, HandleConfigValues str = Some vs.
Proof.
  destruct (@each_match_ends _ _ shrinks_value _ str
              (Nat.lt_succ_diag_r (length str))) as (xs & H).
  unfold HandleConfigValues. rewrite H by lia. simpl. eauto.
Qed.

Lemma HandleConfigBlocks_ends str : exists vs, HandleConfigBlocks str = Some vs.
Proof.
  destruct (@each_match_ends _ _ shrinks_block _ str
              (Nat.lt_succ_diag_r (length str))) as (xs & H).
  unfold HandleConfigBlocks. rewrite H by lia. simpl. eauto.
Qed.

(** ** [removeLeadingTabs] on a text of whole lines *)

Lemma lines_not_nil s : lines s <> [].
Proof.
  destruct s as [|a s]; simpl; [discriminate|].
  destruct (a =? nl)%char; [discriminate|]. destruct (lines s); discriminate.
Qed.

Lemma unlines_lines s : unlines (lines s) = s ++ [nl].
Proof.
  induction s as [|a s IH]; [reflexivity|]. simpl.
  destruct (a =? nl)%char eqn:E.
  - apply Ascii.eqb_eq in E. subst a. unfold unlines in *. simpl. now rewrite IH.
  - destruct (lines s) as [|l ls] eqn:L; [now apply lines_not_nil in L|].
    unfold unlines in *. simpl in *. now rewrite IH.
Qed.

Lemma lines_no_nl s : Forall (fun l => ~ In nl l) (lines s).
Proof.
  induction s as [|a s IH]; simpl.
  - constructor; auto.
  - destruct (a =? nl)%char eqn:E.
    + constructor; auto.
    + destruct (lines s) as [|l ls]; [constructor; auto|].
      * intros [->|[]]. now rewrite Ascii.eqb_refl in E.
      * inversion IH; subst. constructor; auto.
        intros [->|I]; [now rewrite Ascii.eqb_refl in E|auto].
Qed.

Lemma Index_line l r :
  ~ In nl l -> Index (l ++ nl :: r) nl = Z.of_nat (length l).
Proof.
  induction l as [|a l IH]; intros N; [reflexivity|].
  cbn [app Index length].
  - destruct (a =? nl)%char eqn:E.
    + apply Ascii.eqb_eq in E. subst a. exfalso. apply N. now left.
    + rewrite IH by (intros I; apply N; now right).
      destruct (Z.of_nat (length l) <? 0)%Z eqn:Z0; [apply Z.ltb_lt in Z0; lia|].
      lia.
Qed.

(** A line passes when it is empty or starts with a tab. *)
Definition tabbed (l : text) : bool :=
  match l with [] => true | a :: _ => (a =? tab)%char end.

Lemma removeLeadingTabs_loop_lines ls : forall fuel acc,
  Forall (fun l => ~ In nl l) ls ->
  length (unlines ls) <= fuel ->
  removeLeadingTabs_loop fuel (unlines ls) acc =
  Some (if forallb tabbed ls
        then (acc ++ unlines (map (@tl ascii) ls), None)
        else ([], Some ErrIllegalDataBlock)).
Proof.
  induction ls as [|l ls IH]; intros fuel acc N F.
  - simpl. destruct fuel; now rewrite app_nil_r.
  - inversion N as [|? ? Nl Nls]; subst.
    assert (U : unlines (l :: ls) = l ++ nl :: unlines ls).
    { unfold unlines. simpl. now rewrite <- app_assoc. }
    rewrite U in *. rewrite length_app in F. simpl in F.
    destruct fuel as [|fuel]; [lia|].
    destruct l as [|a l].
    + cbn [app removeLeadingTabs_loop Index]. rewrite Ascii.eqb_refl.
      cbn. rewrite IH by (auto; lia).
      destruct (forallb tabbed ls); [|reflexivity].
      unfold unlines. simpl. now rewrite <- app_assoc.
    + change ((a :: l) ++ nl :: unlines ls) with (a :: (l ++ nl :: unlines ls)).
      cbn [removeLeadingTabs_loop].
      change (a :: (l ++ nl :: unlines ls)) with ((a :: l) ++ nl :: unlines ls).
      rewrite (@Index_line (a :: l) (unlines ls) Nl).
      replace (0 <? Z.of_nat (length (a :: l)))%Z with true
        by (symmetry; apply Z.ltb_lt; simpl length; lia).
      replace (Z.of_nat (length (a :: l)) =? 0)%Z with false
        by (symmetry; apply Z.eqb_neq; simpl length; lia).
      cbn [andb tabbed forallb]. destruct (a =? tab)%char eqn:T; [|reflexivity].
      unfold slice_from, slice.
      replace (Z.to_nat (Z.of_nat (length (a :: l)) + 1)) with (S (length (a :: l))) by lia.
      replace (Z.to_nat (Z.of_nat (length (a :: l)) + 1 - 1)) with (length (a :: l)) by lia.
      replace (Z.to_nat 1) with 1 by reflexivity.
      assert (K : skipn (S (length (a :: l))) ((a :: l) ++ nl :: unlines ls) = unlines ls).
      { change (nl :: unlines ls) with ([nl] ++ unlines ls).
        rewrite app_assoc.
        replace (S (length (a :: l))) with (length ((a :: l) ++ [nl]))
          by (rewrite length_app; simpl; lia).
        rewrite skipn_app, skipn_all, Nat.sub_diag. reflexivity. }
      rewrite K.
      assert (J : firstn (length (a :: l)) (skipn 1 ((a :: l) ++ nl :: unlines ls)) = l ++ [nl]).
      { simpl skipn. change (nl :: unlines ls) with ([nl] ++ unlines ls).
        rewrite app_assoc.
        replace (length (a :: l)) with (length (l ++ [nl]))
          by (rewrite length_app; simpl; lia).
        rewrite firstn_app, firstn_all, Nat.sub_diag. simpl. apply app_nil_r. }
      rewrite J. rewrite IH by (auto; simpl in F; lia).
      destruct (forallb tabbed ls); [|reflexivity].
      unfold unlines. simpl. now rewrite <- !app_assoc.
Qed.

(** [removeLeadingTabs] on the contents of a container and a newline:
    every line loses its tab, unless some line is neither empty nor
    starts with a tab, which is the error. *)
Lemma removeLeadingTabs_lines e1 :
  removeLeadingTabs (e1 ++ [nl]) =
  Some (if forallb tabbed (lines e1)
        then (unlines (map (@tl ascii) (lines e1)), None)
        else ([], Some ErrIllegalDataBlock)).
Proof.
  unfold removeLeadingTabs. rewrite <- unlines_lines.
  destruct (unlines (lines e1)) eqn:U.
  - exfalso. rewrite unlines_lines in U. now destruct e1.
  - rewrite <- U. rewrite removeLeadingTabs_loop_lines; auto using lines_no_nl.
Qed.

Lemma length_unlines_tl ls :
  length (unlines (map (@tl ascii) ls)) <= length (unlines ls).
Proof.
  induction ls as [|l ls IH]; [auto|].
  unfold unlines in *. simpl. rewrite !length_app.
  destruct l; simpl; lia.
Qed.

Lemma removeLeadingTabs_length e1 st :
  removeLeadingTabs (e1 ++ [nl]) = Some (st, None) ->
  length st <= S (length e1).
Proof.
  rewrite removeLeadingTabs_lines. destruct (forallb tabbed (lines e1)); [|discriminate].
  intros H. inversion H. etransitivity; [apply length_unlines_tl|].
  rewrite unlines_lines, length_app. simpl. lia.
Qed.

End Loops.

(** * Constructs that are found *)

Module Forward.

Import ReFacts Shapes Loops.

(** No line of [body] after its first is the closer [cl] alone. *)
Definition closing_free (cl : ascii) (body : text) : Prop :=
  forall b1 b3, body = b1 ++ nl :: cl :: b3 ->
    match b3 with [] => False | a :: _ => a <> nl end.

(** The end of a text, or a newline. *)
Definition line_end (r : text) : Prop :=
  match r with [] => True | a :: _ => a = nl end.

(** How the expressions for blocks, lines and items end: a newline, the
    closer, and the group for what follows. *)
Definition closing (cl : ascii) (n m : nat) : regex :=
  (lit nl >> lit cl >> Cap n (Cap m (lit nl <|> Eol) >> Star any))%re.

Lemma closing_sound cl n m p u c e :
  run (closing cl n m) Some (Cur p u c) = Some e ->
  exists t, u = nl :: cl :: t /\ line_end t.
Proof.
  unfold closing. intros H.
  peel H w0 t0 c0 D0. peel H w1 t1 c1 D1.
  apply run_closer_rest_inv in H. destruct H as (T & _).
  apply den_lit in D0. destruct D0 as [-> ->].
  apply den_lit in D1. destruct D1 as [-> ->].
  now exists t1.
Qed.

Lemma closing_here cl n m p r c :
  line_end r ->
  exists e w, run (closing cl n m) Some (Cur p (nl :: cl :: r) c) = Some e /\
              caps e = (n, r) :: (m, w) :: c.
Proof.
  intros T. unfold closing.
  rewrite run_Cat, run_lit, run_Cat, run_lit, run_closer_rest.
  destruct r as [|a r].
  - eexists _, _. split; reflexivity.
  - simpl in T. subst a. rewrite Ascii.eqb_refl.
    eexists _, _. split; reflexivity.
Qed.

Lemma contents_skip cl n m body r :
  cl <> nl -> closing_free cl body ->
  forall p c w1 w2, body = w1 ++ w2 -> w2 <> [] ->
    run (closing cl n m) Some (Cur p (w2 ++ nl :: cl :: r) c) = None.
Proof.
  intros Ncl F p c w1 w2 -> W.
  destruct (run (closing cl n m) Some (Cur p (w2 ++ nl :: cl :: r) c)) as [e|] eqn:E;
    [|reflexivity].
  exfalso. apply closing_sound in E. destruct E as (t & E & T).
  destruct w2 as [|x w2]; [congruence|]. injection E as -> E.
  destruct w2 as [|y w2]; [injection E as E _; congruence|].
  injection E as -> E. specialize (F w1 w2 eq_refl).
  destruct w2 as [|z w2]; [exact F|]. subst t. simpl in T. congruence.
Qed.

(** The group of the contents and the closing line after it. *)
Lemma run_contents g cl n m p body r c :
  cl <> nl -> closing_free cl body -> line_end r ->
  exists e w,
    run (Cat (Cap g (Lazy any)) (closing cl n m)) Some
        (Cur p (body ++ nl :: cl :: r) c) = Some e /\
    caps e = (n, r) :: (m, w) :: (g, body) :: c.
Proof.
  intros Ncl F T.
  destruct (@closing_here cl n m (lastp body p) r ((g, body) :: c) T)
    as (e & w & He & Hc).
  exists e, w. split; [|exact Hc]. rewrite run_Cat.
  apply run_cap_lazy_skip; [|exact He].
  intros w1 w2 E W. now apply (@contents_skip cl n m body r Ncl F _ _ w1 w2 E W).
Qed.

(** A text before a construct in which no match can start: it ends a
    line, or is empty, and has no opener [o] in it. *)
Definition clear_of (o : ascii) (pre : text) : Prop :=
  line_start pre /\ ~ In o pre.

Lemma pre_skip (cls : ascii -> bool) (k : cont) o pre rest0 :
  (forall p u c e, k (Cur p u c) = Some e ->
     exists a t, u = a ++ o :: t /\ forallb cls a = true) ->
  cls nl = false -> clear_of o pre ->
  forall c w1 w2, pre = w1 ++ w2 -> w2 <> [] ->
    k (Cur (lastp w1 None) (w2 ++ rest0) c) = None.
Proof.
  intros Hk Hn (B & N) c w1 w2 -> W.
  destruct (k (Cur (lastp w1 None) (w2 ++ rest0) c)) as [e|] eqn:E; [|reflexivity].
  exfalso. apply Hk in E. destruct E as (a & t & E & A).
  unfold line_start in B. rewrite lastp_app in B.
  destruct (lastp_in (lastp w1 None) W) as (x & Hx & Ix).
  rewrite Hx in B. unfold at_bol in B. cbn [prev] in B.
  apply Ascii.eqb_eq in B. subst x.
  symmetry in E. apply app_eq_app in E.
  destruct E as (l & [[-> _]|[-> E]]).
  - rewrite forallb_forall in A. specialize (A nl (in_or_app _ _ _ (or_introl Ix))).
    congruence.
  - destruct l as [|y l].
    + rewrite app_nil_r in Ix. rewrite forallb_forall in A.
      specialize (A nl Ix). congruence.
    + injection E as -> _. apply N. apply in_or_app. right.
      apply in_or_app. right. now left.
Qed.

Definition word_or_sp (x : ascii) : bool := is_word x || is_sp x.

(** The line that opens a block or a list of lines. *)
Lemma opener_sound (o : ascii) (R : regex) p u c e :
  run (Cat Bol (Cat (Cap 1 (plus word)) (Cat (Star sp) (Cat (lit o) R)))) Some
      (Cur p u c) = Some e ->
  exists a t, u = a ++ o :: t /\ forallb word_or_sp a = true.
Proof.
  intros H. peel H w0 t0 c0 D0. peel H w1 t1 c1 D1.
  peel H w2 t2 c2 D2. peel H w3 t3 c3 D3.
  inv D0. inv D1.
  match goal with E : den (plus word) _ _ _ _ _ |- _ =>
    apply den_plus_chr in E; destruct E as (_ & _ & F1) end.
  apply den_star_chr in D2. destruct D2 as [_ F2].
  apply den_lit in D3. destruct D3 as [-> _].
  exists (w1 ++ w2), t3. split; [now rewrite <- app_assoc|].
  rewrite forallb_app. apply andb_true_intro. split.
  - rewrite forallb_forall in *. intros x I. unfold word_or_sp.
    now rewrite (F1 x I).
  - rewrite forallb_forall in *. intros x I. unfold word_or_sp.
    specialize (F2 x I). unfold is_sp. rewrite F2. apply orb_true_r.
Qed.

Lemma stops_word_sp (o : ascii) sp1 t :
  forallb is_sp sp1 = true -> is_word o = false ->
  stops is_word (sp1 ++ o :: t).
Proof.
  intros F O. destruct sp1 as [|a sp1]; [exact O|].
  simpl in *. apply andb_prop in F. destruct F as [F _].
  unfold is_sp in F. apply Ascii.eqb_eq in F. now subst a.
Qed.

(** A block, or a list of lines, that stands first in a text is what the
    expression matches. *)
Lemma enclosed_found (re : Regexp) (o cl : ascii) pre label sp1 body r :
  prog re = (Lazy any >> Bol >> Cap 1 (plus word) >> Star sp >> lit o >> lit nl
             >> Cap 2 (Lazy any) >> closing cl 3 4)%re ->
  is_word o = false -> is_sp o = false -> o <> nl -> cl <> nl ->
  clear_of o pre ->
  label <> [] -> forallb is_word label = true -> forallb is_sp sp1 = true ->
  closing_free cl body -> line_end r ->
  exists x,
    FindStringSubmatch re
      (pre ++ label ++ sp1 ++ o :: nl :: body ++ nl :: cl :: r) = Some x /\
    sub x 1 = label /\ sub x 2 = body /\ sub x 3 = r.
Proof.
  intros P Ow Os On Ncl C Nl Fl Fs Fb T.
  destruct (@run_contents 2 cl 3 4 (Some nl) body r [(1, label)] Ncl Fb T)
    as (e & w & He & Hc).
  assert (K : run (prog re) Some
                (Cur None (pre ++ label ++ sp1 ++ o :: nl :: body ++ nl :: cl :: r) [])
              = Some e).
  { rewrite P, run_Cat. apply run_lazy_skip.
    - apply (@pre_skip word_or_sp) with (o := o); auto.
      intros p u c e'. apply opener_sound.
    - rewrite run_Cat, run_Bol by (destruct C as [C _]; exact C).
      rewrite run_Cat. apply run_cap_plus_max; auto.
      { now apply stops_word_sp. }
      rewrite run_Cat. apply run_star_max; auto.
      rewrite run_Cat, run_lit, run_Cat, run_lit. exact He. }
  unfold FindStringSubmatch, Re.FindStringSubmatch.
  rewrite (search_first _ _ _ K). eexists. split; [reflexivity|].
  rewrite P. cbn. rewrite Hc. cbn. auto.
Qed.

Definition word_sp_comma (x : ascii) : bool :=
  is_word x || is_sp x || is_comma x.

(** The line that opens a list of items. *)
Lemma items_opener_sound (o : ascii) (R : regex) p u c e :
  run (Cat Bol (Cat (Cap 1 (plus word)) (Cat (Star sp)
        (Cat (Star (Cap 2 (lit ","))) (Cat (Star sp) (Cat (lit o) R)))))) Some
      (Cur p u c) = Some e ->
  exists a t, u = a ++ o :: t /\ forallb word_sp_comma a = true.
Proof.
  intros H. peel H w0 t0 c0 D0. peel H w1 t1 c1 D1.
  peel H w2 t2 c2 D2. peel H w3 t3 c3 D3. peel H w4 t4 c4 D4.
  peel H w5 t5 c5 D5.
  inv D0. inv D1.
  match goal with E : den (plus word) _ _ _ _ _ |- _ =>
    apply den_plus_chr in E; destruct E as (_ & _ & F1) end.
  apply den_star_chr in D2. destruct D2 as [_ F2].
  apply den_star_cap_chr in D3. destruct D3 as (F3 & _ & _).
  apply den_star_chr in D4. destruct D4 as [_ F4].
  apply den_lit in D5. destruct D5 as [-> _].
  exists (w1 ++ w2 ++ w3 ++ w4), t5. split; [now rewrite <- !app_assoc|].
  rewrite !forallb_app. rewrite forallb_forall in F1, F2, F3, F4.
  repeat (apply andb_true_intro; split); apply forallb_forall; intros x I;
    unfold word_sp_comma, is_sp, is_comma.
  - now rewrite (F1 x I).
  - rewrite (F2 x I). now rewrite orb_true_r.
  - unfold lit in F3. rewrite (F3 x I). now rewrite orb_true_r.
  - rewrite (F4 x I). now rewrite orb_true_r.
Qed.

Lemma get_cap_commas_other n m cm c :
  m <> n -> get_cap m (rev (map (fun a : ascii => (n, [a])) cm) ++ c) = get_cap m c.
Proof.
  intros N. induction cm as [|a cm IH] using rev_ind; [reflexivity|].
  rewrite map_app, rev_app_distr. simpl.
  destruct (n =? m) eqn:E; [apply Nat.eqb_eq in E; congruence|exact IH].
Qed.

Lemma get_cap_commas n cm c :
  forallb is_comma cm = true ->
  get_cap n (rev (map (fun a : ascii => (n, [a])) cm) ++ c) =
  match cm with [] => get_cap n c | _ => go "," end.
Proof.
  intros F. destruct cm as [|a cm] using rev_ind; [reflexivity|].
  rewrite map_app, rev_app_distr. simpl. rewrite Nat.eqb_refl.
  rewrite forallb_app in F. apply andb_prop in F. destruct F as [_ F].
  simpl in F. rewrite andb_true_r in F. unfold is_comma in F.
  apply Ascii.eqb_eq in F. subst a. destruct cm; reflexivity.
Qed.

(** A list of items that stands first in a text is what the expression
    for items matches; group 2 is a comma when there is one before the
    brace and empty when there is none. *)
Lemma items_found pre label sp1 cm sp2 body r :
  clear_of "{" pre ->
  label <> [] -> forallb is_word label = true ->
  forallb is_sp sp1 = true -> forallb is_comma cm = true ->
  forallb is_sp sp2 = true -> (cm = [] -> sp2 = []) ->
  closing_free "}" body -> line_end r ->
  exists x,
    FindStringSubmatch findConfigItemsRex
      (pre ++ label ++ sp1 ++ cm ++ sp2 ++ "{"%char :: nl :: body
           ++ nl :: "}"%char :: r) = Some x /\
    sub x 1 = label /\
    sub x 2 = match cm with [] => [] | _ => go "," end /\
    sub x 3 = body /\ sub x 4 = r.
Proof.
  intros C Nl Fl F1 Fc F2 E2 Fb T.
  assert (Ncl : "}"%char <> nl) by discriminate.
  destruct (@run_contents 3 "}" 4 5 (Some nl) body r
              (rev (map (fun a : ascii => (2, [a])) cm) ++ [(1, label)]) Ncl Fb T)
    as (e & w & He & Hc).
  assert (K : run (prog findConfigItemsRex) Some
                (Cur None (pre ++ label ++ sp1 ++ cm ++ sp2 ++ "{"%char :: nl :: body
                             ++ nl :: "}"%char :: r) [])
              = Some e).
  { cbn [prog findConfigItemsRex]. rewrite run_Cat. apply run_lazy_skip.
    - apply (@pre_skip word_sp_comma) with (o := "{"%char); auto.
      intros p u c e'. apply items_opener_sound.
    - rewrite run_Cat, run_Bol by (destruct C as [C _]; exact C).
      rewrite run_Cat. apply run_cap_plus_max; auto.
      { destruct sp1 as [|a sp1].
        - destruct cm as [|b cm].
          + rewrite (E2 eq_refl). reflexivity.
          + simpl in Fc. apply andb_prop in Fc. destruct Fc as [Fc _].
            unfold is_comma in Fc. apply Ascii.eqb_eq in Fc. now subst b.
        - simpl in F1. apply andb_prop in F1. destruct F1 as [F1 _].
          unfold is_sp in F1. apply Ascii.eqb_eq in F1. now subst a. }
      rewrite run_Cat. apply run_star_max; auto.
      { destruct cm as [|b cm].
        - rewrite (E2 eq_refl). reflexivity.
        - simpl in Fc. apply andb_prop in Fc. destruct Fc as [Fc _].
          unfold is_comma in Fc. apply Ascii.eqb_eq in Fc. now subst b. }
      rewrite run_Cat. apply run_star_cap_max; auto.
      { destruct sp2 as [|a sp2]; [reflexivity|].
        simpl in F2. apply andb_prop in F2. destruct F2 as [F2 _].
        unfold is_sp in F2. apply Ascii.eqb_eq in F2. now subst a. }
      rewrite run_Cat. apply run_star_max; [exact F2|reflexivity|].
      rewrite run_Cat, run_lit, run_Cat, run_lit. exact He. }
  unfold FindStringSubmatch, Re.FindStringSubmatch.
  rewrite (search_first _ _ _ K). eexists. split; [reflexivity|].
  cbn. rewrite Hc. cbn.
  rewrite get_cap_commas_other by discriminate.
  rewrite get_cap_commas by exact Fc. cbn. auto.
Qed.

Lemma lines_app_nl a b : lines (a ++ nl :: b) = lines a ++ lines b.
Proof.
  induction a as [|x a IH]; [reflexivity|]. simpl.
  destruct (x =? nl)%char; [now rewrite IH|].
  rewrite IH. destruct (lines a) as [|l ls] eqn:E; [now apply lines_not_nil in E|].
  reflexivity.
Qed.

(** No line after the first is the closer: said of the lines. *)
Lemma closing_free_lines cl body :
  cl <> nl ->
  Forall (fun l => l <> [cl]) (tl (lines body)) -> closing_free cl body.
Proof.
  intros N F b1 b3 ->. rewrite lines_app_nl in F.
  destruct (lines b1) as [|l ls] eqn:E; [now apply lines_not_nil in E|].
  simpl in F. apply Forall_app in F. destruct F as [_ F].
  assert (X : (cl =? nl)%char = false) by now apply Ascii.eqb_neq.
  destruct b3 as [|a b3].
  - simpl in F. rewrite X in F. inversion F; congruence.
  - intros ->. simpl in F. rewrite X in F.
    inversion F; congruence.
Qed.

Lemma HandleConfigBlocks_step str x :
  FindStringSubmatch findConfigBlockRex str = Some x ->
  HandleConfigBlocks str =
  option_map (cons (sub x 1, sub x 2)) (HandleConfigBlocks (sub x 3)).
Proof.
  intros H. unfold HandleConfigBlocks.
  rewrite (each_match_step str shrinks_block), H.
  destruct (each_match findConfigBlockRex 3 _ (sub x 3)); reflexivity.
Qed.

Lemma HandleConfigItems_step (S' : text -> text -> list text) str x :
  FindStringSubmatch findConfigItemsRex str = Some x ->
  HandleConfigItems S' str =
  option_map (cons (items_call S' x)) (HandleConfigItems S' (sub x 4)).
Proof.
  intros H. unfold HandleConfigItems.
  rewrite (each_match_step str shrinks_items), H.
  destruct (each_match findConfigItemsRex 4 _ (sub x 4)); reflexivity.
Qed.

End Forward.

(** * The scan of [handleConfigData] *)

Module Scan.

Import ReFacts Shapes Loops.

Lemma St_shrinks str s :
  FindStringSubmatch findConfigStRex str = Some s ->
  length (sub s 4) + 3 <= length str /\ sub s 1 <> [].
Proof.
  intros H. apply St_sound in H.
  destruct H as (pre & label & sp1 & cm & sp2 & op & sp3 & r4 & -> & H).
  destruct H as (_ & L & _ & _ & _ & _ & _ & _ & -> & _ & _ & ->).
  split; [|exact L]. destruct label; [congruence|].
  repeat (rewrite length_app; simpl). lia.
Qed.

Lemma En_shrinks u e :
  FindStringSubmatch findConfigEnRex u = Some e ->
  length (sub e 1) + length (sub e 3) + 2 <= length u.
Proof.
  intros H. apply En_sound in H.
  destruct H as (sk & e1 & cl & e3 & -> & _ & _ & -> & _ & ->).
  repeat (rewrite length_app; simpl). lia.
Qed.

Section WithHelpers.

Variable L : text -> list text.
Variable S' : text -> text -> list text.

Abbreviation body := (handleConfigData_body L S').
Abbreviation hcd := (handleConfigData L S').

(** The body only calls itself on texts shorter than its own. *)
Lemma body_ext (r1 r2 : text -> text -> option result) lp str :
  (forall lp' str', length str' < length str -> r1 lp' str' = r2 lp' str') ->
  body r1 lp str = body r2 lp str.
Proof.
  intros H. unfold handleConfigData_body.
  destruct str as [|a str]; [reflexivity|].
  destruct (HandleConfigValues (a :: str)) as [vs|]; [|reflexivity].
  cbv zeta.
  destruct (FindStringSubmatch findConfigStRex (a :: str)) as [s|] eqn:Es.
  - apply St_shrinks in Es. destruct Es as [Es _].
    destruct (FindStringSubmatch findConfigEnRex (sub s 4)) as [e|] eqn:Ee;
      [|reflexivity].
    apply En_shrinks in Ee.
    destruct (negb (text_eqb (sub e 2) (matching (sub s 3)))); [reflexivity|].
    destruct (negb (text_eqb (go "{") (sub s 3)) && negb (text_eqb [] (sub s 2)));
      [reflexivity|].
    assert (D : dispatch L S' r1 lp s e = dispatch L S' r2 lp s e).
    { unfold dispatch. cbv zeta.
      destruct (text_eqb (sub s 3) (go "(")); [|reflexivity].
      destruct (removeLeadingTabs (sub e 1 ++ [nl])) as [[st [err|]]|] eqn:R;
        try reflexivity.
      apply H. apply removeLeadingTabs_length in R. lia. }
    rewrite D. destruct (dispatch L S' r2 lp s e) as [[tr [err|]]|]; try reflexivity.
    rewrite H by lia. reflexivity.
  - rewrite H by (simpl; lia). reflexivity.
Qed.

Lemma body_ends (r : text -> text -> option result) lp str :
  (forall lp' str', length str' < length str -> exists x, r lp' str' = Some x) ->
  exists x, body r lp str = Some x.
Proof.
  intros H. unfold handleConfigData_body.
  destruct str as [|a str]; [eauto|].
  destruct (HandleConfigValues_ends (a :: str)) as (vs & ->).
  cbv zeta.
  destruct (FindStringSubmatch findConfigStRex (a :: str)) as [s|] eqn:Es.
  - apply St_shrinks in Es. destruct Es as [Es _].
    destruct (FindStringSubmatch findConfigEnRex (sub s 4)) as [e|] eqn:Ee;
      [|eauto].
    apply En_shrinks in Ee.
    destruct (negb (text_eqb (sub e 2) (matching (sub s 3)))); [eauto|].
    destruct (negb (text_eqb (go "{") (sub s 3)) && negb (text_eqb [] (sub s 2)));
      [eauto|].
    assert (D : exists x, dispatch L S' r lp s e = Some x).
    { unfold dispatch. cbv zeta.
      destruct (text_eqb (sub s 3) (go "(")).
      - destruct (removeLeadingTabs (sub e 1 ++ [nl])) as [[st [err|]]|] eqn:R.
        + eauto.
        + apply H. apply removeLeadingTabs_length in R. lia.
        + rewrite removeLeadingTabs_lines in R. discriminate.
      - destruct (text_eqb (sub s 3) (go "<")); [eauto|].
        destruct (text_eqb (sub s 3) (go "[")); eauto. }
    destruct D as ([tr [err|]] & ->); [eauto|].
    destruct (H lp (sub e 3)) as ([tr' err'] & ->); [lia|eauto].
  - destruct (H lp []) as ([tr' err'] & ->); [simpl; lia|eauto].
Qed.

(** With more fuel than the text is long, [handleConfigData] returns,
    and the same whatever the fuel. *)
Lemma handleConfigData_ends fuel : forall lp str,
  length str < fuel ->
  exists x, forall fuel', length str < fuel' -> hcd fuel' lp str = Some x.
Proof.
  induction fuel as [|fuel IH]; intros lp str Hl; [lia|].
  assert (E : forall f1 f2 lp' str', length str' < length str ->
              length str <= f1 -> length str <= f2 ->
              hcd f1 lp' str' = hcd f2 lp' str').
  { intros f1 f2 lp' str' H0 H1 H2.
    destruct (IH lp' str') as (x & Hx); [lia|].
    rewrite (Hx f1), (Hx f2) by lia. reflexivity. }
  destruct (@body_ends (hcd fuel) lp str) as (x & Hx).
  { intros lp' str' H0. destruct (IH lp' str') as (y & Hy); [lia|].
    exists y. apply Hy. lia. }
  exists x. intros [|f'] Hf; [lia|]. cbn [handleConfigData].
  rewrite <- Hx. apply body_ext. intros lp' str' H0. apply E; lia.
Qed.

Lemma handleConfigData_fuel fuel lp str :
  length str < fuel -> hcd fuel lp str = scan L S' lp str.
Proof.
  intros H. destruct (@handleConfigData_ends fuel lp str H) as (x & Hx).
  unfold scan. rewrite (Hx fuel), (Hx (S (length str))) by lia. reflexivity.
Qed.

Lemma scan_ends lp str : exists x, scan L S' lp str = Some x.
Proof.
  destruct (@handleConfigData_ends (S (length str)) lp str) as (x & Hx); [lia|].
  exists x. apply Hx. lia.
Qed.

(** The scan is the fixed point of the body. *)
Lemma scan_unfold lp str :
  scan L S' lp str = body (scan L S') lp str.
Proof.
  unfold scan at 1. cbn [handleConfigData]. apply body_ext.
  intros lp' str' H. apply handleConfigData_fuel. lia.
Qed.

(** ** Rounds of the loop *)

(** [valid_closing s e]: the closer that [e] found is the one the opener
    of [s] asks for, and a comma stands before a brace only: none of the
    three calls of [dbg.Error] is made. *)
Definition valid_closing (s e : list text) : Prop :=
  text_eqb (sub e 2) (matching (sub s 3)) = true /\
  negb (text_eqb (go "{") (sub s 3)) && negb (text_eqb [] (sub s 2)) = false.

(** [construct str s e]: the round on [str] finds the construct opened
    by [s] and closed by [e], and nothing is wrong with its closing. *)
Definition construct (str : text) (s e : list text) : Prop :=
  str <> [] /\
  FindStringSubmatch findConfigStRex str = Some s /\
  FindStringSubmatch findConfigEnRex (sub s 4) = Some e /\
  valid_closing s e.

(** [round lp str tr str1]: one round of the loop on [str] goes through
    with no error of any kind, adds [tr] to the trace and leaves [str1]. *)
Inductive round (lp str : text) : list event -> text -> Prop :=
| round_intro vs s e tr :
    HandleConfigValues str = Some vs ->
    construct str s e ->
    dispatch L S' (scan L S') lp s e = Some (tr, None) ->
    round lp str (value_calls lp vs ++ tr) (sub e 3).

(** Any number of rounds in a row. *)
Inductive rounds (lp : text) : text -> list event -> text -> Prop :=
| rounds_nil str : rounds lp str [] str
| rounds_cons str tr1 str1 tr2 str2 :
    round lp str tr1 str1 -> rounds lp str1 tr2 str2 ->
    rounds lp str (tr1 ++ tr2) str2.

(** [after tr r]: the outcome [r] of what follows, with [tr] before it. *)
Definition after (tr : list event) (r : option result) : option result :=
  match r with
  | Some (tr', err) => Some (tr ++ tr', err)
  | None => None
  end.

Lemma after_app tr1 tr2 r : after (tr1 ++ tr2) r = after tr1 (after tr2 r).
Proof. destruct r as [[tr' err]|]; simpl; [|reflexivity]. now rewrite app_assoc. Qed.

(** The round on a text with a construct, whatever its contents do. *)
Lemma scan_construct lp str vs s e :
  HandleConfigValues str = Some vs ->
  construct str s e ->
  scan L S' lp str =
  match dispatch L S' (scan L S') lp s e with
  | None => None
  | Some (tr, Some err) => Some (value_calls lp vs ++ tr, Some err)
  | Some (tr, None) => after (value_calls lp vs ++ tr) (scan L S' lp (sub e 3))
  end.
Proof.
  intros Hv (Hne & Hs & He & Hc & Hk). rewrite scan_unfold.
  unfold handleConfigData_body. destruct str as [|a str]; [congruence|].
  rewrite Hv, Hs, He, Hc, Hk. cbn [negb].
  destruct (dispatch L S' (scan L S') lp s e) as [[tr [err|]]|]; try reflexivity.
  destruct (scan L S' lp (sub e 3)) as [[tr' err']|]; simpl; [|reflexivity].
  now rewrite app_assoc.
Qed.

Lemma scan_round lp str tr str1 :
  round lp str tr str1 -> scan L S' lp str = after tr (scan L S' lp str1).
Proof.
  intros [vs s e tr' Hv Hc Hd]. rewrite (scan_construct lp Hv Hc), Hd. reflexivity.
Qed.

Lemma scan_rounds lp str tr str1 :
  rounds lp str tr str1 -> scan L S' lp str = after tr (scan L S' lp str1).
Proof.
  induction 1 as [str|str tr1 str1 tr2 str2 R1 R2 IH].
  - destruct (scan L S' lp str) as [[tr' err]|]; reflexivity.
  - rewrite (scan_round R1), IH, after_app. reflexivity.
Qed.

Lemma records_value_calls lp vs :
  records (value_calls lp vs) = value_calls lp vs.
Proof.
  unfold records, value_calls. induction vs as [|v vs IH]; simpl; [reflexivity|].
  now rewrite IH.
Qed.

Lemma construct_make str s e :
  str <> [] ->
  FindStringSubmatch findConfigStRex str = Some s ->
  FindStringSubmatch findConfigEnRex (sub s 4) = Some e ->
  text_eqb (sub e 2) (matching (sub s 3)) = true ->
  negb (text_eqb (go "{") (sub s 3)) && negb (text_eqb [] (sub s 2)) = false ->
  construct str s e.
Proof. intros. repeat split; assumption. Qed.

(** A round, from what its steps compute. *)
Lemma round_make lp str vs s e tr tr' str1 :
  HandleConfigValues str = Some vs ->
  construct str s e ->
  dispatch L S' (scan L S') lp s e = Some (tr, None) ->
  tr' = value_calls lp vs ++ tr -> str1 = sub e 3 ->
  round lp str tr' str1.
Proof. intros Hv C D -> ->. econstructor; eauto. Qed.

Lemma rounds_one lp str tr str1 : round lp str tr str1 -> rounds lp str tr str1.
Proof.
  intros R. rewrite <- (app_nil_r tr). econstructor; [exact R|constructor].
Qed.

(** ** The three local errors *)

(** [local_error str d]: the round on [str] finds an opener and then
    reports [d]: no closing line after it, a closing line with the wrong
    closer, or a comma before an opener that is no brace. *)
Inductive local_error (str : text) : diagnostic -> Prop :=
| missing_end s :
    FindStringSubmatch findConfigStRex str = Some s ->
    FindStringSubmatch findConfigEnRex (sub s 4) = None ->
    local_error str (MissingEnd (sub s 1) (sub s 3))
| invalid_end s e :
    FindStringSubmatch findConfigStRex str = Some s ->
    FindStringSubmatch findConfigEnRex (sub s 4) = Some e ->
    text_eqb (sub e 2) (matching (sub s 3)) = false ->
    local_error str (InvalidEnd (sub s 1) (sub s 3) (sub e 2))
| illegal_comma s e :
    FindStringSubmatch findConfigStRex str = Some s ->
    FindStringSubmatch findConfigEnRex (sub s 4) = Some e ->
    text_eqb (sub e 2) (matching (sub s 3)) = true ->
    text_eqb (go "{") (sub s 3) = false ->
    text_eqb [] (sub s 2) = false ->
    local_error str (IllegalComma (sub s 1) (sub s 3)).

Lemma St_not_nil s : FindStringSubmatch findConfigStRex [] <> Some s.
Proof. intros H. apply St_shrinks in H. simpl in H. lia. Qed.

Lemma scan_local_error lp str d vs :
  HandleConfigValues str = Some vs ->
  local_error str d ->
  scan L S' lp str = Some (value_calls lp vs ++ [DbgError d], None).
Proof.
  intros Hv Hd. rewrite scan_unfold. unfold handleConfigData_body.
  destruct str as [|a str].
  { destruct Hd as [s Hs _|s e Hs _ _|s e Hs _ _ _ _]; now apply St_not_nil in Hs. }
  rewrite Hv. cbv zeta.
  destruct Hd as [s Hs He|s e Hs He Hc|s e Hs He Hc Hb Hk]; rewrite Hs, He.
  - reflexivity.
  - now rewrite Hc.
  - now rewrite Hc, Hb, Hk.
Qed.

(** ** Where the scan gets to *)

(** [data_container str s e st]: the round on [str] finds a container in
    parentheses, and [st] is its contents with the tabs removed. *)
Definition data_container (str : text) (s e : list text) (st : text) : Prop :=
  construct str s e /\ sub s 3 = go "(" /\
  removeLeadingTabs (sub e 1 ++ [nl]) = Some (st, None).


(** [reaches d lp str lp' str']: the call on [str] with the path [lp]
    gets, with no error before it, to a round on [str'] with the path
    [lp']: in its own loop ([d] is 0), or in the call for a container it
    finds, [d] calls deeper. *)
Inductive reaches : nat -> text -> text -> text -> text -> Prop :=
| reaches_here lp str : reaches 0 lp str lp str
| reaches_next d lp str tr str1 lp' str' :
    round lp str tr str1 -> reaches d lp str1 lp' str' ->
    reaches d lp str lp' str'
| reaches_inside d lp str s e st lp' str' :
    data_container str s e st ->
    reaches d (join_path lp (sub s 1)) st lp' str' ->
    reaches (S d) lp str lp' str'.




Lemma construct_shrinks str s e :
  construct str s e ->
  length (sub e 3) < length str /\ S (length (sub e 1)) < length str.
Proof.
  intros (_ & Hs & He & _). apply St_shrinks in Hs. apply En_shrinks in He. lia.
Qed.

(** Every call and every round leaves less text than it was given. *)
Lemma reaches_shrinks d lp str lp' str' :
  reaches d lp str lp' str' -> d + length str' <= length str.
Proof.
  induction 1 as [lp str|d lp str tr str1 lp' str' R _ IH
                 |d lp str s e st lp' str' (C & O & D) _ IH].
  - simpl. lia.
  - destruct R as [vs s e tr' _ C _]. apply construct_shrinks in C. lia.
  - apply construct_shrinks in C. apply removeLeadingTabs_length in D. lia.
Qed.




End WithHelpers.

End Scan.

(** * Nesting depth *)

Module Nesting.

Import ReFacts Shapes Loops Forward Scan.

Lemma nesting_app_nl a b :
  nesting_depth (a ++ nl :: b) = Nat.max (nesting_depth a) (nesting_depth b).
Proof.
  unfold nesting_depth. now rewrite lines_app_nl, map_app, list_max_app.
Qed.

Lemma nesting_nil : nesting_depth [] = 0.
Proof. reflexivity. Qed.

Lemma is_word_not_special a :
  is_word a = true -> (a =? nl)%char = false /\ (a =? tab)%char = false.
Proof.
  intros W. split.
  - destruct (a =? nl)%char eqn:E; [|reflexivity].
    apply Ascii.eqb_eq in E. subst a. discriminate.
  - destruct (a =? tab)%char eqn:E; [|reflexivity].
    apply Ascii.eqb_eq in E. subst a. discriminate.
Qed.

(** A text that starts with a label has depth 1 at least. *)
Lemma nesting_label a t : is_word a = true -> 1 <= nesting_depth (a :: t).
Proof.
  intros W. destruct (is_word_not_special a W) as [N T].
  unfold nesting_depth. simpl. rewrite N.
  destruct (lines t) as [|l ls] eqn:E; [now apply lines_not_nil in E|].
  simpl. rewrite T, W. lia.
Qed.

Lemma line_start_split pre :
  line_start pre -> pre = [] \/ exists pre', pre = pre' ++ [nl].
Proof.
  intros B. destruct pre as [|a pre]; [now left|]. right.
  destruct (@exists_last _ (a :: pre)) as (pre' & x & E); [discriminate|].
  exists pre'. rewrite E in *. unfold line_start in B.
  rewrite lastp_app in B. simpl in B. apply Ascii.eqb_eq in B. now subst x.
Qed.

(** The round on a text with a construct: the text has depth 1 at least,
    and neither the contents nor what follows the closing line is deeper
    than the text. *)
Lemma construct_nesting str s e :
  FindStringSubmatch findConfigStRex str = Some s ->
  FindStringSubmatch findConfigEnRex (sub s 4) = Some e ->
  1 <= nesting_depth str /\
  nesting_depth (sub e 1) <= nesting_depth str /\
  nesting_depth (sub e 3) <= nesting_depth str.
Proof.
  intros Hs He. apply St_sound in Hs.
  destruct Hs as (pre & label & sp1 & cm & sp2 & op & sp3 & r4 & E & B & Nl & Fl
                  & _ & _ & _ & _ & _ & _ & _ & _ & H4).
  apply En_exact in He. destruct He as (cl & E4 & _ & T).
  rewrite H4 in E4. clear H4.
  assert (E' : str = (pre ++ label ++ sp1 ++ cm ++ sp2 ++ op :: sp3) ++ nl :: r4).
  { rewrite E. repeat (rewrite <- app_assoc; simpl). reflexivity. }
  assert (D4 : nesting_depth (sub e 1) <= nesting_depth r4 /\
               nesting_depth (sub e 3) <= nesting_depth r4).
  { rewrite E4, nesting_app_nl. split; [lia|].
    destruct (sub e 3) as [|a e3]; [rewrite nesting_nil; lia|].
    simpl in T. subst a.
    change (cl :: nl :: e3) with ([cl] ++ nl :: e3).
    rewrite nesting_app_nl.
    change (nl :: e3) with ([] ++ nl :: e3). rewrite nesting_app_nl, nesting_nil. lia. }
  assert (D1 : 1 <= nesting_depth str).
  { destruct label as [|a label]; [congruence|].
    simpl in Fl. apply andb_prop in Fl. destruct Fl as [Fa _].
    destruct (line_start_split B) as [->|(pre' & ->)].
    - rewrite E. apply nesting_label. exact Fa.
    - rewrite E, <- app_assoc. cbn [app]. rewrite nesting_app_nl.
      pose proof (nesting_label a
        (label ++ sp1 ++ cm ++ sp2 ++ op :: sp3 ++ nl :: r4) Fa) as P.
      cbn [app] in *. lia. }
  split; [exact D1|]. rewrite E'. rewrite nesting_app_nl. lia.
Qed.

Lemma lines_one l : ~ In nl l -> lines l = [l].
Proof.
  induction l as [|a l IH]; intros N; [reflexivity|]. simpl.
  destruct (a =? nl)%char eqn:E.
  - apply Ascii.eqb_eq in E. subst a. exfalso. apply N. now left.
  - rewrite IH; [reflexivity|]. intros I. apply N. now right.
Qed.

Lemma lines_unlines ls :
  Forall (fun l => ~ In nl l) ls -> lines (unlines ls) = ls ++ [[]].
Proof.
  induction 1 as [|l ls Hl _ IH]; [reflexivity|].
  unfold unlines in *. simpl. rewrite <- app_assoc. cbn [app].
  now rewrite lines_app_nl, IH, lines_one.
Qed.

Lemma line_depth_tl l :
  tabbed l = true -> line_depth (tl l) <= pred (line_depth l).
Proof.
  destruct l as [|a l]; [auto|]. simpl. intros T. rewrite T.
  destruct (line_depth l); simpl; lia.
Qed.

(** The contents of a container, once the tabs are removed, are less
    deep than they were, unless no label is left in them. *)
Lemma dedent_nesting e1 st :
  removeLeadingTabs (e1 ++ [nl]) = Some (st, None) ->
  nesting_depth st <= pred (nesting_depth e1).
Proof.
  rewrite removeLeadingTabs_lines.
  destruct (forallb tabbed (lines e1)) eqn:F; [|discriminate].
  intros H. inversion H; subst st; clear H.
  unfold nesting_depth at 1. rewrite lines_unlines.
  - rewrite map_app, list_max_app. simpl. rewrite Nat.max_0_r.
    apply list_max_le. rewrite Forall_map, Forall_map.
    rewrite forallb_forall in F. apply Forall_forall. intros l I.
    etransitivity; [apply line_depth_tl; auto|].
    apply Nat.pred_le_mono. unfold nesting_depth.
    assert (Q : Forall (fun k => k <= list_max (map line_depth (lines e1)))
                  (map line_depth (lines e1))) by now apply list_max_le.
    rewrite Forall_map, Forall_forall in Q. now apply Q.
  - pose proof (lines_no_nl e1) as N. rewrite Forall_map.
    eapply Forall_impl; [|exact N]. intros l Hl I. apply Hl.
    destruct l; [exact I|now right].
Qed.

Section WithHelpers.

Variable L : text -> list text.
Variable S' : text -> text -> list text.

(** A call [d] levels deep needs a text of nesting depth [d]. *)
Lemma reaches_nesting d lp str lp' str' :
  reaches L S' d lp str lp' str' -> d <= nesting_depth str.
Proof.
  induction 1 as [lp str|d lp str tr str1 lp' str' R _ IH
                 |d lp str s e st lp' str' (C & O & D) _ IH].
  - lia.
  - destruct R as [vs s e tr' _ (_ & Hs & He & _) _].
    pose proof (construct_nesting _ Hs He). lia.
  - destruct C as (_ & Hs & He & _).
    pose proof (construct_nesting _ Hs He) as (P1 & P2 & _).
    apply dedent_nesting in D. lia.
Qed.

End WithHelpers.

End Nesting.

(** * Label paths *)

Module Paths.

Lemma render_snoc c l :
  c <> [] -> render (c ++ [l]) = render c ++ go ":" ++ l.
Proof.
  unfold render. induction c as [|a c IH]; intros N; [congruence|].
  destruct c as [|b c]; [reflexivity|].
  change (join (go ":") ((a :: b :: c) ++ [l]))
    with (a ++ go ":" ++ join (go ":") ((b :: c) ++ [l])).
  rewrite IH by discriminate.
  change (join (go ":") (a :: b :: c)) with (a ++ go ":" ++ join (go ":") (b :: c)).
  now rewrite <- !app_assoc.
Qed.

Lemma render_not_nil c :
  Forall (fun l : text => l <> []) c -> c <> [] -> render c <> [].
Proof.
  intros F N. destruct c as [|a c]; [congruence|].
  inversion F as [|? ? Ha _]; subst. unfold render.
  destruct a as [|x a]; [congruence|]. destruct c; discriminate.
Qed.

(** The path string of the code is the rendering of the labels. *)
Lemma join_path_render c l :
  Forall (fun l : text => l <> []) c ->
  join_path (render c) l = render (c ++ [l]).
Proof.
  intros F. destruct c as [|a c]; [reflexivity|].
  rewrite render_snoc by discriminate.
  pose proof (render_not_nil F) as N. unfold join_path.
  destruct (render (a :: c)); [exfalso; apply N; [discriminate|reflexivity]|reflexivity].
Qed.

End Paths.

(** * The claims *)

Module Claims.

Import ReFacts Shapes Loops Forward Scan Nesting Paths.

(** C4: a block stands in a text after a part with no [<] in it that is
    empty or ends a line: a label, blanks, [<] and a newline, the interior,
    and a closing line [>].  When the interior is whole lines, none of
    them after the first being [>] alone, HandleConfigBlocks passes the
    label with the interior less its last newline, byte for byte, and
    goes on with what follows the [>].  Conversely every payload passed,
    with a newline added, is the text between an opening line and a
    closing line of the input.  The text
    [b <\nline one\n\nline two\n>\n] gives (b, line one\n\nline two). *)
Theorem C4_block_payload pre label sp1 interior payload r :
  clear_of "<" pre ->
  label <> [] -> forallb is_word label = true -> forallb is_sp sp1 = true ->
  interior = payload ++ [nl] ->
  Forall (fun l => l <> go ">") (tl (lines payload)) ->
  line_end r ->
  HandleConfigBlocks (pre ++ label ++ sp1 ++ go "<\n" ++ interior ++ go ">" ++ r) =
    option_map (cons (label, payload)) (HandleConfigBlocks r) /\
  (forall str calls,
      HandleConfigBlocks str = Some calls ->
      Forall (fun lp => exists a sp b,
                str = a ++ fst lp ++ sp ++ go "<\n" ++ (snd lp ++ [nl]) ++ go ">" ++ b)
             calls) /\
  HandleConfigBlocks (go "b <\nline one\n\nline two\n>\n") =
    Some [(go "b", go "line one\n\nline two")].
Proof.
  intros C Nl Fl Fs -> Fb T. split; [|split].
  - change (pre ++ label ++ sp1 ++ go "<\n" ++ (payload ++ [nl]) ++ go ">" ++ r)
      with (pre ++ label ++ sp1 ++ "<"%char :: nl :: (payload ++ [nl]) ++ ">"%char :: r).
    rewrite <- (app_assoc payload). cbn [app].
    destruct (@enclosed_found findConfigBlockRex "<" ">" pre label sp1 payload r)
      as (x & Hx & H1 & H2 & H3); auto; try discriminate; try reflexivity.
    { apply closing_free_lines; [discriminate|exact Fb]. }
    rewrite (HandleConfigBlocks_step _ Hx), H1, H2, H3. reflexivity.
  - assert (Sd : forall s x, FindStringSubmatch findConfigBlockRex s = Some x ->
                exists sp, enclosed "<" ">" s (sub x 1) sp (sub x 2) (sub x 3)).
    { intros s x Hx. apply Block_sound in Hx. destruct Hx as (sp & _ & Hx). eauto. }
    assert (G : forall fuel str xs,
              each_match findConfigBlockRex 3 fuel str = Some xs ->
              Forall (fun lp : text * text => exists a sp b,
                str = a ++ fst lp ++ sp ++ go "<\n" ++ (snd lp ++ [nl]) ++ go ">" ++ b)
                (map (fun x => (sub x 1, sub x 2)) xs)).
    { induction fuel as [|fuel IH]; intros str xs H; [discriminate|].
      simpl in H. destruct (FindStringSubmatch findConfigBlockRex str) as [x|] eqn:E.
      - destruct (each_match findConfigBlockRex 3 fuel (sub x 3)) as [xs'|] eqn:E';
          [|discriminate].
        inversion H; subst xs; clear H.
        apply Sd in E. destruct E as (sp & pre' & E & _).
        simpl. constructor.
        + exists pre', sp, (sub x 3). simpl. rewrite <- app_assoc. exact E.
        + specialize (IH _ _ E'). eapply Forall_impl; [|exact IH].
          intros y (a & sp' & b & Hy).
          exists (pre' ++ sub x 1 ++ sp ++ "<"%char :: nl :: sub x 2
                       ++ nl :: ">"%char :: a), sp', b.
          rewrite E at 1. rewrite Hy.
          repeat (rewrite <- app_assoc; simpl). reflexivity.
      - inversion H. constructor. }
    intros str calls H. unfold HandleConfigBlocks in H.
    destruct (each_match findConfigBlockRex 3 (S (length str)) str) as [xs|] eqn:E;
      [|discriminate].
    inversion H; subst calls. exact (G _ _ _ E).
  - vm_compute. reflexivity.
Qed.

Section WithHelpers.

Variable L : text -> list text.
Variable S' : text -> text -> list text.

(** C7: a list of items stands in a text after a part with no brace in it
    that is empty or ends a line: a label, blanks, commas or none with
    blanks after them, a brace and a newline, the contents, and a
    closing line with a brace.  HandleConfigItems passes the contents to
    SepListToStringSlice with a comma for the separator when there is a
    comma before the brace and with a blank when there is none; and so
    does every call it makes.  In the helper as the specification has
    it, the items are cut from the lines that ListToStringSlice keeps,
    whatever the separator.  The text [i , {\n a, b\n c\n}\n] gives
    (i, a b c). *)
Theorem C7_items_separator pre label sp1 cm sp2 body r :
  clear_of "{" pre ->
  label <> [] -> forallb is_word label = true ->
  forallb is_sp sp1 = true -> forallb is_comma cm = true ->
  forallb is_sp sp2 = true -> (cm = [] -> sp2 = []) ->
  Forall (fun l => l <> go "}") (tl (lines body)) ->
  line_end r ->
  HandleConfigItems S'
    (pre ++ label ++ sp1 ++ cm ++ sp2 ++ go "{\n" ++ body ++ go "\n}" ++ r) =
    option_map
      (cons (label, S' body (match cm with [] => go " " | _ => go "," end)))
      (HandleConfigItems S' r) /\
  (forall str x,
      FindStringSubmatch findConfigItemsRex str = Some x ->
      exists a s1 c s2,
        forallb is_sp s1 = true /\ forallb is_comma c = true /\
        forallb is_sp s2 = true /\
        str = a ++ sub x 1 ++ s1 ++ c ++ s2 ++ go "{\n" ++ sub x 3 ++ go "\n}"
                ++ sub x 4 /\
        items_call S' x =
          (sub x 1, S' (sub x 3) (match c with [] => go " " | _ => go "," end))) /\
  (forall src,
      Txt.SepListToStringSlice src (go ",") =
        map Txt.TrimSpace
          (Txt.split_on "," (join (go ",") (Txt.ListToStringSlice src))) /\
      Txt.SepListToStringSlice src (go " ") =
        Txt.fields (join (go " ") (Txt.ListToStringSlice src))) /\
  (forall src src' sep,
      Txt.ListToStringSlice src = Txt.ListToStringSlice src' ->
      Txt.SepListToStringSlice src sep = Txt.SepListToStringSlice src' sep) /\
  HandleConfigItems Txt.SepListToStringSlice (go "i , {\n a, b\n c\n}\n") =
    Some [(go "i", [go "a"; go "b"; go "c"])].
Proof.
  intros C Nl Fl F1 Fc F2 E2 Fb T. split; [|split; [|split; [|split]]].
  - change (pre ++ label ++ sp1 ++ cm ++ sp2 ++ go "{\n" ++ body ++ go "\n}" ++ r)
      with (pre ++ label ++ sp1 ++ cm ++ sp2 ++ "{"%char :: nl :: body
                ++ nl :: "}"%char :: r).
    destruct (@items_found pre label sp1 cm sp2 body r)
      as (x & Hx & H1 & H2 & H3 & H4); auto.
    { apply closing_free_lines; [discriminate|exact Fb]. }
    rewrite (HandleConfigItems_step S' _ Hx). unfold items_call.
    rewrite H1, H2, H3, H4. destruct cm; reflexivity.
  - intros str x Hx. apply Items_sound in Hx.
    destruct Hx as (s1 & c & s2 & G1 & G2 & G3 & G4 & (a & E & _)).
    exists a, s1, c, s2. repeat (split; [assumption|]). split.
    + rewrite E at 1. repeat (rewrite <- app_assoc; simpl). reflexivity.
    + unfold items_call. rewrite G4. destruct c; reflexivity.
  - intros src. split; reflexivity.
  - intros src src' sep H. unfold Txt.SepListToStringSlice. now rewrite H.
  - vm_compute. reflexivity.
Qed.

(** C1: on the text [d (\n\tx := 1\n\tsub (\n\t\ty := 2\n\t)\n)\n] the
    scan calls the callback twice, with (Value, d:x, 1) and then with
    (Value, d:sub:y, 2), and returns no error.  At each of the two levels
    the contents of the container lose one tab per line, and the scan of
    what is left runs with the label added to the path. *)
Theorem C1_nested_data_two_values :
  HandleConfigData L S' (go "d (\n\tx := 1\n\tsub (\n\t\ty := 2\n\t)\n)\n") =
    Some ([Call ConfigValue (go "d:x") [go "1"];
           Call ConfigValue (go "d:sub:y") [go "2"]], None) /\
  removeLeadingTabs (go "\tx := 1\n\tsub (\n\t\ty := 2\n\t)\n") =
    Some (go "x := 1\nsub (\n\ty := 2\n)\n", None) /\
  scan L S' (go "d") (go "x := 1\nsub (\n\ty := 2\n)\n") =
    Some ([Call ConfigValue (go "d:x") [go "1"];
           Call ConfigValue (go "d:sub:y") [go "2"]], None) /\
  removeLeadingTabs (go "\ty := 2\n") = Some (go "y := 2\n", None) /\
  scan L S' (go "d:sub") (go "y := 2\n") =
    Some ([Call ConfigValue (go "d:sub:y") [go "2"]], None).
Proof.
  repeat split; vm_compute; reflexivity.
Qed.


(** C3, as amended: a local error (no closing line, a closing line with
    the wrong closer, a comma before an opener that is no brace) ends the
    loop of the call of handleConfigData it occurs in: that call returns
    nil, and its trace is what the rounds before delivered, the values of
    this round, and the diagnostic, with nothing after it.  For the call
    HandleConfigData makes, that is the result of HandleConfigData. *)
Theorem C3_local_error_ends_its_call lp str tr0 str' vs d :
  rounds L S' lp str tr0 str' ->
  HandleConfigValues str' = Some vs ->
  local_error str' d ->
  scan L S' lp str = Some (tr0 ++ value_calls lp vs ++ [DbgError d], None) /\
  records (tr0 ++ value_calls lp vs ++ [DbgError d]) =
    records tr0 ++ value_calls lp vs /\
  (lp = [] ->
   HandleConfigData L S' str =
     Some (tr0 ++ value_calls lp vs ++ [DbgError d], None)).
Proof.
  intros R Hv E.
  assert (H : scan L S' lp str =
              Some (tr0 ++ value_calls lp vs ++ [DbgError d], None)).
  { rewrite (scan_rounds R), (@scan_local_error L S' lp _ _ _ Hv E). reflexivity. }
  repeat split.
  - exact H.
  - unfold records. rewrite !filter_app. simpl. rewrite app_nil_r. f_equal.
    apply records_value_calls.
  - intros ->. exact H.
Qed.

(** C5: in a round on a text that is not empty, the values that
    HandleConfigValues finds in the whole of the text are delivered first,
    each under the path of the call when that path is not empty; what the
    construct found in this round delivers comes after them.  The value
    line of [b \[\nq\n\]\nk := 7\n] stands after the construct and is
    delivered before it. *)
Theorem C5_values_come_first lp str :
  str <> [] ->
  exists vs tail err,
    HandleConfigValues str = Some vs /\
    scan L S' lp str = Some (value_calls lp vs ++ tail, err) /\
    value_calls lp vs =
      map (fun lv => Call ConfigValue
             (match lp with [] => fst lv | _ => lp ++ go ":" ++ fst lv end)
             [snd lv]) vs /\
    (forall s e ctr cerr,
        construct str s e ->
        dispatch L S' (scan L S') lp s e = Some (ctr, cerr) ->
        exists tail', tail = ctr ++ tail') /\
    HandleConfigData L S' (go "b [\nq\n]\nk := 7\n") =
      Some ([Call ConfigValue (go "k") [go "7"];
             Call ConfigLines (go "b") (L (go "q"));
             Call ConfigValue (go "k") [go "7"]], None).
Proof.
  intros Hne. destruct (HandleConfigValues_ends str) as (vs & Hv).
  destruct (scan_ends L S' lp str) as ([tr err] & Hs).
  assert (P : exists tail, tr = value_calls lp vs ++ tail /\
            forall s e ctr cerr,
              construct str s e ->
              dispatch L S' (scan L S') lp s e = Some (ctr, cerr) ->
              exists tail', tail = ctr ++ tail').
  { rewrite scan_unfold in Hs. unfold handleConfigData_body in Hs.
    destruct str as [|a str]; [congruence|]. rewrite Hv in Hs. cbv zeta in Hs.
    destruct (FindStringSubmatch findConfigStRex (a :: str)) as [s|] eqn:Es.
    - destruct (FindStringSubmatch findConfigEnRex (sub s 4)) as [e|] eqn:Ee.
      + destruct (negb (text_eqb (sub e 2) (matching (sub s 3)))) eqn:Hc.
        { inversion Hs; subst. eexists; split; [reflexivity|].
          intros s' e' ctr cerr (_ & Hs' & He' & Hc' & _).
          rewrite Es in Hs'. inversion Hs'; subst s'.
          rewrite Ee in He'. inversion He'; subst e'.
          rewrite Hc' in Hc. discriminate. }
        destruct (negb (text_eqb (go "{") (sub s 3)) && negb (text_eqb [] (sub s 2))) eqn:Hk.
        { inversion Hs; subst. eexists; split; [reflexivity|].
          intros s' e' ctr cerr (_ & Hs' & He' & _ & Hk').
          rewrite Es in Hs'. inversion Hs'; subst s'.
          rewrite Ee in He'. inversion He'; subst e'. congruence. }
        destruct (dispatch L S' (scan L S') lp s e) as [[ctr [cerr|]]|] eqn:Hd;
          [| |discriminate].
        * inversion Hs; subst. eexists; split; [reflexivity|].
          intros s' e' ctr' cerr' (_ & Hs' & He' & _) Hd'.
          rewrite Es in Hs'. inversion Hs'; subst s'.
          rewrite Ee in He'. inversion He'; subst e'.
          rewrite Hd in Hd'. inversion Hd'; subst. exists []. now rewrite app_nil_r.
        * destruct (scan L S' lp (sub e 3)) as [[tr' err']|]; [|discriminate].
          inversion Hs; subst. eexists; split; [reflexivity|].
          intros s' e' ctr' cerr' (_ & Hs' & He' & _) Hd'.
          rewrite Es in Hs'. inversion Hs'; subst s'.
          rewrite Ee in He'. inversion He'; subst e'.
          rewrite Hd in Hd'. inversion Hd'; subst. eauto.
      + inversion Hs; subst. eexists; split; [reflexivity|].
        intros s' e' ctr cerr (_ & Hs' & He' & _).
        rewrite Es in Hs'. inversion Hs'; subst s'. congruence.
    - destruct (scan L S' lp []) as [[tr' err']|]; [|discriminate].
      inversion Hs; subst. eexists; split; [reflexivity|].
      intros s' e' ctr cerr (_ & Hs' & _). congruence. }
  destruct P as (tail & -> & P).
  exists vs, tail, err.
  split; [exact Hv|]. split; [exact Hs|]. split; [reflexivity|].
  split; [exact P|]. vm_compute. reflexivity.
Qed.

(** C6: every record carries the labels of the containers around it, the
    outermost first, and then its own label, joined by colons:
    handleConfigData with the path string of the labels [ctx] is the scan
    of the specification inside the containers [ctx].  HandleConfigData is
    that scan inside no container, where a path is the record's own label
    and nothing else. *)
Theorem C6_label_paths fuel ctx str :
  Forall (fun l => l <> []) ctx ->
  handleConfigData L S' fuel (render ctx) str = scanData_in L S' fuel ctx str /\
  HandleConfigData L S' str = scanData_in L S' (S (length str)) [] str /\
  (forall l, render ([] ++ [l]) = l) /\
  (forall l, render (ctx ++ [l]) = join (go ":") (ctx ++ [l])).
Proof.
  assert (J : forall c l, Forall (fun l => l <> []) c ->
              join_path (render c) l = render (c ++ [l]))
    by (intros c l; apply join_path_render).
  assert (V : forall c vs, Forall (fun l => l <> []) c ->
              value_calls (render c) vs = value_records c vs).
  { intros c vs H. unfold value_calls, value_records.
    apply map_ext. intros lv. now rewrite J. }
  assert (G : forall f c t, Forall (fun l => l <> []) c ->
              handleConfigData L S' f (render c) t = scanData_in L S' f c t).
  { induction f as [|f IH]; intros c t H; [reflexivity|].
    cbn [handleConfigData scanData_in].
    unfold handleConfigData_body, scanData_body.
    destruct t as [|a t]; [reflexivity|].
    destruct (HandleConfigValues (a :: t)) as [vs|]; [|reflexivity].
    cbv zeta. rewrite (V c vs H).
    destruct (FindStringSubmatch findConfigStRex (a :: t)) as [s|] eqn:Es.
    - destruct (FindStringSubmatch findConfigEnRex (sub s 4)) as [e|]; [|reflexivity].
      destruct (negb (text_eqb (sub e 2) (matching (sub s 3)))); [reflexivity|].
      destruct (negb (text_eqb (go "{") (sub s 3)) && negb (text_eqb [] (sub s 2)));
        [reflexivity|].
      assert (D : dispatch L S' (handleConfigData L S' f) (render c) s e =
                  dispatch_in L S' (scanData_in L S' f) c s e).
      { unfold dispatch, dispatch_in. cbv zeta. rewrite (J c (sub s 1) H).
        destruct (text_eqb (sub s 3) (go "(")); [|reflexivity].
        destruct (removeLeadingTabs (sub e 1 ++ [nl])) as [[st [err|]]|];
          try reflexivity.
        apply IH. apply Forall_app. split; [exact H|].
        constructor; [|constructor]. now apply St_shrinks in Es. }
      rewrite D. destruct (dispatch_in L S' (scanData_in L S' f) c s e)
        as [[tr [err|]]|]; try reflexivity.
      now rewrite IH.
    - now rewrite IH. }
  intros H. split; [now apply G|]. split.
  - apply (G (S (length str)) [] str). constructor.
  - split; reflexivity.
Qed.

(** C8: handleConfigData returns on every text.  With more fuel than the
    text is long the model never runs out, and the fuel does not change
    what it returns.  A round that finds no opener ends the loop; a
    round that finds a construct leaves a text shorter than its own, and
    the text a container hands to the call inside it is shorter too.  A
    call [d] levels deep works on a text at least [d] bytes shorter, and
    [d] is at most the nesting depth of the text: the greatest number of
    tabs before a label at the start of a line, and one more. *)
Theorem C8_handleConfigData_returns lp str :
  (exists tr err, handleConfigData L S' (S (length str)) lp str = Some (tr, err)) /\
  (forall fuel, length str < fuel ->
     handleConfigData L S' fuel lp str =
     handleConfigData L S' (S (length str)) lp str) /\
  (forall vs, str <> [] -> HandleConfigValues str = Some vs ->
     FindStringSubmatch findConfigStRex str = None ->
     scan L S' lp str = Some (value_calls lp vs, None)) /\
  (forall s e,
     FindStringSubmatch findConfigStRex str = Some s ->
     FindStringSubmatch findConfigEnRex (sub s 4) = Some e ->
     length (sub e 3) < length str /\
     forall st, removeLeadingTabs (sub e 1 ++ [nl]) = Some (st, None) ->
                length st < length str) /\
  (forall d lp' str', reaches L S' d lp str lp' str' ->
     d + length str' <= length str /\ d <= nesting_depth str).
Proof.
  repeat split.
  - destruct (scan_ends L S' lp str) as ([tr err] & H). now exists tr, err.
  - intros fuel H. now apply handleConfigData_fuel.
  - intros vs Hne Hv Hs. rewrite scan_unfold. unfold handleConfigData_body.
    destruct str as [|a str]; [congruence|]. rewrite Hv, Hs. cbv zeta.
    rewrite scan_unfold. simpl. now rewrite app_nil_r.
  - apply St_shrinks in H. apply En_shrinks in H0. lia.
  - intros st R. apply St_shrinks in H. apply En_shrinks in H0.
    apply removeLeadingTabs_length in R. lia.
  - now apply reaches_shrinks in H.
  - now apply reaches_nesting in H.
Qed.

(** C9: on the text [a <\nz\n>\nv := 1\n] the record (Value, v, 1) is
    delivered twice, before and after the block.  In general, when a
    round goes through and leaves a text that is not empty, the values
    of that text, which the round has delivered already, are delivered
    again by the next round. *)
Theorem C9_value_delivered_twice :
  HandleConfigData L S' (go "a <\nz\n>\nv := 1\n") =
    Some ([Call ConfigValue (go "v") [go "1"];
           Call ConfigBlock (go "a") [go "z"];
           Call ConfigValue (go "v") [go "1"]], None) /\
  (exists str tr err r tr1 tr2 tr3,
      HandleConfigData L S' str = Some (tr, err) /\
      r = Call ConfigValue (go "v") [go "1"] /\
      tr = tr1 ++ r :: tr2 ++ r :: tr3) /\
  (forall lp str tr str1 vs1,
      round L S' lp str tr str1 -> str1 <> [] ->
      HandleConfigValues str1 = Some vs1 ->
      exists tail err,
        scan L S' lp str = Some (tr ++ value_calls lp vs1 ++ tail, err)).
Proof.
  assert (E : HandleConfigData L S' (go "a <\nz\n>\nv := 1\n") =
    Some ([Call ConfigValue (go "v") [go "1"];
           Call ConfigBlock (go "a") [go "z"];
           Call ConfigValue (go "v") [go "1"]], None))
    by (vm_compute; reflexivity).
  split; [exact E|]. split.
  - eexists _, _, _, _, [], [_], []. split; [exact E|]. split; reflexivity.
  - intros lp str tr str1 vs1 R Hne Hv.
    rewrite (scan_round R).
    destruct (@C5_values_come_first lp str1 Hne)
      as (vs & tail & err & Hv' & Hs & _).
    rewrite Hv in Hv'. inversion Hv'; subst vs.
    rewrite Hs. simpl. eauto.
Qed.

(** C10: a value line has to end in a newline.  Every match of the value
    expression reads a label, [:=], the value and a newline; a text
    with no newline in it has no match, so HandleConfigValues delivers
    nothing for it and neither does handleConfigData; and when a text
    ends in a line [last] with no newline after it, every pair that is
    delivered comes from a line of the text before [last].  The text
    [foo := 42] with no newline after it gives nothing. *)
Theorem C10_value_needs_newline :
  (forall str x,
      FindStringSubmatch findConfigValueRex str = Some x ->
      exists pre sp1 sp2 sp3,
        str = pre ++ sub x 1 ++ sp1 ++ go ":=" ++ sp2 ++ sub x 2 ++ sp3
                  ++ nl :: sub x 3) /\
  (forall str, ~ In nl str ->
      FindStringSubmatch findConfigValueRex str = None /\
      HandleConfigValues str = Some [] /\
      forall lp, scan L S' lp str = Some ([], None)) /\
  (forall t last pairs,
      ~ In nl last ->
      HandleConfigValues (t ++ last) = Some pairs ->
      Forall (fun lv => exists a sp1 sp2 sp3 b,
                t = a ++ fst lv ++ sp1 ++ go ":=" ++ sp2 ++ snd lv ++ sp3 ++ nl :: b)
             pairs) /\
  HandleConfigValues (go "foo := 42") = Some [] /\
  HandleConfigData L S' (go "foo := 42") = Some ([], None) /\
  HandleConfigValues (go "a := 1\nfoo := 42") = Some [(go "a", go "1")] /\
  HandleConfigValues (go "foo := 42\n") = Some [(go "foo", go "42")].
Proof.
  assert (A : forall str x,
      FindStringSubmatch findConfigValueRex str = Some x ->
      exists pre sp1 sp2 sp3,
        str = pre ++ sub x 1 ++ sp1 ++ go ":=" ++ sp2 ++ sub x 2 ++ sp3
                  ++ nl :: sub x 3).
  { intros str x H. apply Value_sound in H.
    destruct H as (pre & label & sp1 & sp2 & v & sp3 & r & -> & H).
    destruct H as (_ & _ & _ & _ & _ & _ & -> & -> & ->).
    now exists pre, sp1, sp2, sp3. }
  assert (B : forall str, ~ In nl str ->
              FindStringSubmatch findConfigValueRex str = None).
  { intros str N. destruct (FindStringSubmatch findConfigValueRex str) as [x|] eqn:E;
      [|reflexivity].
    exfalso. apply N. apply A in E. destruct E as (pre & sp1 & sp2 & sp3 & ->).
    do 7 (apply in_or_app; right). now left. }
  split; [exact A|]. split; [|split; [|repeat split; vm_compute; reflexivity]].
  2: {
    assert (G : forall fuel t last xs, ~ In nl last ->
              each_match findConfigValueRex 3 fuel (t ++ last) = Some xs ->
              Forall (fun lv : text * text => exists a sp1 sp2 sp3 b,
                t = a ++ fst lv ++ sp1 ++ go ":=" ++ sp2 ++ snd lv ++ sp3 ++ nl :: b)
                (map (fun x => (sub x 1, sub x 2)) xs)).
    { induction fuel as [|fuel IH]; intros t last xs N H; [discriminate|].
      simpl in H.
      destruct (FindStringSubmatch findConfigValueRex (t ++ last)) as [x|] eqn:E.
      - destruct (each_match findConfigValueRex 3 fuel (sub x 3)) as [xs'|] eqn:E';
          [|discriminate].
        inversion H; subst xs; clear H.
        apply A in E. destruct E as (pre & sp1 & sp2 & sp3 & E).
        assert (P : exists r', t = (pre ++ sub x 1 ++ sp1 ++ go ":=" ++ sp2
                                        ++ sub x 2 ++ sp3) ++ nl :: r' /\
                               sub x 3 = r' ++ last).
        { assert (E2 : t ++ last =
                       (pre ++ sub x 1 ++ sp1 ++ go ":=" ++ sp2 ++ sub x 2 ++ sp3)
                         ++ nl :: sub x 3)
            by (rewrite E; repeat (rewrite <- app_assoc; simpl); reflexivity).
          apply app_eq_app in E2. destruct E2 as (l & [[Ht Hl]|[Ht Hl]]).
          - destruct l as [|y l].
            + simpl in Hl. exfalso. apply N. rewrite <- Hl. now left.
            + injection Hl as -> Hl. exists l. rewrite Ht. auto.
          - exfalso. apply N. rewrite Hl. apply in_or_app. right. now left. }
        destruct P as (r' & Ht & Hr). simpl. constructor.
        + exists pre, sp1, sp2, sp3, r'. simpl. rewrite Ht.
          repeat (rewrite <- app_assoc; simpl). reflexivity.
        + rewrite Hr in E'. specialize (IH _ _ _ N E').
          eapply Forall_impl; [|exact IH].
          intros lv (a & s1 & s2 & s3 & b & Hlv).
          exists ((pre ++ sub x 1 ++ sp1 ++ go ":=" ++ sp2 ++ sub x 2 ++ sp3)
                    ++ nl :: a), s1, s2, s3, b.
          rewrite Ht, Hlv. repeat (rewrite <- app_assoc; simpl). reflexivity.
      - inversion H. constructor. }
    intros t last pairs N H. unfold HandleConfigValues in H.
    destruct (each_match findConfigValueRex 3 _ (t ++ last)) as [xs|] eqn:E;
      [|discriminate].
    inversion H; subst pairs. exact (G _ _ _ _ N E). }
  intros str H. split; [now apply B|]. split.
  - unfold HandleConfigValues. cbn [each_match]. now rewrite B.
  - intros lp. rewrite scan_unfold. unfold handleConfigData_body.
    destruct str as [|a str]; [reflexivity|].
    unfold HandleConfigValues. cbn [each_match]. rewrite (B _ H). cbv zeta.
    destruct (FindStringSubmatch findConfigStRex (a :: str)) as [s|] eqn:E.
    + exfalso. apply H. apply St_sound in E.
      destruct E as (pre & label & sp1 & cm & sp2 & op & sp3 & r4 & -> & _).
      do 5 (apply in_or_app; right). right. apply in_or_app. right. now left.
    + rewrite scan_unfold. reflexivity.
Qed.

End WithHelpers.

(** ** The theorems at work *)

Ltac evaluate := vm_compute; reflexivity.

Ltac found :=
  eapply construct_make; [discriminate|evaluate ..].

Lemma C4_witness :
  HandleConfigBlocks
    (go "# c\n" ++ go "b" ++ go " " ++ go "<\n" ++ go "line one\n\n# two \n"
       ++ go ">" ++ go "\n") =
  option_map (cons (go "b", go "line one\n\n# two ")) (HandleConfigBlocks (go "\n")).
Proof.
  apply (@C4_block_payload (go "# c\n") (go "b") (go " ")
           (go "line one\n\n# two \n") (go "line one\n\n# two ") (go "\n")).
  - split; [reflexivity|]. vm_compute. intuition discriminate.
  - discriminate.
  - reflexivity.
  - reflexivity.
  - reflexivity.
  - vm_compute. repeat constructor; discriminate.
  - reflexivity.
Defined.

Lemma C7_witness :
  HandleConfigItems Txt.SepListToStringSlice
    (go "\n" ++ go "i" ++ go " " ++ go "," ++ go " " ++ go "{\n" ++ go " a, b\n c"
       ++ go "\n}" ++ go "\n") =
  option_map
    (cons (go "i", Txt.SepListToStringSlice (go " a, b\n c") (go ",")))
    (HandleConfigItems Txt.SepListToStringSlice (go "\n")).
Proof.
  apply (@C7_items_separator Txt.SepListToStringSlice
           (go "\n") (go "i") (go " ") (go ",") (go " ") (go " a, b\n c") (go "\n")).
  - split; [reflexivity|]. vm_compute. intuition discriminate.
  - discriminate.
  - reflexivity.
  - reflexivity.
  - reflexivity.
  - reflexivity.
  - discriminate.
  - vm_compute. repeat constructor; discriminate.
  - reflexivity.
Defined.



Lemma C3_witness :
  scan Txt.ListToStringSlice Txt.SepListToStringSlice []
    (go "b <\nq\n>\na <\nzz\n") =
  Some ([Call ConfigBlock (go "b") [go "q"]] ++ value_calls [] []
          ++ [DbgError (MissingEnd (go "a") (go "<"))], None).
Proof.
  refine (proj1 (@C3_local_error_ends_its_call _ _ [] _
                   [Call ConfigBlock (go "b") [go "q"]] (go "\na <\nzz\n") []
                   (MissingEnd (go "a") (go "<")) _ _ _)).
  - apply rounds_one. eapply round_make; [evaluate|found|evaluate|evaluate|evaluate].
  - evaluate.
  - eapply (@missing_end _ [_; go "a"; []; go "<"; _]); evaluate.
Defined.

(** C3, as it was stated, fails: the block [a] inside the container [d]
    has no closing line, yet the scan goes on after the container, with
    the lines [l], and HandleConfigData returns an error, not nil. *)
Lemma C3_counterexample :
  HandleConfigData Txt.ListToStringSlice Txt.SepListToStringSlice
    (go "d (\n\ta <\n\tzz\n)\nl [\nq\n]\ne (\nx\n)\n") =
  Some ([DbgError (MissingEnd (go "a") (go "<"));
         Call ConfigLines (go "l") [go "q"]], Some ErrIllegalDataBlock).
Proof. evaluate. Qed.

Lemma C5_witness :
  exists vs tail err,
    HandleConfigValues (go "k := 7\n") = Some vs /\
    scan Txt.ListToStringSlice Txt.SepListToStringSlice (go "d") (go "k := 7\n") =
      Some (value_calls (go "d") vs ++ tail, err).
Proof.
  destruct (@C5_values_come_first Txt.ListToStringSlice Txt.SepListToStringSlice
              (go "d") (go "k := 7\n")) as (vs & tail & err & H1 & H2 & _).
  - discriminate.
  - now exists vs, tail, err.
Defined.

Lemma C6_witness :
  handleConfigData Txt.ListToStringSlice Txt.SepListToStringSlice 9
    (render [go "d"; go "sub"]) (go "y := 2\n") =
  scanData_in Txt.ListToStringSlice Txt.SepListToStringSlice 9
    [go "d"; go "sub"] (go "y := 2\n").
Proof.
  apply (@C6_label_paths Txt.ListToStringSlice Txt.SepListToStringSlice 9
           [go "d"; go "sub"] (go "y := 2\n")).
  repeat constructor; discriminate.
Defined.

End Claims.

(** * The rest of the package

    What follows is about the code that the claims above leave aside or
    touch in passing: [removeLeadingTabs], [HandleConfigValues],
    [HandleConfigLines], [StringListToDict], and [handleConfigData] on
    texts that are given by their shape. *)

(** ** [removeLeadingTabs] *)

Module TabFacts.

Import ReFacts Shapes Loops.

Lemma Index_none l : ~ In nl l -> Index l nl = (-1)%Z.
Proof.
  induction l as [|a l IH]; intros N; [reflexivity|].
  cbn [Index]. destruct (a =? nl)%char eqn:E.
  - apply Ascii.eqb_eq in E. subst a. exfalso. apply N. now left.
  - rewrite IH by (intros I; apply N; now right). reflexivity.
Qed.

(** One turn of the loop on a text whose first line is [l]. *)
Lemma removeLeadingTabs_loop_step fuel l r acc :
  ~ In nl l ->
  removeLeadingTabs_loop (S fuel) (l ++ nl :: r) acc =
  match l with
  | [] => removeLeadingTabs_loop fuel r (acc ++ [nl])
  | a :: l' =>
      if (a =? tab)%char
      then removeLeadingTabs_loop fuel r (acc ++ l' ++ [nl])
      else Some ([], Some ErrIllegalDataBlock)
  end.
Proof.
  intros Nl. destruct l as [|a l].
  - cbn [app removeLeadingTabs_loop Index]. rewrite Ascii.eqb_refl. reflexivity.
  - change ((a :: l) ++ nl :: r) with (a :: (l ++ nl :: r)).
    cbn [removeLeadingTabs_loop].
    change (a :: (l ++ nl :: r)) with ((a :: l) ++ nl :: r).
    rewrite (@Index_line (a :: l) r Nl).
    replace (0 <? Z.of_nat (length (a :: l)))%Z with true
      by (symmetry; apply Z.ltb_lt; simpl length; lia).
    replace (Z.of_nat (length (a :: l)) =? 0)%Z with false
      by (symmetry; apply Z.eqb_neq; simpl length; lia).
    cbn [andb]. destruct (a =? tab)%char eqn:T; [|reflexivity].
    unfold slice_from, slice.
    replace (Z.to_nat (Z.of_nat (length (a :: l)) + 1)) with (S (length (a :: l))) by lia.
    replace (Z.to_nat (Z.of_nat (length (a :: l)) + 1 - 1)) with (length (a :: l)) by lia.
    replace (Z.to_nat 1) with 1 by reflexivity.
    assert (K : skipn (S (length (a :: l))) ((a :: l) ++ nl :: r) = r).
    { change (nl :: r) with ([nl] ++ r).
      rewrite app_assoc.
      replace (S (length (a :: l))) with (length ((a :: l) ++ [nl]))
        by (rewrite length_app; simpl; lia).
      rewrite skipn_app, skipn_all, Nat.sub_diag. reflexivity. }
    rewrite K.
    assert (J : firstn (length (a :: l)) (skipn 1 ((a :: l) ++ nl :: r)) = l ++ [nl]).
    { simpl skipn. change (nl :: r) with ([nl] ++ r).
      rewrite app_assoc.
      replace (length (a :: l)) with (length (l ++ [nl]))
        by (rewrite length_app; simpl; lia).
      rewrite firstn_app, firstn_all, Nat.sub_diag. simpl. apply app_nil_r. }
    now rewrite J.
Qed.

(** The loop on a last line that no newline ends. *)
Lemma removeLeadingTabs_loop_last fuel last acc :
  last <> [] -> ~ In nl last ->
  removeLeadingTabs_loop (S fuel) last acc = Some ([], Some ErrIllegalDataBlock).
Proof.
  intros N I. destruct last as [|a l]; [congruence|].
  cbn [removeLeadingTabs_loop]. rewrite (@Index_none _ I).
  cbn. destruct (a =? nl)%char; reflexivity.
Qed.

Lemma unlines_cons l ls : unlines (l :: ls) = l ++ nl :: unlines ls.
Proof. unfold unlines. simpl. now rewrite <- app_assoc. Qed.

Lemma removeLeadingTabs_loop_open ls : forall fuel last acc,
  Forall (fun l => ~ In nl l) ls -> last <> [] -> ~ In nl last ->
  length (unlines ls ++ last) <= fuel ->
  removeLeadingTabs_loop fuel (unlines ls ++ last) acc =
  Some ([], Some ErrIllegalDataBlock).
Proof.
  induction ls as [|l ls IH]; intros fuel last acc N L I F.
  - simpl in *. destruct fuel as [|fuel]; [destruct last; simpl in F; [congruence|lia]|].
    now apply removeLeadingTabs_loop_last.
  - inversion N as [|? ? Nl Nls]; subst.
    rewrite unlines_cons in *. rewrite <- app_assoc in *.
    cbn [app] in *. rewrite length_app in F. cbn [length] in F.
    destruct fuel as [|fuel]; [lia|].
    rewrite removeLeadingTabs_loop_step by exact Nl.
    destruct l as [|a l].
    + apply IH; auto. simpl in F. lia.
    + destruct (a =? tab)%char; [|reflexivity]. apply IH; auto. simpl in F. lia.
Qed.

(** A text is its whole lines and what follows the last newline. *)
Lemma text_split (s : text) :
  exists ls last, Forall (fun l => ~ In nl l) ls /\ ~ In nl last /\
                  s = unlines ls ++ last.
Proof.
  induction s as [|a s (ls & last & N & I & ->)].
  - exists [], []. repeat split; auto.
  - destruct (a =? nl)%char eqn:E.
    + apply Ascii.eqb_eq in E. subst a. exists ([] :: ls), last.
      repeat split; auto.
    + destruct ls as [|l ls].
      * exists [], (a :: last). repeat split; auto.
        intros [->|J]; [now rewrite Ascii.eqb_refl in E|auto].
      * inversion N; subst. exists ((a :: l) :: ls), last.
        split; [|split; [exact I|now rewrite !unlines_cons]].
        constructor; auto.
        intros [->|J]; [now rewrite Ascii.eqb_refl in E|auto].
Qed.

Lemma removeLeadingTabs_unlines ls :
  Forall (fun l => ~ In nl l) ls ->
  removeLeadingTabs (unlines ls) =
  Some (if forallb tabbed ls
        then (unlines (map (@tl ascii) ls), None)
        else ([], Some ErrIllegalDataBlock)).
Proof.
  intros N. unfold removeLeadingTabs.
  destruct (unlines ls) eqn:U.
  - destruct ls as [|l ls]; [reflexivity|].
    rewrite unlines_cons in U. now destruct l.
  - rewrite <- U. now rewrite removeLeadingTabs_loop_lines.
Qed.

Lemma removeLeadingTabs_open ls last :
  Forall (fun l => ~ In nl l) ls -> last <> [] -> ~ In nl last ->
  removeLeadingTabs (unlines ls ++ last) = Some ([], Some ErrIllegalDataBlock).
Proof.
  intros N L I. unfold removeLeadingTabs.
  destruct (unlines ls ++ last) eqn:U.
  - apply app_eq_nil in U. tauto.
  - rewrite <- U. now apply removeLeadingTabs_loop_open.
Qed.

Lemma unlines_last ls s a : unlines ls = s ++ [a] -> a = nl.
Proof.
  revert s. induction ls as [|l ls IH]; intros s E.
  - now destruct s.
  - rewrite unlines_cons in E. destruct ls as [|l' ls].
    + cbn in E. change (l ++ [nl]) with (l ++ [nl]) in E.
      apply app_inj_tail in E. now destruct E.
    + destruct (unlines (l' :: ls)) as [|b u] eqn:U.
      { rewrite unlines_cons in U. now destruct l'. }
      destruct (@exists_last _ (b :: u)) as (u' & z & Hu); [discriminate|].
      rewrite Hu in E, U.
      change (l ++ nl :: u' ++ [z]) with (l ++ (nl :: u') ++ [z]) in E.
      rewrite app_assoc in E. apply app_inj_tail in E. destruct E as [_ <-].
      now apply (IH u').
Qed.

End TabFacts.

Module Tabs.

Import ReFacts Shapes Loops TabFacts.


(** X1: removeLeadingTabs returns a text and no error exactly when its
    argument is made of whole lines, each ended by a newline, that are
    empty or start with a tab; the text it returns is these lines, each
    less its first byte. *)
Theorem removeLeadingTabs_succeeds_iff src st :
  removeLeadingTabs src = Some (st, None) <->
  exists ls, Forall (fun l => ~ In nl l) ls /\ forallb tabbed ls = true /\
             src = unlines ls /\ st = unlines (map (@tl ascii) ls).
Proof.
  split.
  - destruct (text_split src) as (ls & last & N & I & ->).
    destruct last as [|a last].
    + rewrite app_nil_r, removeLeadingTabs_unlines by exact N.
      destruct (forallb tabbed ls) eqn:T; [|discriminate].
      intros H. inversion H. exists ls. auto.
    + rewrite removeLeadingTabs_open by (auto; discriminate). discriminate.
  - intros (ls & N & T & -> & ->).
    now rewrite removeLeadingTabs_unlines, T.
Qed.

(** X2: removeLeadingTabs refuses every text whose last byte is not a
    newline: the last line of a container has to be whole.  With the
    error comes the empty string, never a part of the text. *)
Theorem removeLeadingTabs_open_last_line s a :
  a <> nl ->
  removeLeadingTabs (s ++ [a]) = Some ([], Some ErrIllegalDataBlock).
Proof.
  intros A. destruct (text_split (s ++ [a])) as (ls & last & N & I & E).
  rewrite E. destruct last as [|b last].
  - rewrite app_nil_r in E. symmetry in E. apply unlines_last in E. congruence.
  - apply removeLeadingTabs_open; auto. discriminate.
Qed.

Lemma removeLeadingTabs_open_last_line_witness :
  removeLeadingTabs (go "\ta\n\t" ++ ["b"%char]) = Some ([], Some ErrIllegalDataBlock).
Proof.
  exact (@removeLeadingTabs_open_last_line (go "\ta\n\t") "b"%char ltac:(discriminate)).
Defined.

(** X3: removeLeadingTabs undoes the indentation of a container: lines
    written with one tab before each come back as they were, and so do
    lines of which the empty ones were left without a tab. *)
Theorem removeLeadingTabs_round_trip ls :
  Forall (fun l => ~ In nl l) ls ->
  removeLeadingTabs (unlines (map (cons tab) ls)) = Some (unlines ls, None) /\
  removeLeadingTabs
    (unlines (map (fun l => match l with [] => [] | _ => tab :: l end) ls)) =
    Some (unlines ls, None).
Proof.
  intros N. split.
  - rewrite removeLeadingTabs_unlines.
    + replace (forallb tabbed (map (cons tab) ls)) with true.
      * now rewrite map_map, map_id.
      * symmetry. apply forallb_forall. intros x Hx. apply in_map_iff in Hx.
        destruct Hx as (l & <- & _). reflexivity.
    + apply Forall_forall. intros x Hx. apply in_map_iff in Hx.
      destruct Hx as (l & <- & Hl). rewrite Forall_forall in N.
      intros [E|J]; [discriminate|]. now apply (N l).
  - rewrite removeLeadingTabs_unlines.
    + replace (forallb tabbed _) with true.
      * rewrite map_map. f_equal. f_equal. f_equal.
        rewrite <- (map_id ls) at 2. apply map_ext. now intros [|a l].
      * symmetry. apply forallb_forall. intros x Hx. apply in_map_iff in Hx.
        destruct Hx as (l & <- & _). now destruct l.
    + apply Forall_forall. intros x Hx. apply in_map_iff in Hx.
      destruct Hx as (l & <- & Hl). rewrite Forall_forall in N.
      specialize (N l Hl). destruct l as [|a l]; [auto|].
      intros [E|J]; [discriminate|]. now apply N.
Qed.

Lemma removeLeadingTabs_round_trip_witness :
  removeLeadingTabs (unlines (map (cons tab) [go "a := 1"; []; go "\tb <"])) =
    Some (unlines [go "a := 1"; []; go "\tb <"], None).
Proof.
  refine (proj1 (@removeLeadingTabs_round_trip [go "a := 1"; []; go "\tb <"] _)).
  repeat constructor; vm_compute; intuition discriminate.
Defined.

End Tabs.

(** ** [HandleConfigValues] *)

Module ValueFacts.

Import ReFacts Shapes Loops Forward.

(** What a greedy loop over a class returns comes from the cursor after
    a run of the class, and from no cursor further on. *)
Lemma greedy_chr_none f k : forall u p c,
  greedy_chr f k p u c = None -> k (Cur p u c) = None.
Proof.
  intros [|a u] p c; cbn [greedy_chr]; [auto|].
  destruct (f a); [|auto]. destruct (greedy_chr f k (Some a) u c); [discriminate|auto].
Qed.

Lemma greedy_chr_inv f k : forall u p c x,
  greedy_chr f k p u c = Some x ->
  exists w t, u = w ++ t /\ forallb f w = true /\
    k (Cur (lastp w p) t c) = Some x /\
    (forall b t', t = b :: t' -> f b = true ->
       k (Cur (Some b) t' c) = None).
Proof.
  induction u as [|a u IH]; intros p c x H; cbn [greedy_chr] in H.
  - exists [], []. split; [reflexivity|]. split; [reflexivity|].
    split; [exact H|]. discriminate.
  - destruct (f a) eqn:F.
    + destruct (greedy_chr f k (Some a) u c) as [y|] eqn:G.
      * inversion H; subst y. apply IH in G.
        destruct G as (w & t & -> & Fw & K & M).
        exists (a :: w), t. split; [reflexivity|]. split; [|split; [exact K|exact M]].
        simpl. now rewrite F.
      * exists [], (a :: u). split; [reflexivity|]. split; [reflexivity|].
        split; [exact H|].
        intros b t' E _. inversion E; subst. eapply greedy_chr_none. exact G.
    + exists [], (a :: u). split; [reflexivity|]. split; [reflexivity|].
      split; [exact H|].
      intros b t' E Fb. inversion E; subst. congruence.
Qed.

(** What a lazy loop returns comes from the first cursor that the
    continuation accepts. *)
Lemma lazy_chr_inv f k : forall u p c x,
  lazy_chr f k p u c = Some x ->
  exists w t, u = w ++ t /\ forallb f w = true /\
    k (Cur (lastp w p) t c) = Some x /\
    (forall w1 w2, w = w1 ++ w2 -> w2 <> [] ->
       k (Cur (lastp w1 p) (w2 ++ t) c) = None).
Proof.
  induction u as [|a u IH]; intros p c x H; cbn [lazy_chr] in H.
  - destruct (k (Cur p [] c)) as [y|] eqn:K; [|discriminate].
    exists [], []. split; [reflexivity|]. split; [reflexivity|].
    split; [now rewrite <- H|].
    intros w1 w2 E N. symmetry in E. apply app_eq_nil in E. tauto.
  - destruct (k (Cur p (a :: u) c)) as [y|] eqn:K.
    + exists [], (a :: u). split; [reflexivity|]. split; [reflexivity|].
      split; [now rewrite <- H|].
      intros w1 w2 E N. symmetry in E. apply app_eq_nil in E. tauto.
    + destruct (f a) eqn:F; [|discriminate]. apply IH in H.
      destruct H as (w & t & -> & Fw & Kw & M).
      exists (a :: w), t. split; [reflexivity|]. split; [|split; [exact Kw|]].
      * simpl. now rewrite F.
      * intros w1 w2 E N. destruct w1 as [|b w1].
        -- simpl in E. subst w2. exact K.
        -- inversion E; subst. now apply M.
Qed.

(** How the value expression ends: blanks, a newline, and the group of
    what follows. *)
Definition value_end : regex := (Star sp >> lit nl >> Cap 3 (Star any))%re.

Lemma value_end_here p sps r c :
  forallb is_sp sps = true ->
  run value_end Some (Cur p (sps ++ nl :: r) c) =
  Some (Cur (lastp r (Some nl)) [] ((3, r) :: c)).
Proof.
  intros F. unfold value_end. rewrite run_Cat. apply run_star_max; auto.
  - reflexivity.
  - now rewrite run_Cat, run_lit, run_rest_group.
Qed.

(** A text that is trimmed of blanks and stays on its line. *)
Definition trimmed (v : text) : Prop :=
  ~ In nl v /\ (forall v', v <> " "%char :: v') /\ (forall v', v <> v' ++ [" "%char]).

(** The value and what follows it, from the blanks after [:=] on. *)
Lemma value_exact p u c e :
  run (Star sp >> Cap 2 (Lazy any) >> value_end)%re Some (Cur p u c) = Some e ->
  exists sp2 v sp3 r,
    u = sp2 ++ v ++ sp3 ++ nl :: r /\
    forallb is_sp sp2 = true /\ forallb is_sp sp3 = true /\ trimmed v /\
    caps e = (3, r) :: (2, v) :: c.
Proof.
  intros H. change sp with (Chr is_sp) in H at 1.
  rewrite run_Cat, run_Star_chr in H.
  apply greedy_chr_inv in H. destruct H as (sp2 & t2 & -> & F2 & H & Mx).
  rewrite run_Cat, run_Cap, run_Lazy_any in H.
  apply lazy_chr_inv in H. destruct H as (v & t3 & -> & _ & H & Mn).
  cbn [rest] in H. unfold set_cap in H. cbn [prev rest caps] in H.
  rewrite firstn_consumed in H.
  pose proof H as H0. unfold value_end in H0.
  peel H0 w8 t8 c8 D8. peel H0 w9 t9 c9 D9.
  rewrite run_rest_group in H0. inv H0.
  apply den_star_chr in D8. destruct D8 as [-> F8].
  apply den_lit in D9. destruct D9 as [-> ->].
  exists sp2, v, w8, t9. repeat split; auto.
  - (* no newline in the value *)
    intros I. apply in_split in I. destruct I as (v1 & v2 & ->).
    specialize (Mn v1 (nl :: v2) eq_refl). cbn [rest] in Mn.
    unfold set_cap in Mn. cbn [prev rest caps] in Mn.
    rewrite <- app_assoc in Mn. cbn [app] in Mn.
    specialize (Mn ltac:(discriminate)).
    match type of Mn with run _ _ (Cur ?p' (nl :: ?r') ?c') = _ =>
      pose proof (@value_end_here p' [] r' c' eq_refl) as V end.
    cbn [app] in V. rewrite V in Mn. discriminate.
  - (* no blank before the value *)
    intros v' ->. specialize (Mx " "%char (v' ++ w8 ++ nl :: t9) eq_refl eq_refl).
    rewrite run_Cat, run_Cap, run_Lazy_any in Mx.
    eapply lazy_chr_complete; [|exact Mx].
    cbn [rest]. unfold set_cap. cbn [prev rest caps].
    now rewrite value_end_here.
  - (* no blank after the value *)
    intros v' ->. specialize (Mn v' [" "%char] eq_refl ltac:(discriminate)).
    cbn [rest] in Mn. unfold set_cap in Mn. cbn [prev rest caps app] in Mn.
    match type of Mn with run _ _ (Cur ?p' _ ?c') = _ =>
      assert (V : run value_end Some (Cur p' ((" "%char :: w8) ++ nl :: t9) c') <> None)
    end.
    { rewrite value_end_here; [discriminate|]. simpl. exact F8. }
    now apply V.
Qed.

(** A text that [findConfigValueRex] matches, with the preferences of
    the search taken into account: the value is trimmed of blanks. *)
Lemma Value_exact str x :
  FindStringSubmatch findConfigValueRex str = Some x ->
  exists pre sp1 sp2 sp3,
    str = pre ++ sub x 1 ++ sp1 ++ go ":=" ++ sp2 ++ sub x 2 ++ sp3 ++ nl :: sub x 3 /\
    line_start pre /\
    sub x 1 <> [] /\ forallb is_word (sub x 1) = true /\
    forallb is_sp sp1 = true /\ forallb is_sp sp2 = true /\
    forallb is_sp sp3 = true /\ trimmed (sub x 2).
Proof.
  intros H. apply Find_sound in H. destruct H as (sk & t & e & -> & H & ->).
  cbn [prog findConfigValueRex] in H.
  peel H w0 t0 c0 D0. peel H w1 t1 c1 D1. peel H w2 t2 c2 D2.
  peel H w3 t3 c3 D3. peel H w4 t4 c4 D4. peel H w5 t5 c5 D5.
  change (Star sp >> Cap 2 (Lazy any) >> Star sp >> lit nl >> Cap 3 (Star any))%re
    with (Star sp >> Cap 2 (Lazy any) >> value_end)%re in H.
  apply value_exact in H. destruct H as (sp2 & v & sp3 & r & -> & F2 & F3 & T & C).
  apply den_lazy_chr in D0. destruct D0 as [-> _].
  inv D1. inv D2.
  match goal with E : den (plus word) _ _ _ _ _ |- _ =>
    apply den_plus_chr in E; destruct E as (-> & L0 & L1) end.
  apply den_star_chr in D3. destruct D3 as [-> F1].
  apply den_lit in D4. destruct D4 as [-> ->].
  apply den_lit in D5. destruct D5 as [-> ->].
  cbn. rewrite C. cbn.
  exists (sk ++ w0), w3, sp2, sp3.
  split; [now rewrite <- !app_assoc|].
  split; [|auto 10].
  unfold line_start. rewrite lastp_app.
  match goal with E : at_bol _ = true |- _ => exact E end.
Qed.

Lemma first_newline (a a' b b' : text) :
  ~ In nl a -> ~ In nl a' -> a ++ nl :: b = a' ++ nl :: b' -> a = a' /\ b = b'.
Proof.
  revert a'. induction a as [|x a IH]; intros [|y a'] N N' E.
  - inversion E. auto.
  - inversion E; subst. exfalso. apply N'. now left.
  - inversion E; subst. exfalso. apply N. now left.
  - inversion E; subst. destruct (IH a') as [-> ->]; auto.
    + intros I. apply N. now right.
    + intros I. apply N'. now right.
Qed.

Lemma sp_no_nl sps : forallb is_sp sps = true -> ~ In nl sps.
Proof.
  intros F I. rewrite forallb_forall in F. specialize (F nl I). discriminate.
Qed.

(** Inside a trimmed value the end of the value expression finds no
    match. *)
Lemma value_end_skip v sp3 r :
  trimmed v -> forallb is_sp sp3 = true ->
  forall p c w1 w2, v = w1 ++ w2 -> w2 <> [] ->
    run value_end Some (Cur p (w2 ++ sp3 ++ nl :: r) c) = None.
Proof.
  intros (Nn & _ & Ne) F3 p c w1 w2 -> W.
  remember (w2 ++ sp3 ++ nl :: r) as u eqn:U.
  destruct (run value_end Some (Cur p u c)) as [e|] eqn:E; [|reflexivity].
  exfalso. unfold value_end in E.
  peel E w8 t8 c8 D8. peel E w9 t9 c9 D9.
  apply den_star_chr in D8. destruct D8 as [-> F8].
  apply den_lit in D9. destruct D9 as [-> ->].
  cbn [app] in U. rewrite (app_assoc w2 sp3) in U.
  apply first_newline in U.
  - destruct U as [U _].
    destruct (@exists_last _ w2 W) as (w2' & z & ->).
    assert (Z : is_sp z = true).
    { rewrite U in F8. rewrite !forallb_app in F8. cbn in F8.
      apply andb_prop in F8. destruct F8 as [F8 _].
      apply andb_prop in F8. destruct F8 as [_ F8].
      now rewrite andb_true_r in F8. }
    unfold is_sp in Z. apply Ascii.eqb_eq in Z. subst z.
    apply (Ne (w1 ++ w2')). now rewrite <- app_assoc.
  - now apply sp_no_nl.
  - intros I. apply in_app_or in I. destruct I as [I|I].
    + apply Nn. apply in_or_app. now right.
    + now apply sp_no_nl in I.
Qed.

(** A value line that stands first in a text is what the expression
    matches. *)
Lemma value_found pre label sp1 sp2 v sp3 r :
  clear_of ":" pre ->
  label <> [] -> forallb is_word label = true ->
  forallb is_sp sp1 = true -> forallb is_sp sp2 = true ->
  forallb is_sp sp3 = true -> trimmed v -> (v = [] -> sp3 = []) ->
  exists x,
    FindStringSubmatch findConfigValueRex
      (pre ++ label ++ sp1 ++ go ":=" ++ sp2 ++ v ++ sp3 ++ nl :: r) = Some x /\
    sub x 1 = label /\ sub x 2 = v /\ sub x 3 = r.
Proof.
  intros C Nl Fl F1 F2 F3 T V0.
  assert (K : run (prog findConfigValueRex) Some
                (Cur None (pre ++ label ++ sp1 ++ go ":=" ++ sp2 ++ v ++ sp3 ++ nl :: r) [])
              = Some (Cur (lastp r (Some nl)) [] [(3, r); (2, v); (1, label)])).
  { cbn [prog findConfigValueRex]. rewrite run_Cat. apply run_lazy_skip.
    - apply (@pre_skip word_or_sp) with (o := ":"%char); auto.
      intros p u c e'. apply opener_sound.
    - rewrite run_Cat, run_Bol by (destruct C as [C _]; exact C).
      rewrite run_Cat. apply run_cap_plus_max; auto.
      { now apply stops_word_sp. }
      rewrite run_Cat. apply run_star_max; auto.
      { reflexivity. }
      change (go ":=") with [":"%char; "="%char]. cbn [app].
      rewrite run_Cat, run_lit, run_Cat, run_lit.
      rewrite run_Cat. apply run_star_max; auto.
      { destruct v as [|a v].
        - rewrite (V0 eq_refl). reflexivity.
        - destruct T as (_ & T & _). change (is_sp a = false). unfold is_sp.
          destruct (" " =? a)%char eqn:E; [|reflexivity].
          apply Ascii.eqb_eq in E. subst a. now destruct (T v). }
      rewrite run_Cat. apply run_cap_lazy_skip.
      + intros w1 w2 E W. now apply (@value_end_skip v sp3 r T F3 _ _ w1 w2).
      + now apply value_end_here. }
  unfold FindStringSubmatch, Re.FindStringSubmatch.
  rewrite (search_first _ _ _ K). eexists. split; [reflexivity|].
  cbn. auto.
Qed.

Lemma HandleConfigValues_step str x :
  FindStringSubmatch findConfigValueRex str = Some x ->
  HandleConfigValues str =
  option_map (cons (sub x 1, sub x 2)) (HandleConfigValues (sub x 3)).
Proof.
  intros H. unfold HandleConfigValues.
  rewrite (each_match_step str shrinks_value), H.
  destruct (each_match findConfigValueRex 3 _ (sub x 3)); reflexivity.
Qed.

Lemma trimmed_nil : trimmed [].
Proof.
  split; [auto|]. split; intros v'; [discriminate|]. now destruct v'.
Qed.

(** A label and a value as HandleConfigValues hands them over. *)
Definition value_pair (lv : text * text) : Prop :=
  fst lv <> [] /\ forallb is_word (fst lv) = true /\ trimmed (snd lv).

Lemma each_value_pair fuel : forall s xs,
  each_match findConfigValueRex 3 fuel s = Some xs ->
  Forall value_pair (map (fun x => (sub x 1, sub x 2)) xs).
Proof.
  induction fuel as [|fuel IH]; intros s xs H; [discriminate|].
  rewrite each_match_S in H.
  destruct (FindStringSubmatch findConfigValueRex s) as [x|] eqn:E.
  - destruct (each_match findConfigValueRex 3 fuel (sub x 3)) as [xs'|] eqn:E';
      [|discriminate].
    inversion H; subst xs. cbn [map]. constructor; [|now apply (IH (sub x 3))].
    apply Value_exact in E.
    destruct E as (pre & sp1 & sp2 & sp3 & _ & _ & N & W & _ & _ & _ & T).
    now split.
  - inversion H. constructor.
Qed.

End ValueFacts.

Module Values.

Import ReFacts Shapes Loops Forward ValueFacts.


(** X4: Every pair that HandleConfigValues passes to the callback has a label
    of one word byte or more and a value with no newline in it and no
    blank at either end; tabs at its ends stay. *)
Theorem HandleConfigValues_trimmed str pairs :
  HandleConfigValues str = Some pairs -> Forall value_pair pairs.
Proof.
  unfold HandleConfigValues. intros H.
  destruct (each_match findConfigValueRex 3 _ str) as [xs|] eqn:E; [|discriminate].
  inversion H. now apply (each_value_pair _ _ E).
Qed.

Lemma HandleConfigValues_trimmed_witness :
  Forall value_pair [(go "a", go "b  c"); (go "d_1", go "\te"); (go "f", [])].
Proof.
  refine (@HandleConfigValues_trimmed (go "a :=  b  c  \n d := 1\nd_1:=\te\nf :=   \n") _ _).
  vm_compute. reflexivity.
Defined.

(** X5: A value line stands in a text after a part with no colon in it that
    is empty or ends a line: a label, blanks, [:=], blanks, the value,
    blanks and a newline.  HandleConfigValues passes the label and the
    value and goes on with the text after the newline. *)
Theorem HandleConfigValues_found pre label sp1 sp2 v sp3 r :
  clear_of ":" pre ->
  label <> [] -> forallb is_word label = true ->
  forallb is_sp sp1 = true -> forallb is_sp sp2 = true ->
  forallb is_sp sp3 = true -> trimmed v ->
  HandleConfigValues (pre ++ label ++ sp1 ++ go ":=" ++ sp2 ++ v ++ sp3 ++ nl :: r) =
  option_map (cons (label, v)) (HandleConfigValues r).
Proof.
  intros C Nl Fl F1 F2 F3 T.
  assert (X : exists x,
    FindStringSubmatch findConfigValueRex
      (pre ++ label ++ sp1 ++ go ":=" ++ sp2 ++ v ++ sp3 ++ nl :: r) = Some x /\
    sub x 1 = label /\ sub x 2 = v /\ sub x 3 = r).
  { destruct v as [|a v].
    - replace (sp2 ++ [] ++ sp3 ++ nl :: r)
        with ((sp2 ++ sp3) ++ [] ++ [] ++ nl :: r)
        by (cbn [app]; now rewrite <- app_assoc).
      apply value_found; auto.
      rewrite forallb_app. now rewrite F2, F3.
    - apply value_found; auto. discriminate. }
  destruct X as (x & E & <- & <- & <-). now apply HandleConfigValues_step.
Qed.

Lemma HandleConfigValues_found_witness :
  HandleConfigValues
    (go "# no colon\n" ++ go "k_1" ++ go " " ++ go ":=" ++ go "  " ++ go "v w"
       ++ go " " ++ nl :: go "n := 2\n") =
  option_map (cons (go "k_1", go "v w")) (HandleConfigValues (go "n := 2\n")).
Proof.
  apply HandleConfigValues_found; try reflexivity.
  - split; [reflexivity|]. vm_compute. intuition discriminate.
  - discriminate.
  - split; [vm_compute; intuition discriminate|].
    split; intros v'; [discriminate|].
    intros E. apply (f_equal (@rev ascii)) in E. rewrite rev_app_distr in E.
    discriminate.
Defined.

(** The line that holds the pair [lv]. *)
Definition value_line (lv : text * text) : text :=
  fst lv ++ go " := " ++ snd lv ++ [nl].

(** X6: Labels and values written one pair a line, as label, [:=] and value,
    are read back by HandleConfigValues as they were, in order. *)
Theorem HandleConfigValues_round_trip pairs :
  Forall value_pair pairs ->
  HandleConfigValues (concat (map value_line pairs)) = Some pairs.
Proof.
  induction 1 as [|[l v] pairs (Nl & Fl & T) _ IH]; [reflexivity|].
  cbn [map concat]. unfold value_line at 1. cbn [fst snd] in *.
  destruct (@value_found [] l (go " ") (go " ") v [] (concat (map value_line pairs)))
    as (x & Hx & X1 & X2 & X3); auto.
  { split; [reflexivity|auto]. }
  replace ((l ++ go " := " ++ v ++ [nl]) ++ concat (map value_line pairs))
    with ([] ++ l ++ go " " ++ go ":=" ++ go " " ++ v ++ [] ++ nl
             :: concat (map value_line pairs)).
  - rewrite (HandleConfigValues_step _ Hx), X1, X2, X3, IH. reflexivity.
  - change (go " := ") with (go " " ++ go ":=" ++ go " ").
    cbn [app]. rewrite <- !app_assoc. reflexivity.
Qed.

Lemma HandleConfigValues_round_trip_witness :
  HandleConfigValues (concat (map value_line [(go "a", go "1 2"); (go "b", [])])) =
  Some [(go "a", go "1 2"); (go "b", [])].
Proof.
  apply HandleConfigValues_round_trip.
  repeat constructor; try discriminate; cbn [snd].
  - vm_compute. intuition discriminate.
  - intros v' E. apply (f_equal (@rev ascii)) in E. rewrite rev_app_distr in E.
    discriminate.
  - auto.
  - now destruct v'.
Defined.

End Values.

(** ** [StringListToDict] *)

Module DictFacts.

Import ReFacts Shapes Loops Forward ValueFacts.

Lemma text_eqb_eq a b : text_eqb a b = true <-> a = b.
Proof.
  revert b. induction a as [|x a IH]; intros [|y b]; simpl; split;
    try discriminate; auto.
  - intros H. apply andb_prop in H. destruct H as [X H].
    apply Ascii.eqb_eq in X. apply IH in H. congruence.
  - intros H. inversion H; subst. rewrite Ascii.eqb_refl. now apply IH.
Qed.

Lemma text_eqb_refl a : text_eqb a a = true.
Proof. now apply text_eqb_eq. Qed.

Lemma text_eqb_neq a b : a <> b -> text_eqb a b = false.
Proof.
  intros N. destruct (text_eqb a b) eqn:E; [|reflexivity].
  apply text_eqb_eq in E. congruence.
Qed.

Lemma lookup_store_same d k v : lookup (store d k v) k = Some v.
Proof.
  induction d as [|[k' v'] d IH]; simpl.
  - now rewrite text_eqb_refl.
  - destruct (text_eqb k' k) eqn:E; simpl.
    + now rewrite text_eqb_refl.
    + now rewrite E.
Qed.

Lemma lookup_store_other d k v k0 :
  k0 <> k -> lookup (store d k v) k0 = lookup d k0.
Proof.
  intros N. induction d as [|[k' v'] d IH]; simpl.
  - rewrite text_eqb_neq; auto.
  - destruct (text_eqb k' k) eqn:E; simpl.
    + apply text_eqb_eq in E. subst k'.
      rewrite !text_eqb_neq; auto.
    + destruct (text_eqb k' k0); auto.
Qed.

Lemma keys_store d k v k0 :
  In k0 (map fst (store d k v)) <-> k0 = k \/ In k0 (map fst d).
Proof.
  induction d as [|[k' v'] d IH]; simpl.
  - intuition.
  - destruct (text_eqb k' k) eqn:E; simpl.
    + apply text_eqb_eq in E. subst k'. intuition.
    + rewrite IH. intuition.
Qed.

Lemma NoDup_store d k v : NoDup (map fst d) -> NoDup (map fst (store d k v)).
Proof.
  induction d as [|[k' v'] d IH]; simpl; intros N.
  - constructor; [auto|constructor].
  - inversion N as [|? ? Nk Nd]; subst.
    destruct (text_eqb k' k) eqn:E; simpl.
    + apply text_eqb_eq in E. subst k'. now constructor.
    + constructor; [|auto]. rewrite keys_store. intros [->|I]; [|auto].
      now rewrite text_eqb_refl in E.
Qed.

Lemma lookup_None d k : lookup d k = None <-> ~ In k (map fst d).
Proof.
  induction d as [|[k' v'] d IH]; simpl; [tauto|].
  destruct (text_eqb k' k) eqn:E.
  - apply text_eqb_eq in E. subst k'. split; [discriminate|tauto].
  - rewrite IH. split; [|tauto]. intros N [->|I]; [|auto].
    now rewrite text_eqb_refl in E.
Qed.

Lemma StringListToDict_app l1 l2 :
  StringListToDict (l1 ++ l2) = fold_left dict_add l2 (StringListToDict l1).
Proof. apply fold_left_app. Qed.

(** The value group: a greedy loop over the bytes of the line. *)
Lemma run_line_rest n p w t c :
  ~ In nl w -> match t with [] => True | a :: _ => a = nl end ->
  run (Cap n (Star line_byte)) Some (Cur p (w ++ t) c) =
  Some (Cur (lastp w p) t ((n, w) :: c)).
Proof.
  intros N T. rewrite run_Cap. unfold line_byte.
  apply run_star_max.
  - apply forallb_forall. intros x I. destruct (x =? nl)%char eqn:E; [|reflexivity].
    apply Ascii.eqb_eq in E. subst x. contradiction.
  - destruct t as [|a t]; [exact I|]. subst a. reflexivity.
  - unfold set_cap. cbn [prev rest caps]. now rewrite firstn_consumed.
Qed.

Lemma run_line_rest_inv n p u c e :
  run (Cap n (Star line_byte)) Some (Cur p u c) = Some e ->
  exists w t, u = w ++ t /\ ~ In nl w /\
    match t with [] => True | a :: _ => a = nl end /\
    e = Cur (lastp w p) t ((n, w) :: c).
Proof.
  intros H. rewrite run_Cap in H. unfold line_byte in H.
  rewrite run_Star_chr in H. apply greedy_chr_inv in H.
  destruct H as (w & t & -> & F & K & M).
  unfold set_cap in K. cbn [prev rest caps] in K. rewrite firstn_consumed in K.
  exists w, t. split; [reflexivity|]. split; [|split; [|now inversion K]].
  - intros I. rewrite forallb_forall in F. specialize (F nl I).
    now rewrite Ascii.eqb_refl in F.
  - destruct t as [|a t]; [exact Logic.I|].
    destruct (a =? nl)%char eqn:E; [now apply Ascii.eqb_eq in E|].
    specialize (M a t eq_refl). rewrite E in M. specialize (M eq_refl).
    discriminate.
Qed.

(** What a line of a dictionary reads: a label that starts the line,
    blanks, a colon, blanks, and the value up to the end of the line. *)
Lemma dictRex_sound v x :
  FindStringSubmatchAtStart dictRex v = Some x ->
  exists sp1 sp2 r,
    v = sub x 1 ++ sp1 ++ ":"%char :: sp2 ++ sub x 2 ++ r /\
    sub x 1 <> [] /\ forallb is_word (sub x 1) = true /\
    forallb is_sp sp1 = true /\ forallb is_sp sp2 = true /\
    ~ In nl (sub x 2) /\ (forall v', sub x 2 <> " "%char :: v') /\
    match r with [] => True | a :: _ => a = nl end.
Proof.
  unfold FindStringSubmatchAtStart. intros H.
  destruct (run (prog dictRex) Some (Cur None v [])) as [e|] eqn:E; [|discriminate].
  inversion H; subst x; clear H. cbn [prog dictRex] in E.
  remember v as u eqn:U in E.
  peel E w1 t1 c1 D1. peel E w2 t2 c2 D2. peel E w3 t3 c3 D3.
  change sp with (Chr is_sp) in E. rewrite run_Cat, run_Star_chr in E.
  apply greedy_chr_inv in E. destruct E as (sp2 & t4 & -> & F2 & E & Mx).
  pose proof E as E0.
  apply run_line_rest_inv in E. destruct E as (w & t & -> & Nw & T & ->).
  inv D1.
  match goal with E : den (plus word) _ _ _ _ _ |- _ =>
    apply den_plus_chr in E; destruct E as (-> & L0 & L1) end.
  apply den_star_chr in D2. destruct D2 as [-> F1].
  apply den_lit in D3. destruct D3 as [-> ->].
  cbn. exists w2, sp2, t.
  split; [reflexivity|].
  split; [exact L0|]. split; [exact L1|]. split; [exact F1|].
  split; [exact F2|]. split; [exact Nw|]. split; [|exact T].
  intros v' ->. specialize (Mx " "%char (v' ++ t) eq_refl eq_refl).
  assert (Nv : ~ In nl v') by (intros I; apply Nw; now right).
  rewrite (@run_line_rest 2 _ v' t _ Nv T) in Mx. discriminate.
Qed.

Lemma dictRex_found label sp1 sp2 val r :
  label <> [] -> forallb is_word label = true ->
  forallb is_sp sp1 = true -> forallb is_sp sp2 = true ->
  ~ In nl val -> (forall v', val <> " "%char :: v') ->
  match r with [] => True | a :: _ => a = nl end ->
  exists whole,
    FindStringSubmatchAtStart dictRex (label ++ sp1 ++ ":"%char :: sp2 ++ val ++ r) =
    Some [whole; label; val].
Proof.
  intros Nl Fl F1 F2 Nv Sv T.
  assert (K : run (prog dictRex) Some
                (Cur None (label ++ sp1 ++ ":"%char :: sp2 ++ val ++ r) []) =
              Some (Cur (lastp val (lastp sp2 (Some ":"%char))) r
                      [(2, val); (1, label)])).
  { cbn [prog dictRex]. rewrite run_Cat. apply run_cap_plus_max; auto.
    { now apply stops_word_sp. }
    rewrite run_Cat. apply run_star_max; auto.
    { reflexivity. }
    rewrite run_Cat, run_lit. rewrite run_Cat. apply run_star_max; auto.
    { destruct val as [|a val].
      - destruct r as [|b r]; [exact I|]. subst b. reflexivity.
      - change (is_sp a = false). unfold is_sp.
        destruct (" " =? a)%char eqn:E; [|reflexivity].
        apply Ascii.eqb_eq in E. subst a. now destruct (Sv val). }
    now apply run_line_rest. }
  unfold FindStringSubmatchAtStart. rewrite K. cbn. eauto.
Qed.

(** A line that has no label at its start, or no colon, has no match. *)
Lemma dictRex_none v :
  match v with [] => True | a :: _ => is_word a = false end \/ ~ In ":"%char v ->
  FindStringSubmatchAtStart dictRex v = None.
Proof.
  intros H. destruct (FindStringSubmatchAtStart dictRex v) as [x|] eqn:E; [|reflexivity].
  exfalso. apply dictRex_sound in E.
  destruct E as (sp1 & sp2 & r & V & N & W & _).
  destruct H as [H|H].
  - destruct (sub x 1) as [|a l]; [congruence|]. rewrite V in H. cbn in H.
    cbn in W. apply andb_prop in W. destruct W as [W _]. congruence.
  - apply H. rewrite V. do 2 (apply in_or_app; right). now left.
Qed.

Lemma keys_dict_add d line k :
  In k (map fst (dict_add d line)) <->
  In k (map fst d) \/
  exists x, FindStringSubmatchAtStart dictRex line = Some x /\ sub x 1 = k.
Proof.
  unfold dict_add. destruct (FindStringSubmatchAtStart dictRex line) as [x|].
  - rewrite keys_store. split.
    + intros [->|I]; eauto.
    + intros [I|(y & E & <-)]; [auto|]. inversion E. auto.
  - split; [auto|]. intros [I|(y & E & _)]; [auto|discriminate].
Qed.

Lemma keys_fold l : forall d k,
  In k (map fst (fold_left dict_add l d)) <->
  In k (map fst d) \/
  exists line x, In line l /\
    FindStringSubmatchAtStart dictRex line = Some x /\ sub x 1 = k.
Proof.
  induction l as [|line l IH]; intros d k; cbn [fold_left].
  - split; [auto|]. intros [I|(line & x & [] & _)]. exact I.
  - rewrite IH, keys_dict_add. split.
    + intros [[I|(x & E & K)]|(line' & x & I & E & K)]; eauto 8 using in_eq, in_cons.
    + intros [I|(line' & x & [<-|I] & E & K)]; eauto 8.
Qed.

Lemma NoDup_fold l : forall d,
  NoDup (map fst d) -> NoDup (map fst (fold_left dict_add l d)).
Proof.
  induction l as [|line l IH]; intros d N; cbn [fold_left]; [exact N|].
  apply IH. unfold dict_add.
  destruct (FindStringSubmatchAtStart dictRex line); [now apply NoDup_store|exact N].
Qed.

Lemma lookup_fold_other l k : forall d,
  Forall (fun line => forall x,
            FindStringSubmatchAtStart dictRex line = Some x -> sub x 1 <> k) l ->
  lookup (fold_left dict_add l d) k = lookup d k.
Proof.
  induction l as [|line l IH]; intros d F; cbn [fold_left]; [reflexivity|].
  inversion F as [|? ? Fl Fr]; subst. rewrite IH by exact Fr.
  unfold dict_add. destruct (FindStringSubmatchAtStart dictRex line) as [x|] eqn:E;
    [|reflexivity].
  apply lookup_store_other. intros ->. now apply (Fl x).
Qed.

End DictFacts.

Module Dict.

Import ReFacts Shapes Loops Forward DictFacts.

(** X7: StringListToDict maps a label to the value of the last line that
    starts with it: a line that reads label, blanks, a colon, blanks and
    a value sets the entry of the label to the value, and the lines
    before it and the lines after it that have other labels, or none, do
    not change that. *)
Theorem StringListToDict_last_wins l1 l2 label sp1 sp2 val :
  label <> [] -> forallb is_word label = true ->
  forallb is_sp sp1 = true -> forallb is_sp sp2 = true ->
  ~ In nl val -> (forall v', val <> " "%char :: v') ->
  Forall (fun line => forall x,
            FindStringSubmatchAtStart dictRex line = Some x -> sub x 1 <> label) l2 ->
  lookup (StringListToDict (l1 ++ (label ++ sp1 ++ ":"%char :: sp2 ++ val) :: l2))
         label = Some val.
Proof.
  intros Nl Fl F1 F2 Nv Sv F.
  rewrite StringListToDict_app. cbn [fold_left].
  rewrite lookup_fold_other by exact F.
  unfold dict_add.
  destruct (@dictRex_found label sp1 sp2 val [] Nl Fl F1 F2 Nv Sv I) as (whole & E).
  rewrite app_nil_r in E. rewrite E. cbn [sub nth].
  apply lookup_store_same.
Qed.

Lemma StringListToDict_last_wins_witness :
  lookup (StringListToDict
            ([go "k: old"] ++ (go "k" ++ go " " ++ ":"%char :: go "  " ++ go "new: x")
               :: [go "# k: no"; go "j : 1"]))
         (go "k") = Some (go "new: x").
Proof.
  apply StringListToDict_last_wins; try reflexivity; try discriminate.
  - vm_compute. intuition discriminate.
  - repeat constructor; intros x; vm_compute; intros E; inversion E; discriminate.
Defined.

(** X8: StringListToDict passes over a line that is empty, that does not
    start with a word byte (a comment, a line that starts with a blank or
    a tab), or that has no colon: the result is that of the other
    lines. *)
Theorem StringListToDict_skips l1 line l2 :
  match line with [] => True | a :: _ => is_word a = false end
    \/ ~ In ":"%char line ->
  StringListToDict (l1 ++ line :: l2) = StringListToDict (l1 ++ l2).
Proof.
  intros H. rewrite !StringListToDict_app. cbn [fold_left].
  unfold dict_add at 2. now rewrite dictRex_none.
Qed.

Lemma StringListToDict_skips_witness :
  StringListToDict ([go "a: 1"] ++ go " b: 2" :: [go "c: 3"]) =
  StringListToDict ([go "a: 1"] ++ [go "c: 3"]).
Proof.
  apply StringListToDict_skips. left. reflexivity.
Defined.

(** X9: The map StringListToDict returns holds each label once, so that its
    length is the number of different labels; and it has no entry for a
    key exactly when no line has that key for its label. *)
Theorem StringListToDict_keys l :
  NoDup (map fst (StringListToDict l)) /\
  (forall k, lookup (StringListToDict l) k = None <->
     forall line x, In line l ->
       FindStringSubmatchAtStart dictRex line = Some x -> sub x 1 <> k).
Proof.
  split.
  - apply NoDup_fold. constructor.
  - intros k. rewrite lookup_None. unfold StringListToDict. rewrite keys_fold.
    split.
    + intros N line x I E K. apply N. right. eauto.
    + intros N [[]|(line & x & I & E & K)]. now apply (N line x).
Qed.

End Dict.

(** ** [handleConfigData] on texts of a given shape *)

Module DataFacts.

Import ReFacts Shapes Loops Forward Scan Nesting Paths ValueFacts.

Definition is_opener (a : ascii) : bool :=
  ("<" =? a)%char || ("[" =? a)%char || ("{" =? a)%char || ("(" =? a)%char.

Lemma is_opener_In a : is_opener a = true <-> In a (go "<[{(").
Proof.
  unfold is_opener.
  change (go "<[{(") with ["<"%char; "["%char; "{"%char; "("%char]. cbn [In].
  rewrite !orb_true_iff, !Ascii.eqb_eq. tauto.
Qed.

(** A text before a construct in which no opening line can start: it is
    empty or ends a line, and has none of the four openers in it. *)
Definition no_opener (pre : text) : Prop :=
  line_start pre /\ forall o, In o pre -> is_opener o = false.

Lemma pre_skip_openers (cls : ascii -> bool) (k : cont) pre rest0 :
  (forall p u c e, k (Cur p u c) = Some e ->
     exists a o t, u = a ++ o :: t /\ forallb cls a = true /\ is_opener o = true) ->
  cls nl = false -> no_opener pre ->
  forall c w1 w2, pre = w1 ++ w2 -> w2 <> [] ->
    k (Cur (lastp w1 None) (w2 ++ rest0) c) = None.
Proof.
  intros Hk Hn (B & N) c w1 w2 -> W.
  destruct (k (Cur (lastp w1 None) (w2 ++ rest0) c)) as [e|] eqn:E; [|reflexivity].
  exfalso. apply Hk in E. destruct E as (a & o & t & E & A & O).
  unfold line_start in B. rewrite lastp_app in B.
  destruct (lastp_in (lastp w1 None) W) as (x & Hx & Ix).
  rewrite Hx in B. unfold at_bol in B. cbn [prev] in B.
  apply Ascii.eqb_eq in B. subst x.
  symmetry in E. apply app_eq_app in E.
  destruct E as (l & [[-> _]|[-> E]]).
  - rewrite forallb_forall in A. specialize (A nl (in_or_app _ _ _ (or_introl Ix))).
    congruence.
  - destruct l as [|y l].
    + rewrite app_nil_r in Ix. rewrite forallb_forall in A.
      specialize (A nl Ix). congruence.
    + injection E as -> _. rewrite N in O; [discriminate|].
      apply in_or_app. right. apply in_or_app. right. now left.
Qed.

(** The line that opens a construct, as [findConfigStRex] reads it. *)
Lemma St_opener_sound (R : regex) p u c e :
  run (Bol >> Cap 1 (plus word) >> Star sp >> Star (Cap 2 (lit ","))
       >> Star sp >> Cap 3 opener >> R)%re Some (Cur p u c) = Some e ->
  exists a o t, u = a ++ o :: t /\ forallb word_sp_comma a = true /\
                is_opener o = true.
Proof.
  intros H. peel H w0 t0 c0 D0. peel H w1 t1 c1 D1.
  peel H w2 t2 c2 D2. peel H w3 t3 c3 D3. peel H w4 t4 c4 D4.
  peel H w5 t5 c5 D5.
  inv D0. inv D1.
  match goal with E : den (plus word) _ _ _ _ _ |- _ =>
    apply den_plus_chr in E; destruct E as (_ & _ & F1) end.
  apply den_star_chr in D2. destruct D2 as [_ F2].
  apply den_star_cap_chr in D3. destruct D3 as (F3 & _ & _).
  apply den_star_chr in D4. destruct D4 as [_ F4].
  inv D5.
  match goal with E : den opener _ _ _ _ _ |- _ =>
    apply den_opener in E; destruct E as (_ & o & -> & O) end.
  exists (w1 ++ w2 ++ w3 ++ w4), o, t5.
  split; [now rewrite <- !app_assoc|]. split; [|now apply is_opener_In].
  rewrite !forallb_app. rewrite forallb_forall in F1, F2, F3, F4.
  repeat (apply andb_true_intro; split); apply forallb_forall; intros x I;
    unfold word_sp_comma, is_sp, is_comma.
  - now rewrite (F1 x I).
  - rewrite (F2 x I). now rewrite orb_true_r.
  - unfold lit in F3. rewrite (F3 x I). now rewrite orb_true_r.
  - rewrite (F4 x I). now rewrite orb_true_r.
Qed.

Lemma run_opener (k : cont) p op t c :
  In op (go "<[{(") ->
  run opener k (Cur p (op :: t) c) = k (Cur (Some op) t c).
Proof.
  intros I. simpl in I.
  destruct I as [<-|[<-|[<-|[<-|[]]]]]; unfold opener; simpl;
    destruct (k _); reflexivity.
Qed.

Lemma opener_not_word op : In op (go "<[{(") ->
  is_word op = false /\ is_sp op = false /\ is_comma op = false.
Proof.
  intros I. simpl in I. destruct I as [<-|[<-|[<-|[<-|[]]]]]; auto.
Qed.

(** The first byte of what follows the label does not go on with the
    label, nor what follows the blanks with the blanks. *)
Lemma stops_after f (w t : text) (g : ascii -> bool) :
  forallb g w = true -> (forall a, g a = true -> f a = false) ->
  stops f t -> stops f (w ++ t).
Proof.
  intros G H T. destruct w as [|a w]; [exact T|].
  simpl in *. apply andb_prop in G. destruct G as [G _]. now apply H.
Qed.

Lemma sp_not_word a : is_sp a = true -> is_word a = false.
Proof. unfold is_sp. intros E. apply Ascii.eqb_eq in E. now subst a. Qed.

Lemma comma_not_word a : is_comma a = true -> is_word a = false.
Proof. unfold is_comma. intros E. apply Ascii.eqb_eq in E. now subst a. Qed.

Lemma comma_not_sp a : is_comma a = true -> is_sp a = false.
Proof. unfold is_comma. intros E. apply Ascii.eqb_eq in E. now subst a. Qed.

Lemma sp_not_comma a : is_sp a = true -> is_comma a = false.
Proof. unfold is_sp. intros E. apply Ascii.eqb_eq in E. now subst a. Qed.

(** The opening line of a construct that stands first in a text is what
    [findConfigStRex] matches. *)
Lemma St_found pre label sp1 cm sp2 op sp3 r4 :
  no_opener pre ->
  label <> [] -> forallb is_word label = true ->
  forallb is_sp sp1 = true -> forallb is_comma cm = true ->
  forallb is_sp sp2 = true -> (cm = [] -> sp2 = []) ->
  In op (go "<[{(") -> forallb is_sp sp3 = true ->
  exists s,
    FindStringSubmatch findConfigStRex
      (pre ++ label ++ sp1 ++ cm ++ sp2 ++ op :: sp3 ++ nl :: r4) = Some s /\
    sub s 1 = label /\
    sub s 2 = match cm with [] => [] | _ => go "," end /\
    sub s 3 = [op] /\ sub s 4 = r4.
Proof.
  intros C Nl Fl F1 Fc F2 E2 O F3.
  destruct (opener_not_word O) as (Ow & Os & Oc).
  assert (K : run (prog findConfigStRex) Some
                (Cur None (pre ++ label ++ sp1 ++ cm ++ sp2 ++ op :: sp3 ++ nl :: r4) [])
              = Some (Cur (lastp r4 (Some nl)) []
                        ((4, r4) :: (3, [op])
                           :: rev (map (fun a : ascii => (2, [a])) cm) ++ [(1, label)]))).
  { cbn [prog findConfigStRex]. rewrite run_Cat. apply run_lazy_skip.
    - apply (@pre_skip_openers word_sp_comma); auto.
      intros p u c e'. apply St_opener_sound.
    - rewrite run_Cat, run_Bol by (destruct C as [C _]; exact C).
      rewrite run_Cat. apply run_cap_plus_max; auto.
      { apply stops_after with (g := is_sp); auto using sp_not_word.
        apply stops_after with (g := is_comma); auto using comma_not_word.
        apply stops_after with (g := is_sp); auto using sp_not_word. }
      rewrite run_Cat. apply run_star_max; auto.
      { destruct cm as [|b cm].
        - rewrite (E2 eq_refl). exact Os.
        - simpl in Fc. apply andb_prop in Fc. destruct Fc as [Fc _].
          now apply comma_not_sp. }
      rewrite run_Cat. apply run_star_cap_max; auto.
      { apply stops_after with (g := is_sp); auto using sp_not_comma. }
      rewrite run_Cat. apply run_star_max; [exact F2|exact Os|].
      rewrite run_Cat, run_Cap, (run_opener _ _ _ _ O).
      unfold set_cap. cbn [prev rest caps].
      replace (length (op :: sp3 ++ nl :: r4) - length (sp3 ++ nl :: r4)) with 1
        by (cbn [length]; lia).
      cbn [firstn].
      rewrite run_Cat. apply run_star_max; [exact F3|reflexivity|].
      now rewrite run_Cat, run_lit, run_rest_group. }
  unfold FindStringSubmatch, Re.FindStringSubmatch.
  rewrite (search_first _ _ _ K). eexists. split; [reflexivity|].
  cbn. rewrite !get_cap_commas_other by discriminate.
  rewrite get_cap_commas by exact Fc. cbn. auto.
Qed.

(** No line of [body] after its first is a closer alone. *)
Definition no_closing_line (body : text) : Prop :=
  forall cl, In cl (go ">]})") -> closing_free cl body.

Lemma closer_not_nl cl : In cl (go ">]})") -> cl <> nl.
Proof. intros I. simpl in I. destruct I as [<-|[<-|[<-|[<-|[]]]]]; discriminate. Qed.

(** How [findConfigEnRex] goes on after the contents. *)
Definition En_end : regex :=
  (lit nl >> Bol >> Cap 2 closer >> Cap 3 (Cap 4 (lit nl <|> Eol) >> Star any))%re.

Lemma En_end_sound p u c e :
  run En_end Some (Cur p u c) = Some e ->
  exists cl t, u = nl :: cl :: t /\ In cl (go ">]})") /\ line_end t.
Proof.
  unfold En_end. intros H.
  peel H w0 t0 c0 D0. peel H w1 t1 c1 D1. peel H w2 t2 c2 D2.
  apply run_closer_rest_inv in H. destruct H as (T & _).
  apply den_lit in D0. destruct D0 as [-> ->].
  inv D1. inv D2.
  match goal with E0 : den closer _ _ _ _ _ |- _ =>
    apply den_closer in E0; destruct E0 as (-> & o & -> & O) end.
  exists o, t2. auto.
Qed.

Lemma En_end_here p cl r c :
  In cl (go ">]})") -> line_end r ->
  exists e w, run En_end Some (Cur p (nl :: cl :: r) c) = Some e /\
              caps e = (3, r) :: (4, w) :: (2, [cl]) :: c.
Proof.
  intros O T. unfold En_end.
  rewrite run_Cat, run_lit, run_Cat, run_Bol by reflexivity.
  rewrite run_Cat, run_Cap, (run_closer _ _ _ _ O).
  unfold set_cap. cbn [prev rest caps].
  replace (length (cl :: r) - length r) with 1 by (cbn [length]; lia).
  cbn [firstn]. rewrite run_closer_rest.
  destruct r as [|a r].
  - eexists _, _. split; reflexivity.
  - simpl in T. subst a. rewrite Ascii.eqb_refl.
    eexists _, _. split; reflexivity.
Qed.

(** The contents of a construct and its closing line are what
    [findConfigEnRex] matches in the text after the opening line. *)
Lemma En_found body cl r :
  no_closing_line body -> In cl (go ">]})") -> line_end r ->
  exists e,
    FindStringSubmatch findConfigEnRex (body ++ nl :: cl :: r) = Some e /\
    sub e 1 = body /\ sub e 2 = [cl] /\ sub e 3 = r.
Proof.
  intros F O T.
  destruct (@En_end_here (lastp body None) cl r [(1, body)] O T) as (e & w & He & Hc).
  assert (K : run (prog findConfigEnRex) Some (Cur None (body ++ nl :: cl :: r) [])
              = Some e).
  { cbn [prog findConfigEnRex].
    change (lit nl >> Bol >> Cap 2 closer >> Cap 3 (Cap 4 (lit nl <|> Eol) >> Star any))%re
      with En_end.
    rewrite run_Cat. apply run_cap_lazy_skip; [|exact He].
    intros w1 w2 -> W.
    destruct (run En_end Some (Cur (lastp w1 None) (w2 ++ nl :: cl :: r) [(1, w1)]))
      as [e'|] eqn:E; [|reflexivity].
    exfalso. apply En_end_sound in E. destruct E as (cl' & t & E & O' & T').
    destruct w2 as [|x w2]; [congruence|]. injection E as -> E.
    destruct w2 as [|y w2].
    - injection E as E _. apply (closer_not_nl O'). congruence.
    - injection E as -> E. specialize (F cl' O' w1 w2 eq_refl).
      destruct w2 as [|z w2]; [exact F|]. subst t. simpl in T'. congruence. }
  unfold FindStringSubmatch, Re.FindStringSubmatch.
  rewrite (search_first _ _ _ K). eexists. split; [reflexivity|].
  cbn. rewrite Hc. cbn. auto.
Qed.

Lemma no_closing_line_lines body :
  Forall (fun l => forall cl, In cl (go ">]})") -> l <> [cl]) (tl (lines body)) ->
  no_closing_line body.
Proof.
  intros F cl O. apply closing_free_lines; [now apply closer_not_nl|].
  eapply Forall_impl; [|exact F]. intros l H. now apply H.
Qed.

Lemma tabbed_no_closing_line body :
  forallb tabbed (lines body) = true -> no_closing_line body.
Proof.
  intros F. apply no_closing_line_lines. apply Forall_forall.
  intros l I cl O ->. rewrite forallb_forall in F.
  assert (J : In [cl] (lines body)).
  { destruct (lines body); [destruct I|]. now right. }
  specialize (F _ J). cbn in F. apply Ascii.eqb_eq in F.
  simpl in O. destruct O as [<-|[<-|[<-|[<-|[]]]]]; discriminate.
Qed.

(** The construct that stands first in a text is the one the round on
    that text finds. *)
Lemma construct_found pre label sp1 cm sp2 op cl sp3 body r :
  no_opener pre ->
  label <> [] -> forallb is_word label = true ->
  forallb is_sp sp1 = true -> forallb is_comma cm = true ->
  forallb is_sp sp2 = true -> (cm = [] -> sp2 = []) ->
  In (op, cl) [("<", ">"); ("[", "]"); ("{", "}"); ("(", ")")]%char ->
  (op <> "{"%char -> cm = []) ->
  forallb is_sp sp3 = true -> no_closing_line body -> line_end r ->
  exists s e,
    construct (pre ++ label ++ sp1 ++ cm ++ sp2 ++ op :: sp3 ++ nl :: body
                 ++ nl :: cl :: r) s e /\
    sub s 1 = label /\
    sub s 2 = match cm with [] => [] | _ => go "," end /\
    sub s 3 = [op] /\ sub e 1 = body /\ sub e 3 = r.
Proof.
  intros C Nl Fl F1 Fc F2 E2 M Cm F3 Fb T.
  assert (O : In op (go "<[{(") /\ In cl (go ">]})")).
  { simpl in M. destruct M as [M|[M|[M|[M|[]]]]]; inversion M; subst;
      split; simpl; auto. }
  destruct O as [O O'].
  destruct (@St_found pre label sp1 cm sp2 op sp3 (body ++ nl :: cl :: r)
              C Nl Fl F1 Fc F2 E2 O F3) as (s & Hs & S1 & S2 & S3 & S4).
  destruct (@En_found body cl r Fb O' T) as (e & He & E1 & E2' & E3).
  exists s, e. split; [|auto 6].
  apply construct_make.
  - destruct pre; [destruct label; [congruence|discriminate]|discriminate].
  - exact Hs.
  - now rewrite S4.
  - rewrite E2', S3.
    simpl in M. destruct M as [M|[M|[M|[M|[]]]]]; inversion M; subst; reflexivity.
  - rewrite S3, S2.
    destruct (Ascii.eqb_spec op "{").
    + subst op. reflexivity.
    + rewrite (Cm n).
      simpl in M. destruct M as [M|[M|[M|[M|[]]]]]; inversion M; subst;
        reflexivity.
Qed.

(** The opening line and the closing line of a construct that stands
    first in a text, whatever the closer is. *)
Lemma lines_found pre label sp1 cm sp2 op cl sp3 body r :
  no_opener pre ->
  label <> [] -> forallb is_word label = true ->
  forallb is_sp sp1 = true -> forallb is_comma cm = true ->
  forallb is_sp sp2 = true -> (cm = [] -> sp2 = []) ->
  In op (go "<[{(") -> In cl (go ">]})") ->
  forallb is_sp sp3 = true -> no_closing_line body -> line_end r ->
  exists s e,
    FindStringSubmatch findConfigStRex
      (pre ++ label ++ sp1 ++ cm ++ sp2 ++ op :: sp3 ++ nl :: body
           ++ nl :: cl :: r) = Some s /\
    FindStringSubmatch findConfigEnRex (sub s 4) = Some e /\
    sub s 1 = label /\
    sub s 2 = match cm with [] => [] | _ => go "," end /\
    sub s 3 = [op] /\ sub e 1 = body /\ sub e 2 = [cl] /\ sub e 3 = r.
Proof.
  intros C Nl Fl F1 Fc F2 E2 O O' F3 Fb T.
  destruct (@St_found pre label sp1 cm sp2 op sp3 (body ++ nl :: cl :: r)
              C Nl Fl F1 Fc F2 E2 O F3) as (s & Hs & S1 & S2 & S3 & S4).
  destruct (@En_found body cl r Fb O' T) as (e & He & E1 & E2' & E3).
  exists s, e. rewrite S4. auto 10.
Qed.

(** A construct on lines of its own: the opening line with the opener
    [op], blanks allowed after it, the contents, and the closer [cl] on
    the line after them. *)
Definition written (pre label mid : text) (op : ascii) (sp3 body : text)
    (cl : ascii) (r : text) : text :=
  pre ++ label ++ mid ++ op :: sp3 ++ nl :: body ++ nl :: cl :: r.

(** No line of the contents after the first is a closer alone. *)
Definition closer_free (body : text) : Prop :=
  Forall (fun l => forall cl, In cl (go ">]})") -> l <> [cl]) (tl (lines body)).

(** The closer that goes with an opener. *)
Definition closer_of (op : ascii) : ascii :=
  if (op =? "<")%char then ">"%char
  else if (op =? "[")%char then "]"%char
  else if (op =? "{")%char then "}"%char
  else ")"%char.

Section WithHelpers.

Variable L : text -> list text.
Variable S' : text -> text -> list text.

(** ** What every trace is made of *)

(** By induction on the calls: a property of events that holds of the
    calls for values, of the diagnostics and of the calls for the three
    flat constructs, and that goes from the call for a container to the
    call that made it, holds of every event of a trace. *)
Lemma scan_trace_ind (Q : text -> event -> Prop) :
  (forall lp l v, value_pair (l, v) ->
     Q lp (Call ConfigValue (join_path lp l) [v])) ->
  (forall lp d, Q lp (DbgError d)) ->
  (forall lp label body, label <> [] -> forallb is_word label = true ->
     Q lp (Call ConfigBlock (join_path lp label) [body]) /\
     Q lp (Call ConfigLines (join_path lp label) (L body)) /\
     forall sep, Q lp (Call ConfigItems (join_path lp label) (S' body sep))) ->
  (forall lp label ev, label <> [] -> forallb is_word label = true ->
     Q (join_path lp label) ev -> Q lp ev) ->
  forall n lp str tr err, length str < n ->
    scan L S' lp str = Some (tr, err) -> Forall (Q lp) tr.
Proof.
  intros Hval Hdbg Hflat Hup.
  induction n as [|n IH]; intros lp str tr err Hn H; [lia|].
  rewrite scan_unfold in H. unfold handleConfigData_body in H.
  destruct str as [|a str]; [inversion H; constructor|].
  destruct (HandleConfigValues (a :: str)) as [vs|] eqn:Hv; [|discriminate].
  cbv zeta in H.
  assert (V : Forall (Q lp) (value_calls lp vs)).
  { assert (P : Forall value_pair vs).
    { unfold HandleConfigValues in Hv.
      destruct (each_match findConfigValueRex 3 _ (a :: str)) as [xs|] eqn:E;
        [|discriminate].
      inversion Hv. now apply (each_value_pair _ _ E). }
    clear Hv. rename P into Hv. unfold value_calls.
    apply Forall_forall. intros ev I. apply in_map_iff in I.
    destruct I as ([l v] & <- & I). rewrite Forall_forall in Hv.
    apply Hval. now apply Hv. }
  destruct (FindStringSubmatch findConfigStRex (a :: str)) as [s|] eqn:Es.
  - pose proof (St_shrinks _ Es) as [Ls _].
    apply St_sound in Es.
    destruct Es as (pre & label & sp1 & cm & sp2 & op & sp3 & r4 & _ & _ & Nl & Fl
                      & _ & _ & _ & _ & _ & S1 & _ & _ & _).
    destruct (FindStringSubmatch findConfigEnRex (sub s 4)) as [e|] eqn:Ee.
    + apply En_shrinks in Ee.
      destruct (negb (text_eqb (sub e 2) (matching (sub s 3)))).
      { inversion H. apply Forall_app. split; [exact V|]. constructor; auto. }
      destruct (negb (text_eqb (go "{") (sub s 3)) && negb (text_eqb [] (sub s 2))).
      { inversion H. apply Forall_app. split; [exact V|]. constructor; auto. }
      assert (D : forall dtr derr,
                 dispatch L S' (scan L S') lp s e = Some (dtr, derr) ->
                 Forall (Q lp) dtr).
      { intros dtr derr. unfold dispatch. cbv zeta. rewrite S1.
        destruct (Hflat lp label (sub e 1) Nl Fl) as (Qb & Ql & Qi).
        destruct (text_eqb (sub s 3) (go "(")).
        - destruct (removeLeadingTabs (sub e 1 ++ [nl])) as [[st [rerr|]]|] eqn:R;
            try discriminate.
          + intros X. inversion X. constructor.
          + intros X. apply removeLeadingTabs_length in R.
            apply IH in X; [|simpl in *; lia].
            eapply Forall_impl; [|exact X]. intros ev. now apply Hup.
        - destruct (text_eqb (sub s 3) (go "<")).
          { intros X. inversion X. constructor; auto. }
          destruct (text_eqb (sub s 3) (go "[")).
          { intros X. inversion X. constructor; auto. }
          intros X. inversion X. constructor; auto. }
      destruct (dispatch L S' (scan L S') lp s e) as [[dtr [derr|]]|] eqn:Hd;
        [| |discriminate].
      * inversion H. apply Forall_app. split; [exact V|]. now apply (D dtr (Some derr)).
      * destruct (scan L S' lp (sub e 3)) as [[tr' err']|] eqn:Hr; [|discriminate].
        inversion H. apply Forall_app. split; [exact V|].
        apply Forall_app. split; [now apply (D dtr None)|].
        apply (IH lp (sub e 3) tr' err'); [simpl in *; lia|exact Hr].
    + inversion H. apply Forall_app. split; [exact V|]. constructor; auto.
  - destruct (scan L S' lp []) as [[tr' err']|] eqn:Hr; [|discriminate].
    rewrite scan_unfold in Hr. inversion Hr; subst. inversion H.
    now rewrite app_nil_r.
Qed.

End WithHelpers.

End DataFacts.

Module Data.

Import ReFacts Shapes Loops Forward Scan Nesting Paths ValueFacts DataFacts.

Section WithHelpers.

Variable L : text -> list text.
Variable S' : text -> text -> list text.

(** X10: handleConfigData on a text whose first construct is a block, a list
    of lines or a list of items, written after a part that is empty or
    ends a line and has no opener in it: after the values of the whole
    text, the callback gets the construct under the path of the call,
    with the contents less their last newline (as they are for a block,
    through ListToStringSlice for lines, through SepListToStringSlice
    with a comma or a blank for items), and the scan goes on with what
    follows the closing line.  Blanks may follow the opener. *)
Theorem handleConfigData_delivers lp pre label sp1 sp3 body r :
  no_opener pre ->
  label <> [] -> forallb is_word label = true ->
  forallb is_sp sp1 = true -> forallb is_sp sp3 = true ->
  closer_free body -> line_end r ->
  (exists vs,
      HandleConfigValues (written pre label sp1 "<" sp3 body ">" r) = Some vs /\
      scan L S' lp (written pre label sp1 "<" sp3 body ">" r) =
        after (value_calls lp vs ++ [Call ConfigBlock (join_path lp label) [body]])
              (scan L S' lp r)) /\
  (exists vs,
      HandleConfigValues (written pre label sp1 "[" sp3 body "]" r) = Some vs /\
      scan L S' lp (written pre label sp1 "[" sp3 body "]" r) =
        after (value_calls lp vs ++ [Call ConfigLines (join_path lp label) (L body)])
              (scan L S' lp r)) /\
  (forall cm sp2,
      forallb is_comma cm = true -> forallb is_sp sp2 = true ->
      (cm = [] -> sp2 = []) ->
      exists vs,
        HandleConfigValues
          (written pre label (sp1 ++ cm ++ sp2) "{" sp3 body "}" r) = Some vs /\
        scan L S' lp (written pre label (sp1 ++ cm ++ sp2) "{" sp3 body "}" r) =
          after (value_calls lp vs
                   ++ [Call ConfigItems (join_path lp label)
                         (S' body (match cm with [] => go " " | _ => go "," end))])
                (scan L S' lp r)).
Proof.
  intros C Nl Fl F1 F3 Fb T.
  apply no_closing_line_lines in Fb.
  assert (G : forall cm sp2 op cl,
             forallb is_comma cm = true -> forallb is_sp sp2 = true ->
             (cm = [] -> sp2 = []) ->
             In (op, cl) [("<", ">"); ("[", "]"); ("{", "}")]%char ->
             (op <> "{"%char -> cm = []) ->
             exists vs s e,
               HandleConfigValues
                 (written pre label (sp1 ++ cm ++ sp2) op sp3 body cl r) = Some vs /\
               scan L S' lp (written pre label (sp1 ++ cm ++ sp2) op sp3 body cl r) =
               match dispatch L S' (scan L S') lp s e with
               | None => None
               | Some (tr, Some err) => Some (value_calls lp vs ++ tr, Some err)
               | Some (tr, None) =>
                   after (value_calls lp vs ++ tr) (scan L S' lp (sub e 3))
               end /\
               sub s 1 = label /\
               sub s 2 = match cm with [] => [] | _ => go "," end /\
               sub s 3 = [op] /\ sub e 1 = body /\ sub e 3 = r).
  { intros cm sp2 op cl Fc F2 E2 M Cm.
    destruct (HandleConfigValues_ends
                (written pre label (sp1 ++ cm ++ sp2) op sp3 body cl r)) as (vs & Hv).
    destruct (@construct_found pre label sp1 cm sp2 op cl sp3 body r)
      as (s & e & Hc & H); auto.
    { simpl in *. tauto. }
    exists vs, s, e. split; [exact Hv|]. split; [|exact H].
    apply scan_construct; [exact Hv|].
    unfold written. rewrite <- !app_assoc. exact Hc. }
  split; [|split].
  - destruct (G [] [] "<"%char ">"%char) as (vs & s & e & Hv & Hs & S1 & S2 & S3 & E1 & E3);
      auto; [simpl; auto|].
    rewrite app_nil_r in Hv, Hs. exists vs. split; [exact Hv|].
    rewrite Hs. unfold dispatch. rewrite S1, S3, E1, E3. reflexivity.
  - destruct (G [] [] "["%char "]"%char) as (vs & s & e & Hv & Hs & S1 & S2 & S3 & E1 & E3);
      auto; [simpl; auto|].
    rewrite app_nil_r in Hv, Hs. exists vs. split; [exact Hv|].
    rewrite Hs. unfold dispatch. rewrite S1, S3, E1, E3. reflexivity.
  - intros cm sp2 Fc F2 E2.
    destruct (G cm sp2 "{"%char "}"%char) as (vs & s & e & Hv & Hs & S1 & S2 & S3 & E1 & E3);
      auto; [simpl; auto|congruence|].
    exists vs. split; [exact Hv|].
    rewrite Hs. unfold dispatch. rewrite S1, S2, S3, E1, E3.
    destruct cm; reflexivity.
Qed.

(** X11: handleConfigData on a text whose first construct is a container in
    parentheses, every line of its contents being empty or starting with
    a tab: the contents, each line less its tab, are scanned under the
    path of the call with the label added; when that scan returns nil its
    trace comes after the values of the whole text and the scan goes on
    after the closing line; when it returns an error, what follows the
    closing line is not looked at and the error is returned. *)
Theorem handleConfigData_enters lp pre label sp1 sp3 body r :
  no_opener pre ->
  label <> [] -> forallb is_word label = true ->
  forallb is_sp sp1 = true -> forallb is_sp sp3 = true ->
  forallb tabbed (lines body) = true -> line_end r ->
  exists vs tr err,
    HandleConfigValues (written pre label sp1 "(" sp3 body ")" r) = Some vs /\
    scan L S' (join_path lp label) (unlines (map (@tl ascii) (lines body))) =
      Some (tr, err) /\
    scan L S' lp (written pre label sp1 "(" sp3 body ")" r) =
      match err with
      | None => after (value_calls lp vs ++ tr) (scan L S' lp r)
      | Some _ => Some (value_calls lp vs ++ tr, err)
      end.
Proof.
  intros C Nl Fl F1 F3 Ft T.
  destruct (HandleConfigValues_ends (written pre label sp1 "(" sp3 body ")" r))
    as (vs & Hv).
  destruct (scan_ends L S' (join_path lp label)
              (unlines (map (@tl ascii) (lines body)))) as ([tr err] & Hi).
  destruct (@construct_found pre label sp1 [] [] "(" ")" sp3 body r)
    as (s & e & Hc & S1 & S2 & S3 & E1 & E3); auto.
  { simpl. tauto. }
  { now apply tabbed_no_closing_line. }
  exists vs, tr, err. split; [exact Hv|]. split; [exact Hi|].
  rewrite (@scan_construct L S' lp _ vs s e Hv Hc).
  unfold dispatch. rewrite S1, S3, E1, E3.
  cbn [text_eqb go Ascii.eqb Bool.eqb andb].
  rewrite removeLeadingTabs_lines, Ft, Hi. now destruct err.
Qed.

(** X12: handleConfigData looks for the closing line from the second line
    after the opening line on: when no line after that first one is a
    closer alone, the construct has no end for it, even when that first
    line is the closer.  The diagnostic comes after the values of the
    text, the loop ends and nil is returned. *)
Theorem handleConfigData_missing_end lp pre label sp1 cm sp2 op sp3 r4 :
  no_opener pre ->
  label <> [] -> forallb is_word label = true ->
  forallb is_sp sp1 = true -> forallb is_comma cm = true ->
  forallb is_sp sp2 = true -> (cm = [] -> sp2 = []) ->
  In op (go "<[{(") -> forallb is_sp sp3 = true ->
  closer_free r4 ->
  exists vs,
    HandleConfigValues
      (pre ++ label ++ sp1 ++ cm ++ sp2 ++ op :: sp3 ++ nl :: r4) = Some vs /\
    scan L S' lp (pre ++ label ++ sp1 ++ cm ++ sp2 ++ op :: sp3 ++ nl :: r4) =
      Some (value_calls lp vs ++ [DbgError (MissingEnd label [op])], None).
Proof.
  intros C Nl Fl F1 Fc F2 E2 O F3 Fr.
  destruct (HandleConfigValues_ends
              (pre ++ label ++ sp1 ++ cm ++ sp2 ++ op :: sp3 ++ nl :: r4)) as (vs & Hv).
  exists vs. split; [exact Hv|].
  destruct (@St_found pre label sp1 cm sp2 op sp3 r4 C Nl Fl F1 Fc F2 E2 O F3)
    as (s & Hs & S1 & S2 & S3 & S4).
  apply (@scan_local_error L S' lp _ (MissingEnd label [op]) vs Hv).
  replace (MissingEnd label [op]) with (MissingEnd (sub s 1) (sub s 3))
    by (now rewrite S1, S3).
  apply missing_end; [exact Hs|].
  rewrite S4.
  destruct (FindStringSubmatch findConfigEnRex r4) as [e|] eqn:E; [|reflexivity].
  exfalso. apply En_sound in E.
  destruct E as (sk & e1 & cl & e3 & -> & I & T & _).
  apply no_closing_line_lines in Fr.
  specialize (Fr cl I (sk ++ e1) e3). rewrite <- app_assoc in Fr.
  specialize (Fr eq_refl). destruct e3 as [|a e3]; [exact Fr|]. now apply Fr.
Qed.

(** A call for a value or for a block carries one string, so that the
    callback may read [data[0]] of every such call. *)
Definition one_datum (ev : event) : Prop :=
  match ev with
  | Call ConfigValue _ d | Call ConfigBlock _ d => length d = 1
  | _ => True
  end.

(** X13: handleConfigData never calls the callback for a value or a block
    with a slice that is empty or longer than one: the slice holds the
    value, or the text of the block, and nothing else. *)
Theorem handleConfigData_one_datum lp str tr err :
  scan L S' lp str = Some (tr, err) -> Forall one_datum tr.
Proof.
  intros H.
  apply (@scan_trace_ind L S' (fun _ => one_datum))
    with (n := S (length str)) (lp := lp) (str := str) (err := err);
    [| | | |lia|exact H].
  - intros; reflexivity.
  - intros; exact I.
  - intros. split; [reflexivity|]. split; [exact I|]. intros; exact I.
  - auto.
Qed.

(** A path of labels: one label or more, each of one word byte or more,
    joined by colons. *)
Definition label_path (l : text) : Prop :=
  exists ws, ws <> [] /\
    Forall (fun w : text => w <> [] /\ forallb is_word w = true) ws /\
    l = join (go ":") ws.

Lemma join_path_cons lp label x :
  label <> [] ->
  join_path (join_path lp label) x = join_path lp (label ++ go ":" ++ x).
Proof.
  intros N. destruct lp as [|a lp]; cbn [join_path].
  - destruct label; [congruence|reflexivity].
  - cbn [app join_path]. f_equal. now rewrite <- !app_assoc.
Qed.

(** X14: Every label HandleConfigData passes to the callback is a path of
    labels: it is not empty, it is made of word bytes and colons, and no
    colon starts it, ends it or follows another; so it splits at its
    colons into the labels of the containers and the label of the
    record. *)
Theorem HandleConfigData_label_paths str tr err :
  HandleConfigData L S' str = Some (tr, err) ->
  Forall (fun ev => match ev with
                    | Call _ l _ => label_path l
                    | DbgError _ => True
                    end) tr.
Proof.
  intros H.
  pose (Q := fun (lp : text) (ev : event) =>
               match ev with
               | Call _ l _ =>
                   exists ws, ws <> [] /\
                     Forall (fun w : text => w <> [] /\ forallb is_word w = true) ws /\
                     l = join_path lp (join (go ":") ws)
               | DbgError _ => True
               end).
  assert (One : forall lp t l d, l <> [] -> forallb is_word l = true ->
                  Q lp (Call t (join_path lp l) d)).
  { intros lp t l d N W. exists [l]. split; [discriminate|]. split; [|reflexivity].
    constructor; auto. }
  assert (X : Forall (Q []) tr).
  { apply (@scan_trace_ind L S' Q) with (n := S (length str)) (str := str) (err := err);
      [| | | |lia|exact H].
    - intros lp l v (N & W & _). now apply One.
    - intros; exact I.
    - intros lp label body N W. repeat split; intros; now apply One.
    - intros lp label [t l d|d] N W; [|auto].
      intros (ws & Nw & Fw & ->). exists (label :: ws).
      split; [discriminate|]. split; [constructor; auto|].
      rewrite join_path_cons by exact N.
      destruct ws; [congruence|reflexivity]. }
  eapply Forall_impl; [|exact X]. intros [t l d|d]; [|auto].
  intros (ws & Nw & Fw & ->). now exists ws.
Qed.

(** X15: handleConfigData returns an error from a container in parentheses
    and from nowhere else: on a text with no opening parenthesis in it,
    it returns nil; and since such a text makes no call inside a call, a
    diagnostic, when there is one, is the last thing that happens. *)
Theorem handleConfigData_flat_text lp str :
  ~ In "("%char str ->
  exists tr,
    scan L S' lp str = Some (tr, None) /\
    (tr = records tr \/ exists d, tr = records tr ++ [DbgError d]).
Proof.
  remember (S (length str)) as n eqn:Hn.
  assert (Ln : length str < n) by lia. clear Hn.
  revert str Ln. induction n as [|n IH]; intros str Ln N; [lia|].
  rewrite scan_unfold. unfold handleConfigData_body.
  destruct str as [|a str]; [exists []; auto|].
  destruct (HandleConfigValues_ends (a :: str)) as (vs & ->). cbv zeta.
  assert (V : forall d, records (value_calls lp vs ++ [DbgError d]) = value_calls lp vs).
  { intros d. unfold records. rewrite filter_app. cbn.
    rewrite app_nil_r. apply records_value_calls. }
  destruct (FindStringSubmatch findConfigStRex (a :: str)) as [s|] eqn:Es.
  - pose proof (St_shrinks _ Es) as [Ls _].
    apply St_sound in Es.
    destruct Es as (pre & label & sp1 & cm & sp2 & op & sp3 & r4 & Hstr & _ & _ & _
                      & _ & _ & _ & _ & _ & _ & _ & S3 & S4).
    assert (Nop : op <> "("%char).
    { intros ->. apply N. rewrite Hstr.
      do 5 (apply in_or_app; right). now left. }
    assert (Nr4 : ~ In "("%char r4).
    { intros I. apply N. rewrite Hstr.
      do 5 (apply in_or_app; right). right. apply in_or_app. right. now right. }
    destruct (FindStringSubmatch findConfigEnRex (sub s 4)) as [e|] eqn:Ee.
    + pose proof (En_shrinks _ Ee) as Le.
      apply En_exact in Ee. destruct Ee as (cl & Hu & _).
      destruct (negb (text_eqb (sub e 2) (matching (sub s 3)))).
      { eexists. split; [reflexivity|]. right. eexists. now rewrite V. }
      destruct (negb (text_eqb (go "{") (sub s 3)) && negb (text_eqb [] (sub s 2))).
      { eexists. split; [reflexivity|]. right. eexists. now rewrite V. }
      assert (D : exists ev, is_call ev = true /\
                    dispatch L S' (scan L S') lp s e = Some ([ev], None)).
      { unfold dispatch. cbv zeta. rewrite S3.
        replace (text_eqb [op] (go "(")) with false.
        - destruct (text_eqb [op] (go "<"));
            [eexists; split; [|reflexivity]; reflexivity|].
          destruct (text_eqb [op] (go "["));
            eexists; (split; [|reflexivity]); reflexivity.
        - symmetry. cbn. rewrite andb_true_r. now apply Ascii.eqb_neq. }
      destruct D as (ev & Cev & ->).
      destruct (IH (sub e 3)) as (tr' & -> & Htr).
      * simpl in *. lia.
      * intros I. apply Nr4. rewrite <- S4, Hu.
        apply in_or_app. right. right. now right.
      * eexists. split; [reflexivity|].
        assert (R : forall t, records (value_calls lp vs ++ [ev] ++ t) =
                              value_calls lp vs ++ [ev] ++ records t).
        { intros t. unfold records. rewrite !filter_app. cbn. rewrite Cev.
          fold (records (value_calls lp vs)). now rewrite records_value_calls. }
        destruct Htr as [Htr|(d & Htr)].
        -- left. rewrite R. now rewrite <- Htr.
        -- right. exists d. rewrite R. rewrite Htr at 1.
           now rewrite <- !app_assoc.
    + eexists. split; [reflexivity|]. right. eexists. now rewrite V.
  - rewrite scan_unfold. cbn. eexists. split; [reflexivity|]. left.
    rewrite app_nil_r. symmetry. apply records_value_calls.
Qed.

(** X16: handleConfigData takes the first line after the contents that is a
    closer alone for the end of the construct, whatever closer it is:
    when it is not the one that goes with the opener, the callback gets
    nothing for the construct, the diagnostic names the label, the opener
    and the closer that was found, the text after it is dropped and nil
    is returned.  This comes before the test of the comma. *)
Theorem handleConfigData_invalid_end lp pre label sp1 cm sp2 op cl sp3 body r :
  no_opener pre ->
  label <> [] -> forallb is_word label = true ->
  forallb is_sp sp1 = true -> forallb is_comma cm = true ->
  forallb is_sp sp2 = true -> (cm = [] -> sp2 = []) ->
  In op (go "<[{(") -> In cl (go ">]})") -> cl <> closer_of op ->
  forallb is_sp sp3 = true -> closer_free body -> line_end r ->
  exists vs,
    HandleConfigValues
      (written pre label (sp1 ++ cm ++ sp2) op sp3 body cl r) = Some vs /\
    scan L S' lp (written pre label (sp1 ++ cm ++ sp2) op sp3 body cl r) =
      Some (value_calls lp vs ++ [DbgError (InvalidEnd label [op] [cl])], None).
Proof.
  intros C Nl Fl F1 Fc F2 E2 O O' M F3 Fb T.
  destruct (HandleConfigValues_ends
              (written pre label (sp1 ++ cm ++ sp2) op sp3 body cl r)) as (vs & Hv).
  exists vs. split; [exact Hv|].
  apply no_closing_line_lines in Fb.
  destruct (@lines_found pre label sp1 cm sp2 op cl sp3 body r)
    as (s & e & Hs & He & S1 & S2 & S3 & E1 & E2' & E3); auto.
  apply (@scan_local_error L S' lp _ (InvalidEnd label [op] [cl]) vs Hv).
  replace (InvalidEnd label [op] [cl])
    with (InvalidEnd (sub s 1) (sub s 3) (sub e 2)) by (now rewrite S1, S3, E2').
  apply invalid_end.
  - unfold written. rewrite <- !app_assoc. exact Hs.
  - exact He.
  - rewrite E2', S3. unfold closer_of in M.
    simpl in O, O'.
    destruct O as [<-|[<-|[<-|[<-|[]]]]]; destruct O' as [<-|[<-|[<-|[<-|[]]]]];
      try reflexivity; exfalso; now apply M.
Qed.

(** X17: A comma between the label and the opener is for lists of items
    alone: before [<], [\[] or [(], with the construct closed as it
    should be, handleConfigData reports the comma, the callback gets
    nothing for the construct, the text after it is dropped and nil is
    returned. *)
Theorem handleConfigData_illegal_comma lp pre label sp1 cm sp2 op sp3 body r :
  no_opener pre ->
  label <> [] -> forallb is_word label = true ->
  forallb is_sp sp1 = true -> cm <> [] -> forallb is_comma cm = true ->
  forallb is_sp sp2 = true ->
  In op (go "<[(") ->
  forallb is_sp sp3 = true -> closer_free body -> line_end r ->
  exists vs,
    HandleConfigValues
      (written pre label (sp1 ++ cm ++ sp2) op sp3 body (closer_of op) r) = Some vs /\
    scan L S' lp (written pre label (sp1 ++ cm ++ sp2) op sp3 body (closer_of op) r) =
      Some (value_calls lp vs ++ [DbgError (IllegalComma label [op])], None).
Proof.
  intros C Nl Fl F1 Nc Fc F2 O F3 Fb T.
  destruct (HandleConfigValues_ends
              (written pre label (sp1 ++ cm ++ sp2) op sp3 body (closer_of op) r))
    as (vs & Hv).
  exists vs. split; [exact Hv|].
  apply no_closing_line_lines in Fb.
  assert (O1 : In op (go "<[{(") /\ In (closer_of op) (go ">]})")).
  { simpl in O. destruct O as [<-|[<-|[<-|[]]]]; split; simpl; auto. }
  destruct O1 as [O1 O2].
  destruct (@lines_found pre label sp1 cm sp2 op (closer_of op) sp3 body r)
    as (s & e & Hs & He & S1 & S2 & S3 & E1 & E2' & E3); auto.
  { congruence. }
  apply (@scan_local_error L S' lp _ (IllegalComma label [op]) vs Hv).
  replace (IllegalComma label [op])
    with (IllegalComma (sub s 1) (sub s 3)) by (now rewrite S1, S3).
  apply illegal_comma with (e := e).
  - unfold written. rewrite <- !app_assoc. exact Hs.
  - exact He.
  - rewrite E2', S3. simpl in O. destruct O as [<-|[<-|[<-|[]]]]; reflexivity.
  - rewrite S3. simpl in O. destruct O as [<-|[<-|[<-|[]]]]; reflexivity.
  - rewrite S2. destruct cm; [congruence|reflexivity].
Qed.


End WithHelpers.

(** The hypotheses of the theorems above, on texts that are given. *)
Ltac no_opener_here :=
  split; [reflexivity|];
  let o := fresh in let I := fresh in
  intros o I; vm_compute in I;
  repeat (destruct I as [<-|I]; [reflexivity|]); destruct I.

Ltac closer_free_here :=
  vm_compute; repeat constructor;
  let cl := fresh in let O := fresh in let E := fresh in
  intros cl O E; inversion E; subst; intuition discriminate.

Lemma handleConfigData_delivers_witness :
  exists vs,
    HandleConfigValues
      (written (go "k := 1\n") (go "b") (go " ") "<" (go "  ") (go "x\n\n>y") ">"
               (go "\n")) = Some vs /\
    scan Txt.ListToStringSlice Txt.SepListToStringSlice (go "top")
      (written (go "k := 1\n") (go "b") (go " ") "<" (go "  ") (go "x\n\n>y") ">"
               (go "\n")) =
    after (value_calls (go "top") vs
             ++ [Call ConfigBlock (join_path (go "top") (go "b")) [go "x\n\n>y"]])
          (scan Txt.ListToStringSlice Txt.SepListToStringSlice (go "top") (go "\n")).
Proof.
  refine (proj1 (@handleConfigData_delivers Txt.ListToStringSlice
                   Txt.SepListToStringSlice (go "top") (go "k := 1\n") (go "b")
                   (go " ") (go "  ") (go "x\n\n>y") (go "\n") _ _ _ _ _ _ _)).
  - no_opener_here.
  - discriminate.
  - reflexivity.
  - reflexivity.
  - reflexivity.
  - closer_free_here.
  - reflexivity.
Defined.

Lemma handleConfigData_enters_witness :
  exists vs tr err,
    HandleConfigValues
      (written [] (go "d") [] "(" [] (go "\tx := 1\n\n\ti {\n\t\ta b\n\t}") ")" [])
      = Some vs /\
    scan Txt.ListToStringSlice Txt.SepListToStringSlice (join_path (go "top") (go "d"))
      (unlines (map (@tl ascii) (lines (go "\tx := 1\n\n\ti {\n\t\ta b\n\t}")))) =
      Some (tr, err) /\
    scan Txt.ListToStringSlice Txt.SepListToStringSlice (go "top")
      (written [] (go "d") [] "(" [] (go "\tx := 1\n\n\ti {\n\t\ta b\n\t}") ")" []) =
      match err with
      | None =>
          after (value_calls (go "top") vs ++ tr)
            (scan Txt.ListToStringSlice Txt.SepListToStringSlice (go "top") [])
      | Some _ => Some (value_calls (go "top") vs ++ tr, err)
      end.
Proof.
  refine (@handleConfigData_enters Txt.ListToStringSlice Txt.SepListToStringSlice
            (go "top") [] (go "d") [] [] (go "\tx := 1\n\n\ti {\n\t\ta b\n\t}") []
            _ _ _ _ _ _ _).
  - no_opener_here.
  - discriminate.
  - reflexivity.
  - reflexivity.
  - reflexivity.
  - vm_compute. reflexivity.
  - exact I.
Defined.

Lemma handleConfigData_missing_end_witness :
  exists vs,
    HandleConfigValues
      ([] ++ go "b" ++ go " " ++ [] ++ [] ++ "<"%char :: [] ++ nl :: go ">\nk := 1\n")
      = Some vs /\
    scan Txt.ListToStringSlice Txt.SepListToStringSlice []
      ([] ++ go "b" ++ go " " ++ [] ++ [] ++ "<"%char :: [] ++ nl :: go ">\nk := 1\n") =
      Some (value_calls [] vs ++ [DbgError (MissingEnd (go "b") ["<"%char])], None).
Proof.
  refine (@handleConfigData_missing_end Txt.ListToStringSlice Txt.SepListToStringSlice
            [] [] (go "b") (go " ") [] [] "<" [] (go ">\nk := 1\n")
            _ _ _ _ _ _ _ _ _ _).
  - no_opener_here.
  - discriminate.
  - reflexivity.
  - reflexivity.
  - reflexivity.
  - reflexivity.
  - reflexivity.
  - vm_compute. auto.
  - reflexivity.
  - closer_free_here.
Defined.

Lemma handleConfigData_invalid_end_witness :
  exists vs,
    HandleConfigValues
      (written (go "k := 1\n") (go "b") (go " " ++ go "," ++ []) "<" [] (go "x\n>y")
               "]" (go "\nz := 2\n")) = Some vs /\
    scan Txt.ListToStringSlice Txt.SepListToStringSlice []
      (written (go "k := 1\n") (go "b") (go " " ++ go "," ++ []) "<" [] (go "x\n>y")
               "]" (go "\nz := 2\n")) =
      Some (value_calls [] vs ++ [DbgError (InvalidEnd (go "b") ["<"%char] ["]"%char])],
            None).
Proof.
  refine (@handleConfigData_invalid_end Txt.ListToStringSlice Txt.SepListToStringSlice
            [] (go "k := 1\n") (go "b") (go " ") (go ",") [] "<" "]" [] (go "x\n>y")
            (go "\nz := 2\n") _ _ _ _ _ _ _ _ _ _ _ _ _).
  - no_opener_here.
  - discriminate.
  - reflexivity.
  - reflexivity.
  - reflexivity.
  - reflexivity.
  - discriminate.
  - vm_compute. auto.
  - vm_compute. auto.
  - discriminate.
  - reflexivity.
  - closer_free_here.
  - reflexivity.
Defined.

Lemma handleConfigData_illegal_comma_witness :
  exists vs,
    HandleConfigValues
      (written [] (go "d") (go " " ++ go "," ++ go " ") "(" [] (go "\tx := 1")
               (closer_of "(") []) = Some vs /\
    scan Txt.ListToStringSlice Txt.SepListToStringSlice (go "p")
      (written [] (go "d") (go " " ++ go "," ++ go " ") "(" [] (go "\tx := 1")
               (closer_of "(") []) =
      Some (value_calls (go "p") vs ++ [DbgError (IllegalComma (go "d") ["("%char])],
            None).
Proof.
  refine (@handleConfigData_illegal_comma Txt.ListToStringSlice Txt.SepListToStringSlice
            (go "p") [] (go "d") (go " ") (go ",") (go " ") "(" [] (go "\tx := 1") []
            _ _ _ _ _ _ _ _ _ _ _).
  - no_opener_here.
  - discriminate.
  - reflexivity.
  - reflexivity.
  - discriminate.
  - reflexivity.
  - reflexivity.
  - vm_compute. auto.
  - reflexivity.
  - closer_free_here.
  - exact I.
Defined.

Lemma handleConfigData_one_datum_witness :
  Forall one_datum
    [Call ConfigValue (go "k") [go "1"]; Call ConfigBlock (go "b") [go "x"];
     Call ConfigValue (go "k") [go "1"]; Call ConfigItems (go "i") []].
Proof.
  refine (@handleConfigData_one_datum Txt.ListToStringSlice Txt.SepListToStringSlice
            [] (go "b <\nx\n>\nk := 1\ni {\n\n}\n") _ None _).
  vm_compute. reflexivity.
Defined.

Lemma HandleConfigData_label_paths_witness :
  Forall (fun ev => match ev with
                    | Call _ l _ => label_path l
                    | DbgError _ => True
                    end)
    [Call ConfigValue (go "d:x") [go "1"]; Call ConfigValue (go "d:sub:y") [go "2"]].
Proof.
  refine (@HandleConfigData_label_paths Txt.ListToStringSlice Txt.SepListToStringSlice
            (go "d (\n\tx := 1\n\tsub (\n\t\ty := 2\n\t)\n)\n") _ None _).
  vm_compute. reflexivity.
Defined.

Lemma handleConfigData_flat_text_witness :
  exists tr,
    scan Txt.ListToStringSlice Txt.SepListToStringSlice (go "p")
      (go "a <\nx\n>\nb [\nq\n}\nc {\nz\n}\n") = Some (tr, None) /\
    (tr = records tr \/ exists d, tr = records tr ++ [DbgError d]).
Proof.
  refine (@handleConfigData_flat_text Txt.ListToStringSlice Txt.SepListToStringSlice
            (go "p") (go "a <\nx\n>\nb [\nq\n}\nc {\nz\n}\n") _).
  vm_compute. intuition discriminate.
Defined.

End Data.

(** ** The flat handlers *)

Module FlatFacts.

Import ReFacts Shapes Loops Forward Scan Nesting Paths.

Lemma HandleConfigLines_step (L : text -> list text) str x :
  FindStringSubmatch findConfigLinesRex str = Some x ->
  HandleConfigLines L str =
  option_map (cons (sub x 1, L (sub x 2))) (HandleConfigLines L (sub x 3)).
Proof.
  intros H. unfold HandleConfigLines.
  rewrite (each_match_step str shrinks_lines), H.
  destruct (each_match findConfigLinesRex 3 _ (sub x 3)); reflexivity.
Qed.

(** No line starts with a byte of a label. *)
Definition no_label_line (str : text) : Prop :=
  Forall (fun l => match l with [] => True | a :: _ => is_word a = false end)
         (lines str).

Lemma lines_head a x : (a =? nl)%char = false ->
  exists l ls, lines (a :: x) = (a :: l) :: ls.
Proof.
  intros E. cbn [lines]. rewrite E.
  destruct (lines x) as [|l ls]; eauto.
Qed.

(** In such a text no label stands at the start of a line. *)
Lemma no_label_line_start pre label t :
  no_label_line (pre ++ label ++ t) -> line_start pre ->
  label <> [] -> forallb is_word label = true -> False.
Proof.
  intros N B Nl Fl. destruct label as [|a label]; [congruence|].
  cbn in Fl. apply andb_prop in Fl. destruct Fl as [Wa _].
  destruct (is_word_not_special _ Wa) as [An _].
  destruct (@lines_head a (label ++ t) An) as (l & ls & Hl).
  unfold no_label_line in N.
  apply line_start_split in B. destruct B as [->|(pre' & ->)].
  - cbn [app] in N. rewrite Hl in N. inversion N; subst. congruence.
  - rewrite <- app_assoc in N. cbn [app] in N. rewrite lines_app_nl in N.
    apply Forall_app in N. destruct N as [_ N].
    change ((a :: label) ++ t) with (a :: label ++ t) in N.
    rewrite Hl in N. inversion N; subst. congruence.
Qed.

Lemma no_match_no_calls re rem str :
  FindStringSubmatch re str = None ->
  each_match re rem (S (length str)) str = Some [].
Proof. intros H. cbn [each_match]. now rewrite H. Qed.

End FlatFacts.

Module Flat.

Import ReFacts Shapes Loops Forward Scan Nesting Paths FlatFacts.

Section WithHelpers.

Variable L : text -> list text.
Variable S' : text -> text -> list text.

(** X18: A list of lines stands in a text after a part with no bracket in it
    that is empty or ends a line: a label, blanks, [\[] and a newline, the
    contents, and a closing line [\]].  When no line of the contents
    after the first is [\]] alone, HandleConfigLines passes the label with
    what ListToStringSlice makes of the contents, their last newline left
    out, and goes on with what follows the closing line.  Conversely
    every call it makes is for the text between an opening line and a
    closing line of the input. *)
Theorem HandleConfigLines_found pre label sp1 body r :
  clear_of "[" pre ->
  label <> [] -> forallb is_word label = true -> forallb is_sp sp1 = true ->
  Forall (fun l => l <> go "]") (tl (lines body)) ->
  line_end r ->
  HandleConfigLines L (pre ++ label ++ sp1 ++ go "[\n" ++ body ++ go "\n]" ++ r) =
    option_map (cons (label, L body)) (HandleConfigLines L r) /\
  (forall str calls,
      HandleConfigLines L str = Some calls ->
      Forall (fun c => exists a sp contents b,
                str = a ++ fst c ++ sp ++ go "[\n" ++ contents ++ go "\n]" ++ b /\
                snd c = L contents)
             calls).
Proof.
  intros C Nl Fl Fs Fb T. split.
  - change (pre ++ label ++ sp1 ++ go "[\n" ++ body ++ go "\n]" ++ r)
      with (pre ++ label ++ sp1 ++ "["%char :: nl :: body ++ nl :: "]"%char :: r).
    destruct (@enclosed_found findConfigLinesRex "[" "]" pre label sp1 body r)
      as (x & Hx & H1 & H2 & H3); auto; try discriminate; try reflexivity.
    { apply closing_free_lines; [discriminate|exact Fb]. }
    rewrite (HandleConfigLines_step L _ Hx), H1, H2, H3. reflexivity.
  - assert (G : forall fuel str xs,
              each_match findConfigLinesRex 3 fuel str = Some xs ->
              Forall (fun c : text * list text => exists a sp contents b,
                str = a ++ fst c ++ sp ++ go "[\n" ++ contents ++ go "\n]" ++ b /\
                snd c = L contents)
                (map (fun x => (sub x 1, L (sub x 2))) xs)).
    { induction fuel as [|fuel IH]; intros str xs H; [discriminate|].
      simpl in H. destruct (FindStringSubmatch findConfigLinesRex str) as [x|] eqn:E.
      - destruct (each_match findConfigLinesRex 3 fuel (sub x 3)) as [xs'|] eqn:E';
          [|discriminate].
        inversion H; subst xs; clear H.
        apply Lines_sound in E. destruct E as (sp & _ & pre' & E & _).
        simpl. constructor.
        + exists pre', sp, (sub x 2), (sub x 3). simpl. auto.
        + specialize (IH _ _ E'). eapply Forall_impl; [|exact IH].
          intros y (a & sp' & contents & b & Hy & Hc).
          exists (pre' ++ sub x 1 ++ sp ++ "["%char :: nl :: sub x 2
                       ++ nl :: "]"%char :: a), sp', contents, b.
          split; [|exact Hc].
          rewrite E at 1. rewrite Hy.
          repeat (rewrite <- app_assoc; simpl). reflexivity.
      - inversion H. constructor. }
    intros str calls H. unfold HandleConfigLines in H.
    destruct (each_match findConfigLinesRex 3 (S (length str)) str) as [xs|] eqn:E;
      [|discriminate].
    inversion H; subst calls. exact (G _ _ _ E).
Qed.

(** X19: A text in which no line starts with a word byte (a text of which
    every line starts with a tab, as the contents of a container do, or
    with a blank or a [#]) has nothing for any of the five handlers:
    none calls the callback, and handleConfigData returns nil. *)
Theorem handlers_need_label_at_line_start lp str :
  no_label_line str ->
  HandleConfigValues str = Some [] /\
  HandleConfigBlocks str = Some [] /\
  HandleConfigLines L str = Some [] /\
  HandleConfigItems S' str = Some [] /\
  scan L S' lp str = Some ([], None).
Proof.
  intros N.
  assert (V : FindStringSubmatch findConfigValueRex str = None).
  { destruct (FindStringSubmatch findConfigValueRex str) as [x|] eqn:E; [|reflexivity].
    exfalso. apply Value_sound in E.
    destruct E as (pre & label & sp1 & sp2 & v & sp3 & r & -> & B & Nl & Fl & _).
    exact (@no_label_line_start _ _ _ N B Nl Fl). }
  assert (En : forall o cl label mid body r,
             enclosed o cl str label mid body r -> False).
  { intros o cl label mid body r (pre & -> & B & Nl & Fl & _).
    exact (@no_label_line_start _ _ _ N B Nl Fl). }
  assert (B : FindStringSubmatch findConfigBlockRex str = None).
  { destruct (FindStringSubmatch findConfigBlockRex str) as [x|] eqn:E; [|reflexivity].
    exfalso. apply Block_sound in E. destruct E as (sp1 & _ & E). now apply En in E. }
  assert (Li : FindStringSubmatch findConfigLinesRex str = None).
  { destruct (FindStringSubmatch findConfigLinesRex str) as [x|] eqn:E; [|reflexivity].
    exfalso. apply Lines_sound in E. destruct E as (sp1 & _ & E). now apply En in E. }
  assert (It : FindStringSubmatch findConfigItemsRex str = None).
  { destruct (FindStringSubmatch findConfigItemsRex str) as [x|] eqn:E; [|reflexivity].
    exfalso. apply Items_sound in E.
    destruct E as (sp1 & cm & sp2 & _ & _ & _ & _ & E). now apply En in E. }
  assert (St : FindStringSubmatch findConfigStRex str = None).
  { destruct (FindStringSubmatch findConfigStRex str) as [x|] eqn:E; [|reflexivity].
    exfalso. apply St_sound in E.
    destruct E as (pre & label & sp1 & cm & sp2 & op & sp3 & r4 & -> & B0 & Nl & Fl & _).
    exact (@no_label_line_start _ _ _ N B0 Nl Fl). }
  unfold HandleConfigValues, HandleConfigBlocks, HandleConfigLines, HandleConfigItems.
  rewrite !no_match_no_calls by assumption.
  repeat (split; [reflexivity|]).
  rewrite scan_unfold. unfold handleConfigData_body.
  destruct str as [|a str]; [reflexivity|].
  unfold HandleConfigValues. rewrite no_match_no_calls by assumption.
  cbv zeta. cbn [option_map map]. rewrite St. now rewrite scan_unfold.
Qed.

(** X20: The three flat handlers want the opener to be the last byte of its
    line, where handleConfigData lets blanks follow it: a text in which
    no [<] stands right before a newline has no block for
    HandleConfigBlocks, and so for [\[] and HandleConfigLines and for
    the brace and HandleConfigItems. *)
Theorem flat_handlers_opener_ends_line str :
  ((forall a b, str <> a ++ go "<\n" ++ b) -> HandleConfigBlocks str = Some []) /\
  ((forall a b, str <> a ++ go "[\n" ++ b) -> HandleConfigLines L str = Some []) /\
  ((forall a b, str <> a ++ go "{\n" ++ b) -> HandleConfigItems S' str = Some []).
Proof.
  assert (En : forall o cl label mid body r,
             (forall a b, str <> a ++ o :: nl :: b) ->
             enclosed o cl str label mid body r -> False).
  { intros o cl label mid body r N (pre & E & _).
    apply (N (pre ++ label ++ mid) (body ++ nl :: cl :: r)).
    rewrite E. now rewrite <- !app_assoc. }
  unfold HandleConfigBlocks, HandleConfigLines, HandleConfigItems.
  split; [|split]; intros N; rewrite no_match_no_calls; try reflexivity.
  - destruct (FindStringSubmatch findConfigBlockRex str) as [x|] eqn:E; [|reflexivity].
    exfalso. apply Block_sound in E. destruct E as (sp1 & _ & E).
    now apply En in E.
  - destruct (FindStringSubmatch findConfigLinesRex str) as [x|] eqn:E; [|reflexivity].
    exfalso. apply Lines_sound in E. destruct E as (sp1 & _ & E).
    now apply En in E.
  - destruct (FindStringSubmatch findConfigItemsRex str) as [x|] eqn:E; [|reflexivity].
    exfalso. apply Items_sound in E.
    destruct E as (sp1 & cm & sp2 & _ & _ & _ & _ & E). now apply En in E.
Qed.

End WithHelpers.

Lemma HandleConfigLines_found_witness :
  HandleConfigLines Txt.ListToStringSlice
    (go "# list\n" ++ go "l" ++ go " " ++ go "[\n" ++ go " a b \n# c\n\n]x\nd"
       ++ go "\n]" ++ go "\nrest") =
  option_map (cons (go "l", Txt.ListToStringSlice (go " a b \n# c\n\n]x\nd")))
    (HandleConfigLines Txt.ListToStringSlice (go "\nrest")).
Proof.
  refine (proj1 (@HandleConfigLines_found Txt.ListToStringSlice (go "# list\n") (go "l")
                   (go " ") (go " a b \n# c\n\n]x\nd") (go "\nrest") _ _ _ _ _ _)).
  - split; [reflexivity|]. vm_compute. intuition discriminate.
  - discriminate.
  - reflexivity.
  - reflexivity.
  - vm_compute. repeat constructor; discriminate.
  - reflexivity.
Defined.

Lemma handlers_need_label_at_line_start_witness :
  HandleConfigValues (go "\tk := 1\n\tb <\n\tx\n\t>\n# c\n l [\n\n ]\n") = Some [] /\
  HandleConfigBlocks (go "\tk := 1\n\tb <\n\tx\n\t>\n# c\n l [\n\n ]\n") = Some [] /\
  HandleConfigLines Txt.ListToStringSlice
    (go "\tk := 1\n\tb <\n\tx\n\t>\n# c\n l [\n\n ]\n") = Some [] /\
  HandleConfigItems Txt.SepListToStringSlice
    (go "\tk := 1\n\tb <\n\tx\n\t>\n# c\n l [\n\n ]\n") = Some [] /\
  scan Txt.ListToStringSlice Txt.SepListToStringSlice (go "d")
    (go "\tk := 1\n\tb <\n\tx\n\t>\n# c\n l [\n\n ]\n") = Some ([], None).
Proof.
  refine (@handlers_need_label_at_line_start Txt.ListToStringSlice
            Txt.SepListToStringSlice (go "d")
            (go "\tk := 1\n\tb <\n\tx\n\t>\n# c\n l [\n\n ]\n") _).
  vm_compute. repeat constructor.
Defined.

Lemma flat_handlers_opener_ends_line_witness :
  HandleConfigBlocks (go "b < \nx\n>\n") = Some [].
Proof.
  refine (proj1 (@flat_handlers_opener_ends_line Txt.ListToStringSlice
                   Txt.SepListToStringSlice (go "b < \nx\n>\n")) _).
  intros a b E. vm_compute in E.
  repeat (destruct a as [|? a]; [discriminate|injection E as _ E]).
  destruct a; discriminate.
Defined.

End Flat.

(** ** Texts that are written and read back *)

Module DocFacts.

Import ReFacts Shapes Loops Forward Scan Nesting Paths ValueFacts DataFacts Values.

(** A text with no colon in it has no value line. *)
Lemma no_colon_no_values str :
  ~ In ":"%char str -> HandleConfigValues str = Some [].
Proof.
  intros N. unfold HandleConfigValues. cbn [each_match].
  destruct (FindStringSubmatch findConfigValueRex str) as [x|] eqn:E; [|reflexivity].
  exfalso. apply N. apply Value_sound in E.
  destruct E as (pre & label & sp1 & sp2 & v & sp3 & r & -> & _).
  do 3 (apply in_or_app; right). now left.
Qed.

(** A text with no opener in it has no construct. *)
Lemma no_opener_no_construct str :
  (forall o, In o str -> is_opener o = false) ->
  FindStringSubmatch findConfigStRex str = None.
Proof.
  intros N. destruct (FindStringSubmatch findConfigStRex str) as [s|] eqn:E;
    [|reflexivity].
  exfalso. apply St_sound in E.
  destruct E as (pre & label & sp1 & cm & sp2 & op & sp3 & r4 & -> & _ & _ & _ & _
                   & _ & _ & _ & O & _).
  apply is_opener_In in O. rewrite N in O; [discriminate|].
  do 5 (apply in_or_app; right). now left.
Qed.

Section WithHelpers.

Variable L : text -> list text.
Variable S' : text -> text -> list text.

(** What the callback gets for a block, a list of lines or a list of
    items with no comma. *)
Definition flat_record (lp : text) (c : ascii * text * text) : event :=
  let '(op, label, body) := c in
  if (op =? "<")%char then Call ConfigBlock (join_path lp label) [body]
  else if (op =? "[")%char then Call ConfigLines (join_path lp label) (L body)
  else Call ConfigItems (join_path lp label) (S' body (go " ")).

Lemma scan_no_construct lp str vs :
  HandleConfigValues str = Some vs ->
  FindStringSubmatch findConfigStRex str = None ->
  scan L S' lp str = Some (value_calls lp vs, None).
Proof.
  intros Hv Hs. rewrite scan_unfold. unfold handleConfigData_body.
  destruct str as [|a str].
  - vm_compute in Hv. inversion Hv. reflexivity.
  - rewrite Hv, Hs. cbv zeta. rewrite scan_unfold. cbn. now rewrite app_nil_r.
Qed.

(** The round on a text whose first construct is flat and has no comma. *)
Lemma scan_flat lp pre op label body r vs :
  no_opener pre ->
  In op (go "<[{") ->
  label <> [] -> forallb is_word label = true ->
  closer_free body -> line_end r ->
  HandleConfigValues
    (pre ++ label ++ go " " ++ op :: nl :: body ++ nl :: closer_of op :: r) = Some vs ->
  scan L S' lp (pre ++ label ++ go " " ++ op :: nl :: body ++ nl :: closer_of op :: r) =
  after (value_calls lp vs ++ [flat_record lp (op, label, body)]) (scan L S' lp r).
Proof.
  intros C O Nl Fl Fb T Hv.
  apply no_closing_line_lines in Fb.
  destruct (@construct_found pre label (go " ") [] [] op (closer_of op) [] body r)
    as (s & e & Hc & S1 & S2 & S3 & E1 & E3); auto.
  { simpl in O. destruct O as [<-|[<-|[<-|[]]]]; simpl; auto. }
  { cbn [app] in *. rewrite (@scan_construct L S' lp _ vs s e Hv Hc).
    unfold dispatch. rewrite S1, S2, S3, E1, E3.
    simpl in O. destruct O as [<-|[<-|[<-|[]]]]; reflexivity. }
Qed.

(** A flat construct as it is written: the label, a blank, the opener,
    the contents on lines of their own, and the closer on its line. *)
Definition construct_text (c : ascii * text * text) : text :=
  let '(op, label, body) := c in
  label ++ go " " ++ op :: nl :: body ++ nl :: closer_of op :: [nl].

(** What may be written so: the opener is not the parenthesis, the label
    is a word, no line of the contents after the first is a closer
    alone, and the contents have no colon, so that no line of them is a
    value line. *)
Definition flat_construct (c : ascii * text * text) : Prop :=
  let '(op, label, body) := c in
  In op (go "<[{") /\ label <> [] /\ forallb is_word label = true /\
  closer_free body /\ ~ In ":"%char body.

Lemma word_no_colon label : forallb is_word label = true -> ~ In ":"%char label.
Proof.
  intros F I. rewrite forallb_forall in F. specialize (F _ I). discriminate.
Qed.

Lemma constructs_no_colon cs :
  Forall flat_construct cs -> ~ In ":"%char (concat (map construct_text cs)).
Proof.
  induction 1 as [|[[op label] body] cs (O & Nl & Fl & Fb & Nc) _ IH]; [auto|].
  cbn [map concat]. unfold construct_text at 1.
  intros I. apply in_app_or in I. destruct I as [I|I]; [|auto].
  apply in_app_or in I. destruct I as [I|I]; [now apply word_no_colon in I|].
  cbn [go app] in I. destruct I as [I|[I|[I|I]]]; try discriminate.
  - simpl in O. destruct O as [<-|[<-|[<-|[]]]]; discriminate.
  - apply in_app_or in I. destruct I as [I|I]; [auto|].
    destruct I as [I|[I|[I|[]]]]; try discriminate.
    simpl in O. destruct O as [<-|[<-|[<-|[]]]]; discriminate.
Qed.

Lemma scan_constructs lp cs :
  Forall flat_construct cs ->
  scan L S' lp (nl :: concat (map construct_text cs)) =
  Some (map (flat_record lp) cs, None).
Proof.
  induction 1 as [|[[op label] body] cs W F IH].
  - reflexivity.
  - pose proof (constructs_no_colon (Forall_cons _ W F)) as Nc.
    destruct W as (O & Nl & Fl & Fb & _).
    cbn [map concat] in *. unfold construct_text at 1 in Nc. unfold construct_text at 1.
    assert (Hv : HandleConfigValues
                   ([nl] ++ label ++ go " " ++ op :: nl :: body ++ nl :: closer_of op
                      :: nl :: concat (map construct_text cs)) = Some []).
    { apply no_colon_no_values. intros [I|I]; [discriminate|]. apply Nc.
      rewrite <- !app_assoc. cbn [app]. rewrite <- app_assoc. exact I. }
    replace (nl :: (label ++ go " " ++ op :: nl :: body ++ nl :: closer_of op :: [nl])
                ++ concat (map construct_text cs))
      with ([nl] ++ label ++ go " " ++ op :: nl :: body ++ nl :: closer_of op
              :: nl :: concat (map construct_text cs))
      by (cbn [app]; rewrite <- !app_assoc; cbn [app]; now rewrite <- app_assoc).
    rewrite (@scan_flat lp [nl] op label body _ [] ); auto.
    + rewrite IH. reflexivity.
    + split; [reflexivity|]. intros o [<-|[]]. reflexivity.
    + reflexivity.
Qed.

End WithHelpers.

(** Value lines at the head of a text are read first, in order. *)
Lemma values_then pairs : forall r,
  Forall value_pair pairs ->
  HandleConfigValues (concat (map value_line pairs) ++ r) =
  option_map (app pairs) (HandleConfigValues r).
Proof.
  induction pairs as [|[l v] pairs IH]; intros r F.
  - cbn. now destruct (HandleConfigValues r).
  - inversion F as [|? ? (Nl & Fl & T) F']; subst. cbn [fst snd] in *.
    cbn [map concat]. unfold value_line at 1. cbn [fst snd].
    destruct (@value_found [] l (go " ") (go " ") v []
                (concat (map value_line pairs) ++ r))
      as (x & Hx & X1 & X2 & X3); auto.
    { split; [reflexivity|auto]. }
    replace (((l ++ go " := " ++ v ++ [nl]) ++ concat (map value_line pairs)) ++ r)
      with ([] ++ l ++ go " " ++ go ":=" ++ go " " ++ v ++ [] ++ nl
               :: concat (map value_line pairs) ++ r).
    + rewrite (HandleConfigValues_step _ Hx), X1, X2, X3, IH by exact F'.
      now destruct (HandleConfigValues r).
    + change (go " := ") with (go " " ++ go ":=" ++ go " ").
      repeat rewrite <- app_assoc. reflexivity.
Qed.

Lemma value_lines_start pairs : line_start (concat (map value_line pairs)).
Proof.
  induction pairs as [|[l v] pairs IH] using rev_ind; [reflexivity|].
  rewrite map_app, concat_app. cbn [map concat]. rewrite app_nil_r.
  unfold value_line, line_start. cbn [fst snd].
  rewrite !lastp_app. reflexivity.
Qed.

Lemma word_no_opener label a :
  forallb is_word label = true -> In a label -> is_opener a = false.
Proof.
  intros F I. rewrite forallb_forall in F. specialize (F _ I).
  destruct (is_opener a) eqn:E; [|reflexivity].
  apply is_opener_In in E. simpl in E.
  destruct E as [<-|[<-|[<-|[<-|[]]]]]; discriminate.
Qed.

(** A value with no opener in it. *)
Definition plain_value (lv : text * text) : Prop :=
  value_pair lv /\ forall a, In a (snd lv) -> is_opener a = false.

Lemma value_lines_no_opener pairs :
  Forall plain_value pairs ->
  forall o, In o (concat (map value_line pairs)) -> is_opener o = false.
Proof.
  induction 1 as [|[l v] pairs ((Nl & Fl & T) & Nv) _ IH]; [intros o []|].
  cbn [fst snd] in *. cbn [map concat]. unfold value_line at 1. cbn [fst snd].
  intros o I. apply in_app_or in I. destruct I as [I|I]; [|auto].
  apply in_app_or in I. destruct I as [I|I]; [now apply (word_no_opener l)|].
  apply in_app_or in I. destruct I as [I|I].
  - vm_compute in I. repeat (destruct I as [<-|I]; [reflexivity|]). destruct I.
  - apply in_app_or in I. destruct I as [I|[<-|[]]]; [auto|reflexivity].
Qed.

End DocFacts.

Module Doc.

Import ReFacts Shapes Loops Forward Scan Nesting Paths ValueFacts DataFacts Values.
Import DocFacts.

Section WithHelpers.

Variable L : text -> list text.
Variable S' : text -> text -> list text.

(** X21: Round trip: a text written as value lines with no opener in them
    and, after them, blocks, lists of lines and lists of items with no
    colon in them, each on lines of its own, is read by handleConfigData
    as it was written: the callback gets every value once and then every
    construct, in the order of the text and under the path of the call,
    and nil is returned. *)
Theorem handleConfigData_round_trip lp pairs cs :
  Forall plain_value pairs -> Forall flat_construct cs ->
  scan L S' lp (concat (map value_line pairs) ++ concat (map construct_text cs)) =
  Some (value_calls lp pairs ++ map (flat_record L S' lp) cs, None).
Proof.
  intros Fp Fc.
  assert (Fv : Forall value_pair pairs).
  { eapply Forall_impl; [|exact Fp]. now intros lv [H _]. }
  assert (Hv : HandleConfigValues
                 (concat (map value_line pairs) ++ concat (map construct_text cs)) =
               Some pairs).
  { rewrite values_then by exact Fv.
    rewrite no_colon_no_values by now apply constructs_no_colon.
    cbn. now rewrite app_nil_r. }
  destruct cs as [|[[op label] body] cs].
  - cbn [map concat] in *. rewrite app_nil_r in *.
    rewrite (@scan_no_construct L S' lp _ pairs Hv).
    + now rewrite app_nil_r.
    + apply no_opener_no_construct. now apply value_lines_no_opener.
  - inversion Fc as [|? ? W Fc']; subst.
    unfold flat_construct in W. destruct W as (O & Nl & Fl & Fb & Nc).
    cbn [map concat] in *. unfold construct_text at 1 in Hv.
    unfold construct_text at 1.
    replace ((label ++ go " " ++ op :: nl :: body ++ nl :: closer_of op :: [nl])
               ++ concat (map construct_text cs))
      with (label ++ go " " ++ op :: nl :: body ++ nl :: closer_of op
              :: nl :: concat (map construct_text cs)) in *
      by (rewrite <- !app_assoc; cbn [app]; now rewrite <- app_assoc).
    rewrite (@scan_flat L S' lp _ op label body _ pairs); auto.
    + rewrite scan_constructs by exact Fc'. cbn [after map].
      now rewrite <- app_assoc.
    + split; [apply value_lines_start|now apply value_lines_no_opener].
    + reflexivity.
Qed.

End WithHelpers.

Ltac flat_construct_here :=
  split; [vm_compute; tauto|];
  split; [discriminate|];
  split; [reflexivity|];
  split; [|vm_compute; intuition discriminate];
  vm_compute; repeat constructor;
  let cl := fresh in let O := fresh in let E := fresh in
  intros cl O E; inversion E; subst; intuition discriminate.

Lemma handleConfigData_round_trip_witness :
  scan Txt.ListToStringSlice Txt.SepListToStringSlice (go "p")
    (concat (map value_line [(go "k", go "v 1"); (go "e", [])])
       ++ concat (map construct_text
                    [("<"%char, go "b", go " x\n\n# y"); ("{"%char, go "i", go "a b\nc");
                     ("["%char, go "l", [])])) =
  Some (value_calls (go "p") [(go "k", go "v 1"); (go "e", [])]
          ++ map (flat_record Txt.ListToStringSlice Txt.SepListToStringSlice (go "p"))
               [("<"%char, go "b", go " x\n\n# y"); ("{"%char, go "i", go "a b\nc");
                ("["%char, go "l", [])], None).
Proof.
  apply handleConfigData_round_trip.
  - repeat constructor; try discriminate; cbn [snd];
      try (vm_compute; intuition discriminate);
      try (intros v' E; apply (f_equal (@rev ascii)) in E;
           rewrite ?rev_app_distr in E; discriminate);
      try (intros a I; vm_compute in I;
           repeat (destruct I as [<-|I]; [reflexivity|]); destruct I).
  - repeat (apply Forall_cons; [flat_construct_here|]). constructor.
Defined.

End Doc.

(** * The tests of the repository

    The texts and the expected values of [cfg_test.go], run on the model:
    each theorem gives all the calls of the callback, in order, where the
    test looks at the calls whose labels it knows.  The lines and the items
    go through the helpers of package [txt] as the specification has
    them. *)

Module Tests.

(** The file [testdata/testBlocks.cfg], up to its container [testData]. *)
Definition testBlocks_head : text :=
  go "See cfg.go for specific information on the different Config types and\n"
  ++ go "their specific syntax.  But in general, all labels must start the line\n"
  ++ go "(no leading whitespace) along with the type specific identifier, and\n"
  ++ go "must be the only thing on that line.\n\n"
  ++ go "Generally anything outside a config block is ignored.  The exception\n"
  ++ go "is the ConfigValue that matches with 'label := value' on any line.\n\n"
  ++ go "For the Config Block, all text is included; extra whitespace and the\n"
  ++ go "comment lines (lines starting with '#') which are normally ignored by\n"
  ++ go "the other Config types.\n\n"
  ++ go "For Config Data (a scoped grouping of the other Config types) all\n"
  ++ go "contained lines must have a leading TAB character, which is removed\n"
  ++ go "before the data is recursed into for the sub data types.\n\nblock1 <\n"
  ++ go "block1 blah blah\n\nblah blah blah\n>\n\nblock2<\nblock2 blah blah\n"
  ++ go "\t\nblah blah blah\n>\n\nblock3<\nblock3 blah blah\nblah blah blah\n"
  ++ go ">\n\nblock4 <\nblock4 blah blah\n# this is included in the block!\n"
  ++ go "blah blah blah\n>\n\nunknownBlock <\nunknownBlock blah blah\n"
  ++ go "blah blah blax\n>\n\n\nitems1{\n\tapple\n\tbanana cherry\n\tdate\n"
  ++ go "\t# elephant\n\t\n\t{-}\n\t}-{\n\tfig grape\n}\n\nitems2 , {\n"
  ++ go "\tapple, banana\n\t\n\tcherry, date\n\t# elephant\n\tfig, grape\n}\n\n"
  ++ go "unknownBlock {\n\tunknownBlock unknownBlock unknownBlock\n}\n\n"
  ++ go "lines1 [\n\tapple\n\tbanana cherry\n\t\n\tdate\n\t# elephant\n\t[ ]\n"
  ++ go "\t] [\n\tfig grape\n]\n\nlines2[\n\tapple banana\n\tcherry\n\tdate\n"
  ++ go "\t# elephant\n\n\tfig   grape\n]\n\nunknownBlock [\n"
  ++ go "\tunknownBlock unknownBlock unknownBlock\n]\n\n".

(** The container [testData] that ends the file. *)
Definition testBlocks_data : text :=
  go "testData(\n\tapple:=tree\n\tblocks (\n\t\tbanana:= plant\n"
  ++ go "\t\tblock1 <\n\t\tblock1 blah blah\n\n\t\tblah blah blah\n\t\t>\n\n"
  ++ go "\t\tblock2<\n\t\tblock2 blah blah\n\t\t\t\n\t\tblah blah blah\n\t\t>\n"
  ++ go "\n\t\tblock3<\n\t\tblock3 blah blah\n\t\tblah blah blah\n\t\t>\n\n"
  ++ go "\t\tunknownBlock <\n\t\tunknownBlock blah blah\n\t\tblah blah blax\n"
  ++ go "\t\t>\n\t)\n\n\tlists (\n\t\tcherry := berry\n\t\titems1{\n"
  ++ go "\t\t\tapple\n\t\t\tbanana cherry\n\t\t\tdate\n\t\t\t# elephant\n"
  ++ go "\t\t\t\n\t\t\t{-}\n\t\t\t}-{\n\t\t\tfig grape\n\t\t}\n\n"
  ++ go "\t\titems2 , {\n\t\t\tapple, banana\n\t\t\t\n\t\t\tcherry, date\n"
  ++ go "\t\t\t# elephant\n\t\t\tfig, grape\n\t\t}\n\n\t\tunknownBlock {\n"
  ++ go "\t\t\tunknownBlock unknownBlock unknownBlock\n\t\t}\n\t)\n\n"
  ++ go "\tlines (\n\t\tcashew :=   nut  \n\t\tlines1 [\n\t\t\tapple\n"
  ++ go "\t\t\tbanana cherry\n\t\t\t\n\t\t\tdate\n\t\t\t# elephant\n\t\t\t[ ]\n"
  ++ go "\t\t\t] [\n\t\t\tfig grape\n\t\t]\n\n\t\tlines2[\n\t\t\tapple banana\n"
  ++ go "\t\t\tcherry\n\t\t\tdate\n\t\t\t# elephant\n\n\t\t\tfig   grape\n"
  ++ go "\t\t]\n\n\t\tunknownBlock [\n"
  ++ go "\t\t\tunknownBlock unknownBlock unknownBlock\n\t\t]\n\t)\n)".

Definition conf : text := testBlocks_head ++ testBlocks_data.

Definition blk1 : text := go "block1 blah blah\n\nblah blah blah".
Definition blk2 : text := go "block2 blah blah\n\t\nblah blah blah".
Definition blk3 : text := go "block3 blah blah\nblah blah blah".
Definition blk4 : text :=
  go "block4 blah blah\n# this is included in the block!\nblah blah blah".
Definition unknown_block : text := go "unknownBlock blah blah\nblah blah blax".

Definition itm1 : list text :=
  [go "apple"; go "banana"; go "cherry"; go "date"; go "{-}"; go "}-{";
   go "fig"; go "grape"].
Definition itm2 : list text :=
  [go "apple"; go "banana"; go "cherry"; go "date"; go "fig"; go "grape"].
Definition lst1 : list text :=
  [go "apple"; go "banana cherry"; go "date"; go "[ ]"; go "] ["; go "fig grape"].
Definition lst2 : list text :=
  [go "apple banana"; go "cherry"; go "date"; go "fig   grape"].
Definition unknown_items : list text :=
  [go "unknownBlock"; go "unknownBlock"; go "unknownBlock"].
Definition unknown_lines : list text :=
  [go "unknownBlock unknownBlock unknownBlock"].

Definition valueTests : text :=
  go "\napple := tree\nbanana := plant\nblank :=\ncherry := berry\ncashew := nut\n".

(** TestConfigValues: on [valueTests], HandleConfigValues calls back with
    the five labels and their values, the empty value of [blank] too. *)
Theorem TestConfigValues :
  HandleConfigValues valueTests =
  Some [(go "apple", go "tree"); (go "banana", go "plant"); (go "blank", []);
        (go "cherry", go "berry"); (go "cashew", go "nut")].
Proof. vm_compute. reflexivity. Qed.

(** TestConfigBlocks: on the file [testdata/testBlocks.cfg],
    HandleConfigBlocks calls back with the four blocks the test knows and
    with [unknownBlock], and with nothing from inside [testData]. *)
Theorem TestConfigBlocks :
  HandleConfigBlocks conf =
  Some [(go "block1", blk1); (go "block2", blk2); (go "block3", blk3);
        (go "block4", blk4); (go "unknownBlock", unknown_block)].
Proof. vm_compute. reflexivity. Qed.

(** TestConfigLines: on the same file, HandleConfigLines calls back with
    [lines1], [lines2] and [unknownBlock], comment lines and blank lines
    taken out and every line trimmed. *)
Theorem TestConfigLines :
  HandleConfigLines Txt.ListToStringSlice conf =
  Some [(go "lines1", lst1); (go "lines2", lst2);
        (go "unknownBlock", unknown_lines)].
Proof. vm_compute. reflexivity. Qed.

(** TestConfigItems: on the same file, HandleConfigItems calls back with
    [items1], split at blanks, with [items2], split at commas, and with
    [unknownBlock]. *)
Theorem TestConfigItems :
  HandleConfigItems Txt.SepListToStringSlice conf =
  Some [(go "items1", itm1); (go "items2", itm2);
        (go "unknownBlock", unknown_items)].
Proof. vm_compute. reflexivity. Qed.

(** TestConfigData, on the container [testData] of the file:
    HandleConfigData calls back with the values, blocks, items and lines
    of the three containers inside, each under its label path, and
    returns nil. *)
Theorem TestConfigData :
  HandleConfigData Txt.ListToStringSlice Txt.SepListToStringSlice testBlocks_data =
  Some ([Call ConfigValue (go "testData:apple") [go "tree"];
         Call ConfigValue (go "testData:blocks:banana") [go "plant"];
         Call ConfigBlock (go "testData:blocks:block1") [blk1];
         Call ConfigBlock (go "testData:blocks:block2") [blk2];
         Call ConfigBlock (go "testData:blocks:block3") [blk3];
         Call ConfigBlock (go "testData:blocks:unknownBlock") [unknown_block];
         Call ConfigValue (go "testData:lists:cherry") [go "berry"];
         Call ConfigItems (go "testData:lists:items1") itm1;
         Call ConfigItems (go "testData:lists:items2") itm2;
         Call ConfigItems (go "testData:lists:unknownBlock") unknown_items;
         Call ConfigValue (go "testData:lines:cashew") [go "nut"];
         Call ConfigLines (go "testData:lines:lines1") lst1;
         Call ConfigLines (go "testData:lines:lines2") lst2;
         Call ConfigLines (go "testData:lines:unknownBlock") unknown_lines],
        None).
Proof. vm_compute. reflexivity. Qed.

(** TestStringListDict: the lines of [dictTest], read by HandleConfigLines
    and turned into a map by StringListToDict, give the three entries the
    test looks up, and no other. *)
Theorem TestStringListDict :
  option_map (map (fun c : text * list text => (fst c, StringListToDict (snd c))))
    (HandleConfigLines Txt.ListToStringSlice
       (go "\ndictTest [\n\t# comment\n\talpha : apple sauce\n\tbeta: banana bread\n\n\tdelta :date soup\n]")) =
  Some [(go "dictTest",
         [(go "alpha", go "apple sauce"); (go "beta", go "banana bread");
          (go "delta", go "date soup")])].
Proof. vm_compute. reflexivity. Qed.

End Tests.
